(** * TopDog3D: the gameplay loop of [main.js]

    The repository carries two game scripts named [main.js].

    - The first one (module [LaneRunner]) has three lanes, a keyboard
      listener, one obstacle loop that moves, tests and removes obstacles,
      and a fixed spawn interval.
    - The second one (module [ThemedRunner]) has themed spawning with an
      asset cache, a spawn interval that shrinks with the distance covered,
      a collision loop with per-type rules and a separate removal loop.

    JavaScript numbers are modelled as exact rationals ([Q]); integer
    valued counters and indices as [nat] or [Z].  Module [Binary64]
    evaluates in IEEE 754 arithmetic the two expressions of the second
    script whose end values depend on rounding.  The scene graph, the
    bounding-box computation and the model loader belong to three.js: the
    bounding box of an object is a parameter of the development, the loader
    is a list of requests in flight whose completions are events. *)

From Stdlib Require Import ZArith QArith Qround Qminmax Lia Lqa Ascii String Floats.
From stdpp Require Import base option list strings gmap.

Open Scope Q_scope.

(** ** JavaScript numbers and strings *)

Module Js.

(** [a > b], [a < b] on numbers. *)
Definition gt (a b : Q) : bool := negb (Qle_bool a b).
Definition lt (a b : Q) : bool := negb (Qle_bool b a).

(** [Math.floor]. *)
Definition Math_floor (x : Q) : Z := Qfloor x.

(** [Math.floor(Math.random() * n)] for a draw [u] of [Math.random()],
    used as an array index. *)
Definition random_index (u : Q) (n : nat) : nat :=
  Z.to_nat (Math_floor (u * inject_Z (Z.of_nat n))).

(** [Math.random()] returns a number in [[0, 1)]. *)
Definition is_random (u : Q) : Prop := 0 <= u /\ u < 1.

(** [String.prototype.toLowerCase] on ASCII text. *)
Definition lower_ascii (c : ascii) : ascii :=
  let n := nat_of_ascii c in
  if ((65 <=? n) && (n <=? 90))%nat then ascii_of_nat (n + 32) else c.

Fixpoint toLowerCase (s : string) : string :=
  match s with
  | EmptyString => EmptyString
  | String c r => String (lower_ascii c) (toLowerCase r)
  end.

(** [s.includes(sub)]. *)
Fixpoint includes (s sub : string) : bool :=
  String.prefix sub s ||
  match s with
  | EmptyString => false
  | String _ r => includes r sub
  end.

End Js.

(** ** The part of three.js the scripts use *)

Module Three.

Record Vector3 := mkVector3 { vx : Q; vy : Q; vz : Q }.

(** Angles of the obstacle catalogue: [0], [Math.PI / 2], or a literal
    number of radians. *)
Inductive Angle := Zero | HalfPi | Radians (q : Q).

Record Euler := mkEuler { ex : Angle; ey : Angle; ez : Angle }.

(** An [Object3D].  [uid] stands for the identity of the JavaScript
    object; [userData] holds [userData.type] when it was set. *)
Record Object3D := mkObject3D {
  uid : nat;
  position : Vector3;
  scale : Vector3;
  rotation : Euler;
  userData : option string
}.

Record Box3 := mkBox3 { bmin : Vector3; bmax : Vector3 }.

(** [Box3.intersectsBox]. *)
Definition intersectsBox (a b : Box3) : bool :=
  (Qle_bool (vx (bmin b)) (vx (bmax a)) && Qle_bool (vx (bmin a)) (vx (bmax b))) &&
  (Qle_bool (vy (bmin b)) (vy (bmax a)) && Qle_bool (vy (bmin a)) (vy (bmax b))) &&
  (Qle_bool (vz (bmin b)) (vz (bmax a)) && Qle_bool (vz (bmin a)) (vz (bmax b))).

(** [position.z += dz]. *)
Definition move_z (dz : Q) (o : Object3D) : Object3D :=
  mkObject3D (uid o)
    (mkVector3 (vx (position o)) (vy (position o)) (vz (position o) + dz))
    (scale o) (rotation o) (userData o).

(** A box of half-width [h] around the position of an object: what the
    script's stand-in for [Box3.setFromObject] computes for a mesh
    ([h = 0.25]). *)
Definition box_around (h : Q) (o : Object3D) : Box3 :=
  let p := position o in
  mkBox3 (mkVector3 (vx p - h) (vy p - h) (vz p - h))
         (mkVector3 (vx p + h) (vy p + h) (vz p + h)).

End Three.

Import Three.

(** Console output. *)
Inductive LogEntry :=
| Log (msg : string)
| Warn (msg : string)
| Error (msg : string).


(** What the scripts take from the rendering library at run time. *)
Class ThreeEnv := {
  (** [new THREE.Box3().setFromObject(o)]: the world-axis-aligned bounding
      box of [o] under its current transform. *)
  setFromObject : Object3D -> Box3;
  (** [typeof THREE.Box3 !== 'undefined']. *)
  Box3_defined : bool
}.

(** ** The first script: three lanes, one obstacle loop *)

Module LaneRunner.

Definition lanePositions : list Q := [-2; 0; 2].
Definition obstacleModelFiles : list string :=
  ["smallhoop.glb"; "largehoop.glb"; "ringette_ring.glb"; "table.glb"; "jump1.glb"]%string.
Definition obstacleModelPath : string := "models/obstacles/".
Definition camera_position_z : Q := 5.
Definition spawnZPosition : Q := -20.
Definition removalZPosition : Q := camera_position_z + 5.
Definition obstacleSpeed : Q := 1 # 10.
Definition spawnInterval : Q := 2000.
Definition distanceFactor : Q := 5 # 100.

(** A [gltfLoader.load] call that has not resolved yet: what its callbacks
    captured. *)
Record Request := mkRequest {
  randomLaneIndex : nat;
  fullModelPath : string
}.

Record GameState := mkState {
  isGameOver : bool;
  distanceCovered : Q;
  currentLaneIndex : Z;
  lastSpawnTime : Q;
  playerCube : Object3D;
  playerColor : Z;
  obstacles : list Object3D;
  scene : list nat;
  inFlight : list Request;
  console : list LogEntry;
  nextUid : nat
}.

Definition set_isGameOver (b : bool) (s : GameState) : GameState :=
  mkState b (distanceCovered s) (currentLaneIndex s) (lastSpawnTime s)
    (playerCube s) (playerColor s) (obstacles s) (scene s) (inFlight s)
    (console s) (nextUid s).
Definition set_distanceCovered (d : Q) (s : GameState) : GameState :=
  mkState (isGameOver s) d (currentLaneIndex s) (lastSpawnTime s)
    (playerCube s) (playerColor s) (obstacles s) (scene s) (inFlight s)
    (console s) (nextUid s).
Definition set_currentLaneIndex (i : Z) (s : GameState) : GameState :=
  mkState (isGameOver s) (distanceCovered s) i (lastSpawnTime s)
    (playerCube s) (playerColor s) (obstacles s) (scene s) (inFlight s)
    (console s) (nextUid s).
Definition set_lastSpawnTime (t : Q) (s : GameState) : GameState :=
  mkState (isGameOver s) (distanceCovered s) (currentLaneIndex s) t
    (playerCube s) (playerColor s) (obstacles s) (scene s) (inFlight s)
    (console s) (nextUid s).
Definition set_playerCube (p : Object3D) (s : GameState) : GameState :=
  mkState (isGameOver s) (distanceCovered s) (currentLaneIndex s) (lastSpawnTime s)
    p (playerColor s) (obstacles s) (scene s) (inFlight s)
    (console s) (nextUid s).
Definition set_playerColor (c : Z) (s : GameState) : GameState :=
  mkState (isGameOver s) (distanceCovered s) (currentLaneIndex s) (lastSpawnTime s)
    (playerCube s) c (obstacles s) (scene s) (inFlight s)
    (console s) (nextUid s).
Definition set_obstacles (l : list Object3D) (s : GameState) : GameState :=
  mkState (isGameOver s) (distanceCovered s) (currentLaneIndex s) (lastSpawnTime s)
    (playerCube s) (playerColor s) l (scene s) (inFlight s)
    (console s) (nextUid s).
Definition set_scene (l : list nat) (s : GameState) : GameState :=
  mkState (isGameOver s) (distanceCovered s) (currentLaneIndex s) (lastSpawnTime s)
    (playerCube s) (playerColor s) (obstacles s) l (inFlight s)
    (console s) (nextUid s).
Definition set_inFlight (l : list Request) (s : GameState) : GameState :=
  mkState (isGameOver s) (distanceCovered s) (currentLaneIndex s) (lastSpawnTime s)
    (playerCube s) (playerColor s) (obstacles s) (scene s) l
    (console s) (nextUid s).
Definition set_nextUid (n : nat) (s : GameState) : GameState :=
  mkState (isGameOver s) (distanceCovered s) (currentLaneIndex s) (lastSpawnTime s)
    (playerCube s) (playerColor s) (obstacles s) (scene s) (inFlight s)
    (console s) n.

(** [console.log], [console.error]: the newest entry comes first. *)
Definition console_put (e : LogEntry) (s : GameState) : GameState :=
  mkState (isGameOver s) (distanceCovered s) (currentLaneIndex s) (lastSpawnTime s)
    (playerCube s) (playerColor s) (obstacles s) (scene s) (inFlight s)
    (e :: console s) (nextUid s).

(** [scene.add(o)], [scene.remove(o)]: the scene holds references. *)
Definition scene_add (o : Object3D) (s : GameState) : GameState :=
  set_scene (scene s ++ [uid o]) s.
Definition scene_remove (o : Object3D) (s : GameState) : GameState :=
  set_scene (filter (fun u => u <> uid o) (scene s)) s.

(** [obj.position.x = x]. *)
Definition set_position_x (x : Q) (o : Object3D) : Object3D :=
  mkObject3D (uid o) (mkVector3 x (vy (position o)) (vz (position o)))
    (scale o) (rotation o) (userData o).

(** The player cube: a unit box, red, standing on the ground in the middle
    lane. *)
Definition initial_playerCube : Object3D :=
  mkObject3D 0 (mkVector3 0 (1 # 2) 0) (mkVector3 1 1 1)
    (mkEuler Zero Zero Zero) None.

Definition initial_state : GameState :=
  mkState false 0 1 0 initial_playerCube 16711680 [] [0%nat] [] [] 1.

(** The [keydown] listener. *)
Definition keydown (key : string) (s : GameState) : GameState :=
  if isGameOver s then s
  else if String.eqb key "ArrowLeft" then
    if (0 <? currentLaneIndex s)%Z
    then set_currentLaneIndex (currentLaneIndex s - 1)%Z s
    else s
  else if String.eqb key "ArrowRight" then
    if (currentLaneIndex s <? Z.of_nat (length lanePositions) - 1)%Z
    then set_currentLaneIndex (currentLaneIndex s + 1)%Z s
    else s
  else s.

(** [spawnObstacle]: draws a lane and a model file and issues the load. *)
Definition spawnObstacle (rLane rModel : Q) (s : GameState) : GameState :=
  let randomLaneIndex := Js.random_index rLane (length lanePositions) in
  match obstacleModelFiles !! Js.random_index rModel (length obstacleModelFiles) with
  | Some randomModelFilename =>
      let fullModelPath := (obstacleModelPath ++ randomModelFilename)%string in
      set_inFlight (inFlight s ++ [mkRequest randomLaneIndex fullModelPath]) s
  | None => s (* no draw of [Math.random] leads here *)
  end.

(** The success callback of a load: [gltf.scene] is a fresh object. *)
Definition onLoad (r : Request) (s : GameState) : GameState :=
  match lanePositions !! randomLaneIndex r with
  | Some laneX =>
      let loadedModel :=
        mkObject3D (nextUid s) (mkVector3 laneX (1 # 2) spawnZPosition)
          (mkVector3 (1 # 2) (1 # 2) (1 # 2)) (mkEuler Zero HalfPi Zero) None in
      let s := set_nextUid (S (nextUid s)) s in
      let s := scene_add loadedModel s in
      set_obstacles (obstacles s ++ [loadedModel]) s
  | None => s (* no draw of [Math.random] leads here *)
  end.

(** The error callback of a load. *)
Definition onError (r : Request) (s : GameState) : GameState :=
  console_put (Error ("Error loading GLTF model from " ++ fullModelPath r ++ ":")) s.

(** The body of the obstacle loop of [animate], with [k] the number of
    indices still to visit: the iteration visits index [k - 1], so the
    loop runs from [obstacles.length - 1] down to [0]. *)
Fixpoint obstacleLoop `{ThreeEnv} (playerBoundingBox : Box3) (k : nat)
    (s : GameState) : GameState :=
  match k with
  | O => s
  | S i =>
      match obstacles s !! i with
      | None => s
      | Some o =>
          let obstacle := move_z obstacleSpeed o in
          let s := set_obstacles (<[i := obstacle]> (obstacles s)) s in
          let obstacleBoundingBox := setFromObject obstacle in
          if intersectsBox playerBoundingBox obstacleBoundingBox then
            (* break *)
            set_playerColor 255 (console_put (Log "Game Over!") (set_isGameOver true s))
          else if Js.gt (vz (position obstacle)) removalZPosition then
            obstacleLoop playerBoundingBox i
              (set_obstacles (delete i (obstacles s)) (scene_remove obstacle s))
          else obstacleLoop playerBoundingBox i s
      end
  end.

(** [animate(currentTime)], with the draws [spawnObstacle] makes when it is
    called.  The text of the script has one closing brace too few in this
    function; the blocks are read as their indentation and their use of
    [obstacle] and [i] show: the removal test belongs to the loop body, the
    distance update follows the loop, rendering follows the [isGameOver]
    test.  Rendering and the distance read-out leave the game state
    alone. *)
Definition animate `{ThreeEnv} (currentTime rLane rModel : Q) (s : GameState)
    : GameState :=
  if isGameOver s then s
  else
    let s :=
      match lanePositions !! Z.to_nat (currentLaneIndex s) with
      | Some x => set_playerCube (set_position_x x (playerCube s)) s
      | None => s
      end in
    let s :=
      if Js.gt (currentTime - lastSpawnTime s) spawnInterval
      then set_lastSpawnTime currentTime (spawnObstacle rLane rModel s)
      else s in
    let playerBoundingBox := setFromObject (playerCube s) in
    let s := obstacleLoop playerBoundingBox (length (obstacles s)) s in
    set_distanceCovered (distanceCovered s + distanceFactor) s.

(** What can happen to the page: a key press, an animation frame, and the
    resolution of the [k]-th load in flight. *)
Inductive Event :=
| KeyDown (key : string)
| Frame (currentTime rLane rModel : Q)
| LoadSuccess (k : nat)
| LoadError (k : nat).

Definition step `{ThreeEnv} (e : Event) (s : GameState) : GameState :=
  match e with
  | KeyDown key => keydown key s
  | Frame currentTime rLane rModel => animate currentTime rLane rModel s
  | LoadSuccess k =>
      match inFlight s !! k with
      | Some r => onLoad r (set_inFlight (delete k (inFlight s)) s)
      | None => s
      end
  | LoadError k =>
      match inFlight s !! k with
      | Some r => onError r (set_inFlight (delete k (inFlight s)) s)
      | None => s
      end
  end.

(** Events the page can deliver: the draws come from [Math.random]. *)
Definition valid_event (e : Event) : Prop :=
  match e with
  | Frame _ rLane rModel => Js.is_random rLane /\ Js.is_random rModel
  | _ => True
  end.

Definition run `{ThreeEnv} (es : list Event) (s : GameState) : GameState :=
  fold_left (fun s e => step e s) es s.

Inductive reachable `{ThreeEnv} : GameState -> Prop :=
| reachable_init : reachable initial_state
| reachable_step e s : reachable s -> valid_event e -> reachable (step e s).

(** [advance o] is [o] after [position.z += obstacleSpeed]. *)
Definition advance (o : Object3D) : Object3D := move_z obstacleSpeed o.

(** The obstacle, once advanced, overlaps the player's box. *)
Definition collides `{ThreeEnv} (playerBoundingBox : Box3) (o : Object3D) : bool :=
  intersectsBox playerBoundingBox (setFromObject (advance o)).

(** The removal test of the obstacle loop. *)
Definition beyond (o : Object3D) : bool :=
  Js.gt (vz (position o)) removalZPosition.

(** The player cube after the lane snap of a frame. *)
Definition snapped (s : GameState) : Object3D :=
  match lanePositions !! Z.to_nat (currentLaneIndex s) with
  | Some x => set_position_x x (playerCube s)
  | None => playerCube s
  end.

(** The lane index designates a lane. *)
Definition lane_ok (s : GameState) : Prop :=
  (0 <= currentLaneIndex s <= Z.of_nat (length lanePositions) - 1)%Z.

(** Where the success callback puts an obstacle, up to its depth. *)
Definition in_lane (o : Object3D) : Prop :=
  vx (position o) ∈ lanePositions /\ vy (position o) = 1 # 2.

(** Every field of the game state but the console and the loads in flight. *)
Definition game_fields (s : GameState) :=
  (isGameOver s, distanceCovered s, currentLaneIndex s, lastSpawnTime s,
   playerCube s, playerColor s, obstacles s, scene s, nextUid s).

End LaneRunner.

(** ** The second script: themes, asset cache, difficulty ramp *)

Module ThemedRunner.

(** An entry of [obstacleConfigurations]. *)
Record ObstacleConfig := mkConfig {
  cfg_scale : Vector3;
  cfg_rotation : Euler;
  positionY : Q
}.

Definition default_config : ObstacleConfig :=
  mkConfig (mkVector3 (1 # 2) (1 # 2) (1 # 2)) (mkEuler Zero HalfPi Zero) (1 # 2).

Definition obstacleConfigurations : gmap string ObstacleConfig :=
  list_to_map
    [ ("CoveredTunnel.glb",
       mkConfig (mkVector3 (12 # 10) (12 # 10) (15 # 10)) (mkEuler Zero HalfPi Zero) (6 # 10));
      ("TunnelBendLarge.glb",
       mkConfig (mkVector3 (12 # 10) (12 # 10) (12 # 10)) (mkEuler Zero HalfPi Zero) (6 # 10));
      ("TunnelBendSmall.glb",
       mkConfig (mkVector3 1 1 1) (mkEuler Zero HalfPi Zero) (5 # 10));
      ("tunnelline.glb",
       mkConfig (mkVector3 1 1 2) (mkEuler Zero HalfPi Zero) (5 # 10));
      ("jump1.glb",
       mkConfig (mkVector3 (6 # 10) (6 # 10) (6 # 10)) (mkEuler Zero HalfPi Zero) (1 # 10));
      ("jump2.glb",
       mkConfig (mkVector3 (6 # 10) (6 # 10) (6 # 10)) (mkEuler Zero HalfPi Zero) (1 # 10));
      ("jump3.glb",
       mkConfig (mkVector3 (6 # 10) (6 # 10) (6 # 10)) (mkEuler Zero HalfPi Zero) (1 # 10));
      ("largehoop.glb",
       mkConfig (mkVector3 1 1 1) (mkEuler Zero Zero Zero) 1);
      ("smallhoop.glb",
       mkConfig (mkVector3 (7 # 10) (7 # 10) (7 # 10)) (mkEuler Zero Zero Zero) (7 # 10));
      ("ringette_ring.glb",
       mkConfig (mkVector3 (8 # 10) (2 # 10) (8 # 10)) (mkEuler HalfPi Zero Zero) (1 # 10));
      ("slalom.glb",
       mkConfig (mkVector3 (2 # 10) (15 # 10) (2 # 10)) (mkEuler Zero HalfPi Zero) (75 # 100));
      ("swingboard.glb",
       mkConfig (mkVector3 1 (2 # 10) (5 # 10)) (mkEuler Zero HalfPi Zero) (5 # 10));
      ("table.glb",
       mkConfig (mkVector3 1 (8 # 10) (6 # 10)) (mkEuler Zero HalfPi Zero) (4 # 10));
      ("teeter.glb",
       mkConfig (mkVector3 (15 # 10) (2 # 10) (4 # 10))
         (mkEuler Zero HalfPi (Radians (17 # 100))) (3 # 10));
      ("default", default_config) ]%string.

(** [obstacleConfigurations[name] || obstacleConfigurations['default']]. *)
Definition lookupConfig (name : string) : ObstacleConfig :=
  match obstacleConfigurations !! name with
  | Some c => c
  | None => default_config
  end.

Definition baseSpawnInterval : Q := 2.
Definition spawnIntervalReductionFactor : Q := 1 # 10.
Definition difficultyStepDistance : Q := 150.
Definition minSpawnInterval : Q := 75 # 100.
Definition maxObstaclesInScene : nat := 15.
Definition playerSpeed : Q := 5.
Definition camera_position_z : Q := 10.
Definition lanePositions : list Q := [-(25 # 10); 0; 25 # 10].
Definition maxObstaclesPerTheme : nat := 5.

(** [obstacleThemes], in the order the object literal lists its keys. *)
Definition obstacleThemes : list (string * list string) :=
  [ ("jumps", ["jump1.glb"; "jump2.glb"; "jump3.glb"; "table.glb"; "teeter.glb"]);
    ("tunnels", ["CoveredTunnel.glb"; "TunnelBendLarge.glb"; "TunnelBendSmall.glb";
                 "tunnelline.glb"]);
    ("hoops", ["smallhoop.glb"; "largehoop.glb"; "ringette_ring.glb"]);
    ("technical", ["slalom.glb"; "swingboard.glb"]) ]%string.

(** [Object.keys(obstacleThemes)]. *)
Definition themeKeys : list string := obstacleThemes.*1.

(** [obstacleThemes[name]]; [None] is [undefined]. *)
Definition theme_lookup (name : option string) : option (list string) :=
  name ≫= fun n => (list_to_map obstacleThemes : gmap string (list string)) !! n.

Record GameState := mkState {
  isGameOver : bool;
  distanceCovered : Q;
  lastSpawnTime : Q;
  currentThemeIndex : nat;
  currentThemeName : option string;
  obstaclesSpawnedInCurrentTheme : nat;
  obstacles : list Object3D;
  scene : list nat;
  loadedObstacleAssets : gmap string nat;
  inFlight : list string;
  playerColor : Z;
  console : list LogEntry;
  nextUid : nat
}.

Definition set_isGameOver (b : bool) (s : GameState) : GameState :=
  mkState b (distanceCovered s) (lastSpawnTime s) (currentThemeIndex s)
    (currentThemeName s) (obstaclesSpawnedInCurrentTheme s) (obstacles s) (scene s)
    (loadedObstacleAssets s) (inFlight s) (playerColor s) (console s) (nextUid s).
Definition set_distanceCovered (d : Q) (s : GameState) : GameState :=
  mkState (isGameOver s) d (lastSpawnTime s) (currentThemeIndex s)
    (currentThemeName s) (obstaclesSpawnedInCurrentTheme s) (obstacles s) (scene s)
    (loadedObstacleAssets s) (inFlight s) (playerColor s) (console s) (nextUid s).
Definition set_lastSpawnTime (t : Q) (s : GameState) : GameState :=
  mkState (isGameOver s) (distanceCovered s) t (currentThemeIndex s)
    (currentThemeName s) (obstaclesSpawnedInCurrentTheme s) (obstacles s) (scene s)
    (loadedObstacleAssets s) (inFlight s) (playerColor s) (console s) (nextUid s).
Definition set_theme (i : nat) (name : option string) (s : GameState) : GameState :=
  mkState (isGameOver s) (distanceCovered s) (lastSpawnTime s) i
    name (obstaclesSpawnedInCurrentTheme s) (obstacles s) (scene s)
    (loadedObstacleAssets s) (inFlight s) (playerColor s) (console s) (nextUid s).
Definition set_obstaclesSpawnedInCurrentTheme (n : nat) (s : GameState) : GameState :=
  mkState (isGameOver s) (distanceCovered s) (lastSpawnTime s) (currentThemeIndex s)
    (currentThemeName s) n (obstacles s) (scene s)
    (loadedObstacleAssets s) (inFlight s) (playerColor s) (console s) (nextUid s).
Definition set_obstacles (l : list Object3D) (s : GameState) : GameState :=
  mkState (isGameOver s) (distanceCovered s) (lastSpawnTime s) (currentThemeIndex s)
    (currentThemeName s) (obstaclesSpawnedInCurrentTheme s) l (scene s)
    (loadedObstacleAssets s) (inFlight s) (playerColor s) (console s) (nextUid s).
Definition set_scene (l : list nat) (s : GameState) : GameState :=
  mkState (isGameOver s) (distanceCovered s) (lastSpawnTime s) (currentThemeIndex s)
    (currentThemeName s) (obstaclesSpawnedInCurrentTheme s) (obstacles s) l
    (loadedObstacleAssets s) (inFlight s) (playerColor s) (console s) (nextUid s).
Definition set_loadedObstacleAssets (m : gmap string nat) (s : GameState) : GameState :=
  mkState (isGameOver s) (distanceCovered s) (lastSpawnTime s) (currentThemeIndex s)
    (currentThemeName s) (obstaclesSpawnedInCurrentTheme s) (obstacles s) (scene s)
    m (inFlight s) (playerColor s) (console s) (nextUid s).
Definition set_inFlight (l : list string) (s : GameState) : GameState :=
  mkState (isGameOver s) (distanceCovered s) (lastSpawnTime s) (currentThemeIndex s)
    (currentThemeName s) (obstaclesSpawnedInCurrentTheme s) (obstacles s) (scene s)
    (loadedObstacleAssets s) l (playerColor s) (console s) (nextUid s).
Definition set_playerColor (c : Z) (s : GameState) : GameState :=
  mkState (isGameOver s) (distanceCovered s) (lastSpawnTime s) (currentThemeIndex s)
    (currentThemeName s) (obstaclesSpawnedInCurrentTheme s) (obstacles s) (scene s)
    (loadedObstacleAssets s) (inFlight s) c (console s) (nextUid s).
Definition set_nextUid (n : nat) (s : GameState) : GameState :=
  mkState (isGameOver s) (distanceCovered s) (lastSpawnTime s) (currentThemeIndex s)
    (currentThemeName s) (obstaclesSpawnedInCurrentTheme s) (obstacles s) (scene s)
    (loadedObstacleAssets s) (inFlight s) (playerColor s) (console s) n.

(** [console.log], [console.warn], [console.error]: newest entry first. *)
Definition console_put (e : LogEntry) (s : GameState) : GameState :=
  mkState (isGameOver s) (distanceCovered s) (lastSpawnTime s) (currentThemeIndex s)
    (currentThemeName s) (obstaclesSpawnedInCurrentTheme s) (obstacles s) (scene s)
    (loadedObstacleAssets s) (inFlight s) (playerColor s) (e :: console s) (nextUid s).

Definition scene_add (o : Object3D) (s : GameState) : GameState :=
  set_scene (scene s ++ [uid o]) s.
Definition scene_remove (o : Object3D) (s : GameState) : GameState :=
  set_scene (filter (fun u => u <> uid o) (scene s)) s.

(** The player cube: a box of side [0.5] at [(0, 0.25, 0)]; it never moves. *)
Definition playerCube : Object3D :=
  mkObject3D 0 (mkVector3 0 (25 # 100) 0) (mkVector3 1 1 1)
    (mkEuler Zero Zero Zero) None.

Definition initial_state : GameState :=
  mkState false 0 0 0 (themeKeys !! 0%nat) 0 [] [0%nat] ∅ [] 16711680 [] 1.

(** The clone of an asset after [scale.copy], [rotation.copy],
    [position.set(laneX, config.positionY, randomZ)] and the assignment of
    [userData]. *)
Definition configure (id : nat) (randomModelFilename : string) (laneX randomZ : Q)
    : Object3D :=
  let config := lookupConfig randomModelFilename in
  mkObject3D id (mkVector3 laneX (positionY config) randomZ)
    (cfg_scale config) (cfg_rotation config) (Some randomModelFilename).

(** The block both branches of [spawnObstacle] share: clone the asset,
    configure the clone, place it in a random lane at a random depth, tag
    it with its model file, count it and insert it. *)
Definition placeObstacle (randomModelFilename : string) (rLane rZ : Q)
    (s : GameState) : GameState :=
  match lanePositions !! Js.random_index rLane (length lanePositions) with
  | Some laneX =>
      let randomZ := - rZ * 50 - 20 in
      let loadedModel := configure (nextUid s) randomModelFilename laneX randomZ in
      let s := set_nextUid (S (nextUid s)) s in
      let s := set_obstaclesSpawnedInCurrentTheme
                 (S (obstaclesSpawnedInCurrentTheme s)) s in
      let s := scene_add loadedModel s in
      set_obstacles (obstacles s ++ [loadedModel]) s
  | None => s (* no draw of [Math.random] leads here *)
  end.

(** The theme switch at the head of [spawnObstacle]. *)
Definition switchTheme (s : GameState) : GameState :=
  if (maxObstaclesPerTheme <=? obstaclesSpawnedInCurrentTheme s)%nat then
    let i := ((currentThemeIndex s + 1) mod length themeKeys)%nat in
    set_obstaclesSpawnedInCurrentTheme 0 (set_theme i (themeKeys !! i) s)
  else s.

Definition theme_error (name : option string) : LogEntry :=
  Error ("Theme " ++ default "undefined" name ++ " has no models or is undefined.").

(** [spawnObstacle()], with the draws of [Math.random] in call order. *)
Definition spawnObstacle (rModel rLane rZ : Q) (s : GameState) : GameState :=
  let s := switchTheme s in
  match theme_lookup (currentThemeName s) with
  | None | Some [] => console_put (theme_error (currentThemeName s)) s
  | Some themeModels =>
      match themeModels !! Js.random_index rModel (length themeModels) with
      | Some randomModelFilename =>
          if decide (is_Some (loadedObstacleAssets s !! randomModelFilename)) then
            placeObstacle randomModelFilename rLane rZ s
          else
            set_inFlight (inFlight s ++ [randomModelFilename]) s
      | None => s (* no draw of [Math.random] leads here *)
      end
  end.

(** The success callback of a load: cache [gltf.scene], then insert a clone. *)
Definition onLoad (randomModelFilename : string) (rLane rZ : Q)
    (s : GameState) : GameState :=
  let s := set_loadedObstacleAssets
             (<[randomModelFilename := nextUid s]> (loadedObstacleAssets s)) s in
  let s := set_nextUid (S (nextUid s)) s in
  placeObstacle randomModelFilename rLane rZ s.

(** The error callback of a load. *)
Definition onError (randomModelFilename : string) (s : GameState) : GameState :=
  console_put
    (Error ("An error happened while loading " ++ randomModelFilename ++ ":")) s.

(** The classification the collision loop makes from [userData.type]. *)
Definition isTunnel (obstacleType : option string) : bool :=
  match obstacleType with
  | Some t => Js.includes (Js.toLowerCase t) "tunnel"
  | None => false
  end.
Definition isHoop (obstacleType : option string) : bool :=
  match obstacleType with
  | Some t => Js.includes (Js.toLowerCase t) "hoop"
  | None => false
  end.

(** The value of [collisionDetected] for one obstacle. *)
Definition collisionDetected (playerBoundingBox obstacleBoundingBox : Box3)
    (obstacleType : option string) : bool :=
  if isTunnel obstacleType then
    if intersectsBox playerBoundingBox obstacleBoundingBox then false else false
  else if isHoop obstacleType then
    if intersectsBox playerBoundingBox obstacleBoundingBox then true else false
  else
    if intersectsBox playerBoundingBox obstacleBoundingBox then true else false.

(** [`Game Over! Collided with ${obstacleType || 'unknown obstacle'}`]. *)
Definition gameOver_message (obstacleType : option string) : LogEntry :=
  Log ("Game Over! Collided with " ++
       match obstacleType with
       | Some t => if String.eqb t "" then "unknown obstacle" else t
       | None => "unknown obstacle"
       end).

(** What the loop does on a collision, before [break]. *)
Definition gameOver (obstacleType : option string) (s : GameState) : GameState :=
  set_playerColor 255 (console_put (gameOver_message obstacleType) (set_isGameOver true s)).

Definition box3_warning : LogEntry :=
  Warn "THREE.Box3 not defined, skipping collision check.".

(** The collision loop of [animate] over the entries still to visit, in
    index order; the loop does not touch the array. *)
Fixpoint collisionLoop `{ThreeEnv} (rest : list Object3D) (s : GameState)
    : GameState :=
  match rest with
  | [] => s
  | obstacle :: rest =>
      let obstacleType := userData obstacle in
      if negb Box3_defined then
        (* continue *)
        collisionLoop rest (console_put box3_warning s)
      else
        let playerBoundingBox := setFromObject playerCube in
        let obstacleBoundingBox := setFromObject obstacle in
        if collisionDetected playerBoundingBox obstacleBoundingBox obstacleType then
          (* break *)
          gameOver obstacleType s
        else collisionLoop rest s
  end.

(** The removal loop of [animate], with [k] the number of indices still to
    visit: the iteration visits index [k - 1]. *)
Fixpoint removalLoop (k : nat) (s : GameState) : GameState :=
  match k with
  | O => s
  | S i =>
      match obstacles s !! i with
      | None => s
      | Some o =>
          if Js.gt (vz (position o)) (camera_position_z + 10) then
            removalLoop i (set_obstacles (delete i (obstacles s)) (scene_remove o s))
          else removalLoop i s
      end
  end.

(** The spawn interval [animate] computes from the distance covered. *)
Definition currentSpawnInterval (distanceCovered : Q) : Q :=
  let currentSpawnInterval :=
    baseSpawnInterval -
    inject_Z (Js.Math_floor (distanceCovered / difficultyStepDistance)) *
    spawnIntervalReductionFactor in
  if Js.lt currentSpawnInterval minSpawnInterval then minSpawnInterval
  else currentSpawnInterval.

(** The test that gates [spawnObstacle] in [animate]. *)
Definition spawnDue (currentTime : Q) (s : GameState) : bool :=
  Js.gt (currentTime - lastSpawnTime s) (currentSpawnInterval (distanceCovered s))
  && (length (obstacles s) <? maxObstaclesInScene)%nat.

(** [animate()]: [deltaTime] is [clock.getDelta()], [currentTime] is
    [clock.getElapsedTime()]; the draws are those [spawnObstacle] makes when
    it is called.  Rendering leaves the game state alone. *)
Definition animate `{ThreeEnv} (deltaTime currentTime rModel rLane rZ : Q)
    (s : GameState) : GameState :=
  if isGameOver s then s
  else
    let s := set_distanceCovered (distanceCovered s + playerSpeed * deltaTime) s in
    let s := collisionLoop (obstacles s) s in
    let s := removalLoop (length (obstacles s)) s in
    if spawnDue currentTime s
    then set_lastSpawnTime currentTime (spawnObstacle rModel rLane rZ s)
    else s.

(** What can happen to the page: an animation frame, and the resolution of
    the [k]-th load in flight (a successful one draws a lane and a depth). *)
Inductive Event :=
| Frame (deltaTime currentTime rModel rLane rZ : Q)
| LoadSuccess (k : nat) (rLane rZ : Q)
| LoadError (k : nat).

Definition step `{ThreeEnv} (e : Event) (s : GameState) : GameState :=
  match e with
  | Frame deltaTime currentTime rModel rLane rZ =>
      animate deltaTime currentTime rModel rLane rZ s
  | LoadSuccess k rLane rZ =>
      match inFlight s !! k with
      | Some f => onLoad f rLane rZ (set_inFlight (delete k (inFlight s)) s)
      | None => s
      end
  | LoadError k =>
      match inFlight s !! k with
      | Some f => onError f (set_inFlight (delete k (inFlight s)) s)
      | None => s
      end
  end.

(** Events the page can deliver: the draws come from [Math.random]. *)
Definition valid_event (e : Event) : Prop :=
  match e with
  | Frame _ _ rModel rLane rZ =>
      Js.is_random rModel /\ Js.is_random rLane /\ Js.is_random rZ
  | LoadSuccess _ rLane rZ => Js.is_random rLane /\ Js.is_random rZ
  | LoadError _ => True
  end.

Definition run `{ThreeEnv} (es : list Event) (s : GameState) : GameState :=
  fold_left (fun s e => step e s) es s.

Inductive reachable `{ThreeEnv} : GameState -> Prop :=
| reachable_init : reachable initial_state
| reachable_step e s : reachable s -> valid_event e -> reachable (step e s).

(** The obstacle makes [collisionDetected] true in the collision loop. *)
Definition hit `{ThreeEnv} (o : Object3D) : bool :=
  collisionDetected (setFromObject playerCube) (setFromObject o) (userData o).

(** The player's bounding box overlaps the obstacle's. *)
Definition overlaps `{ThreeEnv} (o : Object3D) : bool :=
  intersectsBox (setFromObject playerCube) (setFromObject o).

(** The test of the removal loop. *)
Definition beyond (o : Object3D) : bool :=
  Js.gt (vz (position o)) (camera_position_z + 10).

(** The three rules of the collision loop, in the order it tests them. *)
Inductive Category := Tunnel | Hoop | Default.

Definition classify (obstacleType : option string) : Category :=
  if isTunnel obstacleType then Tunnel
  else if isHoop obstacleType then Hoop
  else Default.

(** Every model file of the catalogue. *)
Definition obstacleModelFiles : list string :=
  [ "CoveredTunnel.glb"; "jump1.glb"; "jump2.glb"; "jump3.glb";
    "largehoop.glb"; "ringette_ring.glb"; "slalom.glb"; "smallhoop.glb";
    "swingboard.glb"; "table.glb"; "teeter.glb"; "TunnelBendLarge.glb";
    "TunnelBendSmall.glb"; "tunnelline.glb" ]%string.

(** A console entry written by the collision loop on a collision. *)
Definition isGameOverEntry (e : LogEntry) : bool :=
  match e with
  | Log m => String.prefix "Game Over!" m
  | _ => false
  end.

(** The number of game-over entries on the console. *)
Definition gameOverCount (c : list LogEntry) : nat :=
  length (filter (fun e => isGameOverEntry e = true) c).

(** Every field of the game state but the console and the loads in flight. *)
Definition game_fields (s : GameState) :=
  (isGameOver s, distanceCovered s, lastSpawnTime s, currentThemeIndex s,
   currentThemeName s, obstaclesSpawnedInCurrentTheme s, obstacles s, scene s,
   loadedObstacleAssets s, playerColor s, nextUid s).

(** The active theme is the one the index designates. *)
Definition theme_ok (s : GameState) : Prop :=
  (currentThemeIndex s < length themeKeys)%nat /\
  currentThemeName s = themeKeys !! currentThemeIndex s.

Definition is_frame (e : Event) : bool :=
  match e with Frame _ _ _ _ _ => true | _ => false end.

(** States reached when every frame finds the loader idle: each load
    resolves before the next frame. *)
Inductive reachable_idle `{ThreeEnv} : GameState -> Prop :=
| reachable_idle_init : reachable_idle initial_state
| reachable_idle_step e s :
    reachable_idle s -> valid_event e ->
    (is_frame e = true -> inFlight s = []) ->
    reachable_idle (step e s).

(** The model files of the active theme. *)
Definition activeModels (s : GameState) : list string :=
  default [] (theme_lookup (currentThemeName s)).

(** Where [spawnObstacle] puts an obstacle: in a lane, at the height of its
    configuration, in the spawn band. *)
Definition placed_ok (o : Object3D) : Prop :=
  vx (position o) ∈ lanePositions /\
  (exists f, userData o = Some f /\ vy (position o) = positionY (lookupConfig f)) /\
  -70 < vz (position o) /\ vz (position o) <= -20.

(** The identities of the live obstacles are older than the next one. *)
Definition fresh (s : GameState) : Prop :=
  Forall (fun o => (uid o < nextUid s)%nat) (obstacles s).

End ThemedRunner.

(** ** The two rounding-sensitive expressions, in binary64 *)

Module Binary64.

Definition two52 : float := 4503599627370496%float.

(** [Math.floor] on a binary64 number, up to the sign of zero: numbers of
    magnitude [2^52] and more are integers; below that, adding and taking
    away [2^52] rounds to the nearest integer, which is the floor or one
    more. *)
Definition Math_floor (x : float) : float :=
  if (two52 <=? abs x)%float then x
  else
    let t := if (0 <=? x)%float then ((x + two52) - two52)%float
             else ((x - two52) + two52)%float in
    if (x <? t)%float then (t - 1)%float else t.

(** The literals [0.1], [0.75] and [1.7]: the binary64 numbers nearest to
    the decimal fractions, which correctly rounded division yields. *)
Definition lit_0_1 : float := (1 / 10)%float.
Definition lit_0_75 : float := (3 / 4)%float.
Definition lit_1_7 : float := (17 / 10)%float.

(** The spawn interval of [animate]. *)
Definition currentSpawnInterval (distanceCovered : float) : float :=
  let c := (2 - Math_floor (distanceCovered / 150) * lit_0_1)%float in
  if (c <? lit_0_75)%float then lit_0_75 else c.

(** [-Math.random() * 50 - 20] for a draw [r]. *)
Definition randomZ (r : float) : float := (- r * 50 - 20)%float.

(** The largest binary64 number below 1, the largest draw of
    [Math.random]. *)
Definition largest_draw : float := next_down 1%float.

End Binary64.

(** ** Sample data *)

Module Samples.

(** A rendering library whose bounding boxes have half-width [1/4] around
    the position of the object. *)
Definition sampleEnv : ThreeEnv :=
  {| setFromObject := box_around (1 # 4); Box3_defined := true |}.

(** A state of the second script with a small hoop standing on the player. *)
Definition themed_hoop_state : ThemedRunner.GameState :=
  ThemedRunner.set_obstacles
    [ThemedRunner.configure 1 "smallhoop.glb" 0 0] ThemedRunner.initial_state.

(** A state of the second script with a tunnel, a table and a hoop, all
    three standing on the player. *)
Definition themed_pileup_state : ThemedRunner.GameState :=
  ThemedRunner.set_obstacles
    [ThemedRunner.configure 1 "tunnelline.glb" 0 0;
     ThemedRunner.configure 2 "table.glb" 0 0;
     ThemedRunner.configure 3 "smallhoop.glb" 0 0] ThemedRunner.initial_state.



(** States in which the game is over. *)
Definition themed_over_state : ThemedRunner.GameState :=
  ThemedRunner.set_isGameOver true ThemedRunner.initial_state.
Definition lane_over_state : LaneRunner.GameState :=
  LaneRunner.set_isGameOver true LaneRunner.initial_state.

(** A run of the first script that ends in a collision: an obstacle is
    loaded into the middle lane, where the player stands, and frames follow
    each other every 16 ms until it arrives. *)
Definition lane_crash_run : list LaneRunner.Event :=
  LaneRunner.Frame 3000 (1 # 2) 0 :: LaneRunner.LoadSuccess 0 ::
  ((fun i => LaneRunner.Frame (3000 + 16 * inject_Z (Z.of_nat i)) (1 # 2) 0)
     <$> seq 1 200).

(** A run of the second script that loads one obstacle. *)
Definition themed_first_obstacle_run : list ThemedRunner.Event :=
  [ ThemedRunner.Frame (1 # 60) 3 0 0 0; ThemedRunner.LoadSuccess 0 0 0 ].


(** A state of the first script with an obstacle in the left lane about to
    pass the removal threshold, and one far ahead. *)
Definition lane_passing_state : LaneRunner.GameState :=
  LaneRunner.set_nextUid 3
    (LaneRunner.set_obstacles
       [mkObject3D 1 (mkVector3 (-2) (1 # 2) (995 # 100)) (mkVector3 (1 # 2) (1 # 2) (1 # 2))
          (mkEuler Zero HalfPi Zero) None;
        mkObject3D 2 (mkVector3 (-2) (1 # 2) (-20)) (mkVector3 (1 # 2) (1 # 2) (1 # 2))
          (mkEuler Zero HalfPi Zero) None]
       LaneRunner.initial_state).

(** States with one load in flight. *)
Definition themed_loading_state : ThemedRunner.GameState :=
  ThemedRunner.set_inFlight ["jump1.glb"] ThemedRunner.initial_state.
Definition lane_loading_state : LaneRunner.GameState :=
  LaneRunner.set_inFlight
    [LaneRunner.mkRequest 1 "models/obstacles/table.glb"] LaneRunner.initial_state.

(** A run of the first script at 25 frames a second: an obstacle is loaded
    into the left lane, a second one two seconds later into the middle
    lane, where the player stands, and the frames go on until the second
    one is a step away from the player. *)
Definition lane_frame (i : nat) : LaneRunner.Event :=
  LaneRunner.Frame (3000 + 40 * inject_Z (Z.of_nat i)) (1 # 2) 0.
Definition lane_overtaken_run : list LaneRunner.Event :=
  LaneRunner.Frame 3000 0 0 :: LaneRunner.LoadSuccess 0 ::
  (lane_frame <$> seq 1 51) ++
  LaneRunner.LoadSuccess 0 :: (lane_frame <$> seq 52 194).

End Samples.

(** ** The stand-in clock of the second script *)

Module MockClock.

(** The state of the closure: [mockStartTime], in milliseconds, and
    [mockElapsedTime], in seconds. *)
Record Clock := mkClock { mockStartTime : Q; mockElapsedTime : Q }.

(** [getDelta()], with [newTime] the value of [Date.now()]: the pair of the
    number returned and of the clock afterwards. *)
Definition getDelta (newTime : Q) (c : Clock) : Q * Clock :=
  let diff := (newTime - mockStartTime c) / 1000 in
  let c' := mkClock newTime (mockElapsedTime c + diff) in
  (if Js.gt diff (5 # 100) then 5 # 100 else diff, c').

(** [getElapsedTime()]. *)
Definition getElapsedTime (c : Clock) : Q := mockElapsedTime c.

(** [getDelta()] called at each of the times of a list: the numbers
    returned, and the clock afterwards. *)
Fixpoint getDeltas (times : list Q) (c : Clock) : list Q * Clock :=
  match times with
  | [] => ([], c)
  | t :: times =>
      let (d, c1) := getDelta t c in
      let (ds, c2) := getDeltas times c1 in
      (d :: ds, c2)
  end.

(** The times of a list never go back, starting from [t0]. *)
Fixpoint ascending (t0 : Q) (times : list Q) : Prop :=
  match times with
  | [] => True
  | t :: times => t0 <= t /\ ascending t times
  end.

(** The sum of a list of numbers. *)
Definition total (ds : list Q) : Q := foldr Qplus 0 ds.

End MockClock.

(** ** Notions for the properties of the first script *)

Module LaneNotions.
Import LaneRunner.

(** [n] presses of a key in a row. *)
Definition presses (key : string) (n : nat) (s : GameState) : GameState :=
  Nat.iter n (keydown key) s.

(** The number of animation frames among the events of a run. *)
Definition is_frame (e : Event) : bool :=
  match e with Frame _ _ _ => true | _ => false end.
Definition frameCount (es : list Event) : nat :=
  length (filter (fun e => is_frame e = true) es).

(** The number of entries written with [console.log], which the script
    uses for ["Game Over!"] only. *)
Definition isLog (e : LogEntry) : bool :=
  match e with Log _ => true | _ => false end.
Definition gameOverCount (c : list LogEntry) : nat :=
  length (filter (fun e => isLog e = true) c).

(** The player cube stands in a lane, on the ground, at depth 0. *)
Definition player_ok (s : GameState) : Prop :=
  vx (position (playerCube s)) ∈ lanePositions /\
  vy (position (playerCube s)) = 1 # 2 /\
  vz (position (playerCube s)) = 0.

(** The obstacle is a whole number of steps past the spawn depth. *)
Definition on_grid (o : Object3D) : Prop :=
  exists k : nat, vz (position o) == spawnZPosition + inject_Z (Z.of_nat k) * obstacleSpeed.

(** A load in flight was issued by [spawnObstacle]: a lane of the game and a
    model file of the list. *)
Definition request_ok (r : Request) : Prop :=
  (randomLaneIndex r < length lanePositions)%nat /\
  exists f, f ∈ obstacleModelFiles /\ fullModelPath r = (obstacleModelPath ++ f)%string.

(** The scene holds the objects [base] that the set-up put there (the
    ground plane and the player), then the live obstacles in the order of
    the array, each object once; the identities in use are older than the
    next one. *)
Definition scene_ok (base : list nat) (s : GameState) : Prop :=
  scene s = base ++ (uid <$> obstacles s) /\
  NoDup (base ++ (uid <$> obstacles s)) /\
  Forall (fun u => (u < nextUid s)%nat) (base ++ (uid <$> obstacles s)).

End LaneNotions.

(** ** Notions for the properties of the second script *)

Module ThemedNotions.
Import ThemedRunner.

(** The sum of the [deltaTime] of the frames of a run. *)
Definition frameTime (es : list Event) : Q :=
  foldr (fun e acc => match e with Frame deltaTime _ _ _ _ => deltaTime + acc | _ => acc end)
        0 es.

(** The obstacle is configured from the entry of its own model file in
    [obstacleConfigurations], and that file is one of the catalogue. *)
Definition own_config (o : Object3D) : Prop :=
  exists f c, userData o = Some f /\ f ∈ obstacleModelFiles /\
              obstacleConfigurations !! f = Some c /\
              scale o = cfg_scale c /\ rotation o = cfg_rotation c /\
              vy (position o) = positionY c.

(** The catalogue closes the state: live obstacles, loads in flight and
    cached assets all are models of [obstacleModelFiles]. *)
Definition catalogue_ok (s : GameState) : Prop :=
  Forall own_config (obstacles s) /\
  Forall (fun f => f ∈ obstacleModelFiles) (inFlight s) /\
  forall f, is_Some (loadedObstacleAssets s !! f) -> f ∈ obstacleModelFiles.

(** The scene holds the objects [base] that the set-up put there (the
    player and the lights), then the live obstacles in the order of the
    array, each object once; the identities in use are older than the
    next one. *)
Definition scene_ok (base : list nat) (s : GameState) : Prop :=
  scene s = base ++ (uid <$> obstacles s) /\
  NoDup (base ++ (uid <$> obstacles s)) /\
  Forall (fun u => (u < nextUid s)%nat) (base ++ (uid <$> obstacles s)).

End ThemedNotions.

(** ** The stand-in for [THREE.Box3] *)

Module MockBox3.

(** What [setFromObject] reads of its argument: whether
    [object.geometry.boundingBox] is there, [object.min] and [object.max]
    when both are there, and [object.position]. *)
Record MockObject := mkMockObject {
  geometry_boundingBox : bool;
  min_max : option (Vector3 * Vector3);
  mock_position : Vector3
}.

(** [new THREE.Box3()]. *)
Definition new_Box3 : Box3 := mkBox3 (mkVector3 0 0 0) (mkVector3 0 0 0).

(** [box.setFromObject(object)]: every branch assigns the six
    coordinates, so the box before the call does not matter. *)
Definition setFromObject (object : MockObject) : Box3 :=
  if geometry_boundingBox object then
    match min_max object with
    | Some (mn, mx) =>
        mkBox3 (mkVector3 (vx mn) (vy mn) (vz mn)) (mkVector3 (vx mx) (vy mx) (vz mx))
    | None =>
        let p := mock_position object in
        mkBox3 (mkVector3 (vx p - (25 # 100)) (vy p - (25 # 100)) (vz p - (25 # 100)))
               (mkVector3 (vx p + (25 # 100)) (vy p + (25 # 100)) (vz p + (25 # 100)))
    end
  else
    mkBox3 (mkVector3 (-(1 # 10)) (-(1 # 10)) (-(1 # 10)))
           (mkVector3 (1 # 10) (1 # 10) (1 # 10)).

(** [box.clone()]. *)
Definition clone (b : Box3) : Box3 :=
  mkBox3 (mkVector3 (vx (bmin b)) (vy (bmin b)) (vz (bmin b)))
         (mkVector3 (vx (bmax b)) (vy (bmax b)) (vz (bmax b))).

(** A mesh: an object with a geometry that has a bounding box, at a
    position. *)
Definition mesh (p : Vector3) : MockObject := mkMockObject true None p.

(** A group: an object without a geometry, at a position. *)
Definition group (p : Vector3) : MockObject := mkMockObject false None p.

(** A box whose corners are in order. *)
Definition well_formed (b : Box3) : Prop :=
  vx (bmin b) <= vx (bmax b) /\ vy (bmin b) <= vy (bmax b) /\
  vz (bmin b) <= vz (bmax b).

End MockBox3.

(** ** The second script driven by the stand-in clock *)

Module ClockedRunner.
Import ThemedRunner.

(** A call of [animate] by the browser: the value [Date.now()] has when
    the frame starts, and the draws of [Math.random]. *)
Record Tick := mkTick { now : Q; tickModel : Q; tickLane : Q; tickZ : Q }.

(** [animate()] with its clock: [deltaTime] is what [clock.getDelta()]
    returns at the head of the function, [currentTime] what
    [clock.getElapsedTime()] returns after it. *)
Definition frame `{ThreeEnv} (k : Tick) (cs : MockClock.Clock * GameState)
    : MockClock.Clock * GameState :=
  let (deltaTime, c) := MockClock.getDelta (now k) (fst cs) in
  (c, animate deltaTime (MockClock.getElapsedTime c)
        (tickModel k) (tickLane k) (tickZ k) (snd cs)).

Definition frames `{ThreeEnv} (ticks : list Tick) (cs : MockClock.Clock * GameState)
    : MockClock.Clock * GameState :=
  fold_left (fun cs k => frame k cs) ticks cs.

(** No two consecutive frames are more than 50 ms apart, starting from
    [t0]. *)
Fixpoint steady (t0 : Q) (times : list Q) : Prop :=
  match times with
  | [] => True
  | t :: times => t - t0 <= 50 /\ steady t times
  end.

End ClockedRunner.

(** ** Further sample runs *)

Module MoreSamples.





(** A run of the second script that loads the first jump and inserts it
    five times, three seconds apart: the counter of the first theme is at
    the cap and the last spawn was at 15 s. *)
Definition themed_cap_run : list ThemedRunner.Event :=
  [ ThemedRunner.Frame (1 # 60) 3 0 0 0; ThemedRunner.LoadSuccess 0 0 0;
    ThemedRunner.Frame (1 # 60) 6 0 0 0; ThemedRunner.Frame (1 # 60) 9 0 0 0;
    ThemedRunner.Frame (1 # 60) 12 0 0 0; ThemedRunner.Frame (1 # 60) 15 0 0 0 ].

(** The spawn attempt of the next frame, and the failure of its load. *)
Definition themed_failed_attempt : list ThemedRunner.Event :=
  [ ThemedRunner.Frame (1 # 60) 18 0 0 0; ThemedRunner.LoadError 0 ].

(** The first script after its set-up: the ground plane, object 1, was put
    on the scene before the player, object 0. *)
Definition lane_set_up : LaneRunner.GameState :=
  LaneRunner.set_scene [1; 0]%nat (LaneRunner.set_nextUid 2 LaneRunner.initial_state).


End MoreSamples.

(** * Properties *)

(** ** Numbers and draws *)

(** The comparisons of the scripts, as orders on the rationals. *)
Lemma gt_true a b : Js.gt a b = true <-> b < a.
Proof.
  unfold Js.gt. rewrite negb_true_iff, <- not_true_iff_false, Qle_bool_iff.
  split; [apply Qnot_le_lt | apply Qlt_not_le].
Qed.

Lemma gt_false a b : Js.gt a b = false <-> a <= b.
Proof. unfold Js.gt. rewrite negb_false_iff. apply Qle_bool_iff. Qed.

Lemma lt_true a b : Js.lt a b = true <-> a < b.
Proof. apply gt_true. Qed.

Lemma lt_false a b : Js.lt a b = false <-> b <= a.
Proof. apply gt_false. Qed.

(** [Math.floor(Math.random() * n)] is an index below [n]. *)
Lemma random_index_lt (u : Q) (n : nat) :
  Js.is_random u -> (0 < n)%nat -> (Js.random_index u n < n)%nat.
Proof.
  intros [H0 H1] Hn. unfold Js.random_index, Js.Math_floor.
  assert (Hn' : 0 < inject_Z (Z.of_nat n)).
  { rewrite <- (Zlt_Qlt 0). lia. }
  assert (Hlo : (0 <= Qfloor (u * inject_Z (Z.of_nat n)))%Z).
  { change 0%Z with (Qfloor 0). apply Qfloor_resp_le.
    apply Qmult_le_0_compat; [exact H0 | apply Qlt_le_weak, Hn']. }
  assert (Hhi : (Qfloor (u * inject_Z (Z.of_nat n)) < Z.of_nat n)%Z).
  { rewrite Zlt_Qlt. eapply Qle_lt_trans; [apply Qfloor_le |].
    rewrite <- (Qmult_1_l (inject_Z (Z.of_nat n))) at 2.
    apply Qmult_lt_compat_r; assumption. }
  lia.
Qed.

(** A draw of [Math.random] always designates an entry of a non-empty
    array: the branches of the model marked as beyond the draws are not
    taken. *)
Lemma random_pick {A} (u : Q) (l : list A) :
  Js.is_random u -> l <> [] -> is_Some (l !! Js.random_index u (length l)).
Proof.
  intros Hu Hl. apply lookup_lt_is_Some_2, random_index_lt; [done|].
  destruct l; [done | cbn; lia].
Qed.

(** In binary64 the interval at distance 450 is the number the literal
    [1.7] denotes, and the interval follows the steps and the floor. *)
Lemma binary64_interval :
  Binary64.currentSpawnInterval 450 = Binary64.lit_1_7 /\
  Binary64.currentSpawnInterval 449 = (18 / 10)%float /\
  Binary64.currentSpawnInterval 0 = 2%float /\
  Binary64.currentSpawnInterval 100000 = Binary64.lit_0_75.
Proof. repeat split; reflexivity. Qed.

(** In binary64 the spawn depth is -20 for a draw of 0, and the largest
    draw below 1 rounds to -70: both ends of the band are reached. *)
Lemma binary64_randomZ_ends :
  Binary64.randomZ 0 = (-20)%float /\
  Binary64.randomZ Binary64.largest_draw = (-70)%float /\
  (Binary64.largest_draw <? 1)%float = true.
Proof. repeat split; reflexivity. Qed.

(** Comparisons between rational literals. *)
Ltac q_solve := unfold Js.is_random, Qle, Qlt; cbn; lia.

(** ** The second script *)

Module ThemedRunnerProofs.
Import ThemedRunner.

(** Case analysis over the branches of the spawn code. *)
Ltac spawn_cases :=
  unfold spawnObstacle, onLoad, onError, placeObstacle, switchTheme;
  repeat case_match; cbn.

Section Loops.
Context `{ThreeEnv}.

(** With [THREE.Box3] present the collision loop stops at the first entry,
    in index order, that makes [collisionDetected] true. *)
Lemma collisionLoop_defined rest s :
  Box3_defined = true ->
  collisionLoop rest s =
    match list_find (fun o => hit o = true) rest with
    | Some (_, o) => gameOver (userData o) s
    | None => s
    end.
Proof.
  intros Hd. induction rest as [|o rest IH]; simpl; [done|].
  rewrite Hd. simpl. fold (hit o).
  destruct (hit o) eqn:Eh.
  - rewrite decide_True by done. done.
  - rewrite decide_False by congruence. rewrite IH.
    destruct (list_find _ rest) as [[i x]|]; done.
Qed.

(** Without [THREE.Box3] every entry is skipped with a warning. *)
Lemma collisionLoop_undefined rest s :
  Box3_defined = false ->
  game_fields (collisionLoop rest s) = game_fields s /\
  inFlight (collisionLoop rest s) = inFlight s /\
  gameOverCount (console (collisionLoop rest s)) = gameOverCount (console s).
Proof.
  intros Hd. revert s. induction rest as [|o rest IH]; intros s; simpl; [done|].
  rewrite Hd. simpl. destruct (IH (console_put box3_warning s)) as (-> & -> & ->).
  done.
Qed.

(** The collision loop touches the game-over flag, the player's colour and
    the console, nothing else. *)
Lemma collisionLoop_frame rest s :
  let s' := collisionLoop rest s in
  distanceCovered s' = distanceCovered s /\ lastSpawnTime s' = lastSpawnTime s /\
  currentThemeIndex s' = currentThemeIndex s /\
  currentThemeName s' = currentThemeName s /\
  obstaclesSpawnedInCurrentTheme s' = obstaclesSpawnedInCurrentTheme s /\
  obstacles s' = obstacles s /\ scene s' = scene s /\
  loadedObstacleAssets s' = loadedObstacleAssets s /\
  inFlight s' = inFlight s /\ nextUid s' = nextUid s.
Proof.
  destruct Box3_defined eqn:Hd.
  - cbn zeta. rewrite collisionLoop_defined by done.
    destruct (list_find _ rest) as [[i x]|]; done.
  - destruct (collisionLoop_undefined rest s Hd) as (Hg & Hi & _).
    unfold game_fields in Hg. cbn zeta. injection Hg as ?; auto 20.
Qed.

Lemma collisionLoop_isGameOver rest s :
  isGameOver s = true -> isGameOver (collisionLoop rest s) = true.
Proof.
  intros Hs. destruct Box3_defined eqn:Hd.
  - rewrite collisionLoop_defined by done.
    destruct (list_find _ rest) as [[i x]|]; done.
  - destruct (collisionLoop_undefined rest s Hd) as (Hg & _).
    unfold game_fields in Hg. injection Hg as ?; congruence.
Qed.

(** The collision loop writes at most one game-over entry. *)
Lemma collisionLoop_gameOverCount rest s :
  (gameOverCount (console (collisionLoop rest s)) <= S (gameOverCount (console s)))%nat.
Proof.
  destruct Box3_defined eqn:Hd.
  - rewrite collisionLoop_defined by done.
    destruct (list_find _ rest) as [[i x]|]; [|lia].
    unfold gameOverCount. cbn [console gameOver set_playerColor console_put set_isGameOver]. rewrite filter_cons. case_decide; simpl; lia.
  - destruct (collisionLoop_undefined rest s Hd) as (_ & _ & ->). lia.
Qed.

(** The removal loop keeps, in order, the entries that are not beyond the
    threshold, and takes the others off the scene. *)
Lemma removalLoop_spec k s :
  (k <= length (obstacles s))%nat ->
  exists S,
    removalLoop k s =
      set_obstacles (filter (fun o => beyond o = false) (take k (obstacles s))
                     ++ drop k (obstacles s)) (set_scene S s) /\
    forall u, u ∈ S <-> u ∈ scene s /\
                        u ∉ uid <$> filter (fun o => beyond o = true) (take k (obstacles s)).
Proof.
  revert s. induction k as [|i IH]; intros s Hk.
  - exists (scene s). split.
    + simpl. rewrite drop_0. by destruct s.
    + intros u. simpl. rewrite elem_of_nil. tauto.
  - simpl. destruct (lookup_lt_is_Some_2 (obstacles s) i ltac:(lia)) as [o Ho].
    rewrite Ho. fold (beyond o).
    rewrite (take_S_r _ _ _ Ho), !filter_app, !filter_cons, !filter_nil. 
    destruct (beyond o) eqn:Eb.
    + rewrite decide_False by congruence. rewrite decide_True by done.
      edestruct (IH (set_obstacles (delete i (obstacles s)) (scene_remove o s))) as (S & HS & HS').
      { cbn. rewrite length_delete; [lia | eauto]. }
      exists S. split.
      * rewrite HS. cbn. rewrite !app_nil_r.
        rewrite delete_take_drop.
        rewrite take_app_le, take_take, Nat.min_id by (rewrite length_take; lia).
        rewrite drop_app_length' by (rewrite length_take; lia).
        reflexivity.
      * intros u. rewrite HS'. cbn.
        rewrite delete_take_drop, take_app_le, take_take, Nat.min_id by (rewrite length_take; lia).
        rewrite fmap_app, elem_of_app, list_elem_of_filter. cbn.
        rewrite list_elem_of_singleton. tauto.
    + rewrite decide_True by done. rewrite decide_False by congruence.
      destruct (IH s ltac:(lia)) as (S & HS & HS').
      exists S. split.
      * rewrite HS. rewrite (drop_S _ _ _ Ho), ?app_nil_r, <- app_assoc. reflexivity.
      * intros u. rewrite HS', ?app_nil_r. reflexivity.
Qed.

Lemma removalLoop_all s :
  exists S,
    removalLoop (length (obstacles s)) s =
      set_obstacles (filter (fun o => beyond o = false) (obstacles s)) (set_scene S s) /\
    forall u, u ∈ S <-> u ∈ scene s /\
                        u ∉ uid <$> filter (fun o => beyond o = true) (obstacles s).
Proof.
  destruct (removalLoop_spec (length (obstacles s)) s) as (S & HS & HS'); [lia|].
  rewrite firstn_all, drop_all, app_nil_r in HS. rewrite firstn_all in HS'.
  by exists S.
Qed.

(** [spawnObstacle] leaves the game-over flag, the distance, the spawn
    clock and the player's colour alone, and writes no game-over entry. *)
Lemma spawnObstacle_frame rModel rLane rZ s :
  let s' := spawnObstacle rModel rLane rZ s in
  isGameOver s' = isGameOver s /\ distanceCovered s' = distanceCovered s /\
  lastSpawnTime s' = lastSpawnTime s /\ playerColor s' = playerColor s /\
  gameOverCount (console s') = gameOverCount (console s).
Proof. spawn_cases; done. Qed.

(** A running frame ends with the flag the collision loop leaves. *)
Lemma animate_isGameOver deltaTime currentTime rModel rLane rZ s :
  isGameOver s = false ->
  isGameOver (animate deltaTime currentTime rModel rLane rZ s) =
  isGameOver (collisionLoop (obstacles s)
                (set_distanceCovered (distanceCovered s + playerSpeed * deltaTime) s)).
Proof.
  intros Hs. unfold animate. rewrite Hs.
  set (s2 := collisionLoop _ _).
  destruct (removalLoop_all s2) as (S & -> & _).
  case_match; [|done].
  cbn [isGameOver set_lastSpawnTime]. by destruct (spawnObstacle_frame rModel rLane rZ
    (set_obstacles (filter (fun o => beyond o = false) (obstacles s2)) (set_scene S s2)))
    as (-> & _).
Qed.

End Loops.

(** The clamp of [animate] is a maximum. *)
Lemma clamp_is_max (c m : Q) : (if Js.lt c m then m else c) = Qmax c m.
Proof.
  unfold Qmax, GenericMinMax.gmax.
  destruct (Js.lt c m) eqn:E.
  - apply lt_true in E. rewrite Qlt_alt in E. now rewrite E.
  - apply lt_false in E. rewrite Qle_alt in E.
    destruct (c ?= m) eqn:E'; try reflexivity.
    rewrite <- Qlt_alt in E'. apply Qlt_not_le in E'.
    rewrite Qle_alt in E'. contradiction.
Qed.

Lemma spawnDue_iff currentTime s :
  spawnDue currentTime s = true <->
  currentSpawnInterval (distanceCovered s) < currentTime - lastSpawnTime s /\
  (length (obstacles s) < maxObstaclesInScene)%nat.
Proof.
  unfold spawnDue. rewrite andb_true_iff, gt_true, Nat.ltb_lt. reflexivity.
Qed.

(** C3: the spawn interval that gates spawning is
    max(baseSpawnInterval - floor(distanceCovered / difficultyStepDistance)
    * spawnIntervalReductionFactor, minSpawnInterval) for every distance
    covered; the constants are 2.0, 0.1, 150 and 0.75, and at distance 450
    the interval is 1.7 seconds.  A running frame calls [spawnObstacle], and
    restarts the spawn clock, exactly when the time since the last spawn
    exceeds that interval and fewer than 15 obstacles are left. *)
Theorem C3_spawn_interval :
  (forall distanceCovered : Q,
     currentSpawnInterval distanceCovered =
     Qmax (baseSpawnInterval
           - inject_Z (Qfloor (distanceCovered / difficultyStepDistance))
             * spawnIntervalReductionFactor)
          minSpawnInterval) /\
  (baseSpawnInterval == 2.0 /\ spawnIntervalReductionFactor == 0.1 /\
   difficultyStepDistance == 150 /\ minSpawnInterval == 0.75) /\
  currentSpawnInterval 450 == 1.7 /\
  (forall `{ThreeEnv} deltaTime currentTime rModel rLane rZ s,
     isGameOver s = false ->
     let d := distanceCovered s + playerSpeed * deltaTime in
     let left := filter (fun o => beyond o = false) (obstacles s) in
     let s' := animate deltaTime currentTime rModel rLane rZ s in
     distanceCovered s' = d /\
     lastSpawnTime s' =
       if Js.gt (currentTime - lastSpawnTime s) (currentSpawnInterval d)
          && (length left <? maxObstaclesInScene)%nat
       then currentTime else lastSpawnTime s).
Proof.
  split; [|split; [|split]].
  - intros d. unfold currentSpawnInterval. apply clamp_is_max.
  - repeat split; reflexivity.
  - reflexivity.
  - intros env deltaTime currentTime rModel rLane rZ s Hs. cbn zeta.
    unfold animate. rewrite Hs.
    set (s1 := set_distanceCovered _ s).
    destruct (collisionLoop_frame (obstacles s1) s1) as (Hd & Ht & _ & _ & _ & Ho & _).
    set (s2 := collisionLoop _ _) in *.
    destruct (removalLoop_all s2) as (S & -> & _).
    set (s3 := set_obstacles _ _).
    assert (E : spawnDue currentTime s3 =
                Js.gt (currentTime - lastSpawnTime s) (currentSpawnInterval
                  (distanceCovered s + playerSpeed * deltaTime))
                && (length (filter (fun o => beyond o = false) (obstacles s)) <?
                    maxObstaclesInScene)%nat).
    { unfold spawnDue, s3. cbn [lastSpawnTime distanceCovered obstacles set_obstacles set_scene].
      rewrite Hd, Ht, Ho. reflexivity. }
    rewrite <- E. destruct (spawnDue currentTime s3).
    + cbn [distanceCovered lastSpawnTime set_lastSpawnTime].
      destruct (spawnObstacle_frame rModel rLane rZ s3) as (_ & -> & _).
      split; [|done]. unfold s3. cbn [distanceCovered set_obstacles set_scene]. rewrite Hd. reflexivity.
    + unfold s3. cbn [distanceCovered lastSpawnTime set_obstacles set_scene]. rewrite Hd, Ht. done.
Qed.

(** The sample frame: a running state and a frame at time 3. *)
Lemma C3_spawn_interval_witness :
  isGameOver initial_state = false /\
  let s' := @animate Samples.sampleEnv (1 # 60) 3 0 0 0 initial_state in
  distanceCovered s' = 0 + playerSpeed * (1 # 60) /\
  lastSpawnTime s' = 3.
Proof.
  split; [reflexivity|].
  destruct C3_spawn_interval as (_ & _ & _ & H).
  apply (H Samples.sampleEnv (1 # 60) 3 0 0 0 initial_state). reflexivity.
Defined.

(** An obstacle triggers the game over exactly when its box overlaps the
    player's and its type is not a tunnel's. *)
Lemma hit_overlaps `{ThreeEnv} o :
  hit o = overlaps o && negb (isTunnel (userData o)).
Proof.
  unfold hit, overlaps, collisionDetected.
  destruct (isTunnel (userData o)), (isHoop (userData o)), (intersectsBox _ _);
    reflexivity.
Qed.

(** In the catalogue the tunnels are the four tunnel models, the hoops are
    the two hoop models, and no file name matches both rules. *)
Lemma catalogue_classification :
  classify <$> (Some <$> obstacleModelFiles) =
    [Tunnel; Default; Default; Default; Hoop; Default; Default; Hoop;
     Default; Default; Default; Tunnel; Tunnel; Tunnel] /\
  Forall (fun f => isTunnel (Some f) && isHoop (Some f) = false) obstacleModelFiles.
Proof. split; [reflexivity|]. repeat constructor. Qed.

(** C1: in a frame where the player's bounding box overlaps that of a live
    obstacle [o]: when the type of [o] contains "tunnel" (case-insensitive)
    the overlap does not count as a collision, and the frame leaves
    [isGameOver] as it was when every overlapping obstacle is a tunnel; when
    [o] falls under the hoop rule or the default rule, that is when its
    type does not contain "tunnel" or is missing, [isGameOver] is true
    after the frame. *)
Theorem C1_collision_rules `{ThreeEnv} deltaTime currentTime rModel rLane rZ s o :
  Box3_defined = true -> o ∈ obstacles s -> overlaps o = true ->
  let s' := animate deltaTime currentTime rModel rLane rZ s in
  (forall t, userData o = Some t ->
     Js.includes (Js.toLowerCase t) "tunnel" = true -> hit o = false) /\
  ((forall o', o' ∈ obstacles s -> overlaps o' = true ->
               classify (userData o') = Tunnel) ->
   isGameOver s' = isGameOver s) /\
  (classify (userData o) = Hoop \/ classify (userData o) = Default ->
   isGameOver s' = true) /\
  (forall t, userData o = Some t ->
     Js.includes (Js.toLowerCase t) "tunnel" = false ->
     isGameOver s' = true) /\
  (userData o = None -> isGameOver s' = true).
Proof.
  intros Hd Ho Hov s'.
  assert (Hsets : classify (userData o) = Hoop \/ classify (userData o) = Default ->
                  isGameOver s' = true); [|repeat apply conj; [| |exact Hsets| |]].
  - intros Hc. subst s'. destruct (isGameOver s) eqn:Hs.
    + unfold animate. by rewrite Hs.
    + rewrite animate_isGameOver, collisionLoop_defined by done.
      destruct (list_find _ _) as [[i x]|] eqn:Hf; [done|].
      exfalso. eapply list_find_None in Hf. rewrite Forall_forall in Hf.
      apply (Hf o); [done|]. rewrite hit_overlaps, Hov.
      unfold classify in Hc. destruct (isTunnel (userData o)); [|done].
      by destruct Hc.
  - intros t Ht Hincl. rewrite hit_overlaps. unfold isTunnel. rewrite Ht, Hincl.
    apply andb_false_r.
  - intros Hall. subst s'. destruct (isGameOver s) eqn:Hs.
    + unfold animate. by rewrite Hs.
    + rewrite animate_isGameOver, collisionLoop_defined by done.
      destruct (list_find _ _) as [[i x]|] eqn:Hf; [|done].
      apply list_find_Some in Hf as (Hx & Hhit & _).
      apply list_elem_of_lookup_2 in Hx. cbn in Hx.
      rewrite hit_overlaps in Hhit. apply andb_true_iff in Hhit as [Hox Hnt].
      specialize (Hall x Hx Hox). unfold classify in Hall.
      destruct (isTunnel (userData x)); [done|]. by destruct (isHoop _).
  - intros t Ht Hincl. apply Hsets. unfold classify, isTunnel. rewrite Ht, Hincl.
    destruct (isHoop (Some t)); auto.
  - intros Ht. apply Hsets. unfold classify. rewrite Ht. cbn. auto.
Qed.

(** A small hoop standing on the player ends the game. *)
Lemma C1_collision_rules_witness :
  let o := configure 1 "smallhoop.glb" 0 0 in
  (@Box3_defined Samples.sampleEnv = true /\
   o ∈ obstacles Samples.themed_hoop_state /\
   @overlaps Samples.sampleEnv o = true /\
   classify (userData o) = Hoop) /\
  isGameOver (@animate Samples.sampleEnv (1 # 60) 1 0 0 0 Samples.themed_hoop_state)
  = true.
Proof.
  intros o.
  assert (Hin : o ∈ obstacles Samples.themed_hoop_state) by apply list_elem_of_here.
  split; [repeat split; [exact Hin | reflexivity..]|].
  destruct (@C1_collision_rules Samples.sampleEnv (1 # 60) 1 0 0 0
              Samples.themed_hoop_state o eq_refl Hin eq_refl)
    as (_ & _ & Hsets & _).
  apply Hsets. left. reflexivity.
Defined.

(** [spawnObstacle] writes at most one entry on the console, and never a
    game-over entry. *)
Lemma spawnObstacle_console rModel rLane rZ s :
  console (spawnObstacle rModel rLane rZ s) = console s \/
  exists e, isGameOverEntry e = false /\
            console (spawnObstacle rModel rLane rZ s) = e :: console s.
Proof. spawn_cases; first [by left | right; eexists; split; [|reflexivity]; reflexivity]. Qed.

(** What a running frame leaves of the collision loop's outcome. *)
Lemma animate_collision_outcome `{ThreeEnv} deltaTime currentTime rModel rLane rZ s :
  isGameOver s = false ->
  let s2 := collisionLoop (obstacles s)
              (set_distanceCovered (distanceCovered s + playerSpeed * deltaTime) s) in
  let s' := animate deltaTime currentTime rModel rLane rZ s in
  isGameOver s' = isGameOver s2 /\ playerColor s' = playerColor s2 /\
  gameOverCount (console s') = gameOverCount (console s2) /\
  (forall e, e ∈ console s2 -> e ∈ console s').
Proof.
  intros Hs. cbn zeta. unfold animate. rewrite Hs. set (s2 := collisionLoop _ _).
  destruct (removalLoop_all s2) as (S & -> & _).
  set (s3 := set_obstacles _ _).
  case_match; [|done].
  cbn [isGameOver playerColor console set_lastSpawnTime].
  destruct (spawnObstacle_frame rModel rLane rZ s3) as (-> & _ & _ & -> & ->).
  repeat split; try done.
  intros e He.
  destruct (spawnObstacle_console rModel rLane rZ s3) as [->|(e' & _ & ->)];
    [done | by apply list_elem_of_further].
Qed.

(** C8: one frame writes at most one game-over entry.  In a running frame
    with [THREE.Box3] present, the first obstacle in index order that makes
    [collisionDetected] true is the one that triggers: no earlier entry
    does, the later ones are not reported, [isGameOver] becomes true and the
    player turns blue ([0x0000ff]); without such an obstacle the frame
    leaves the flag, the colour and the game-over entries as they were. *)
Theorem C8_first_match_wins `{ThreeEnv} deltaTime currentTime rModel rLane rZ s :
  let s' := animate deltaTime currentTime rModel rLane rZ s in
  (gameOverCount (console s') <= S (gameOverCount (console s)))%nat /\
  (isGameOver s = false -> Box3_defined = true ->
   match list_find (fun o => hit o = true) (obstacles s) with
   | Some (i, o) =>
       (forall j o', obstacles s !! j = Some o' -> (j < i)%nat -> hit o' = false) /\
       isGameOver s' = true /\ playerColor s' = 255%Z /\
       gameOverCount (console s') = S (gameOverCount (console s)) /\
       gameOver_message (userData o) ∈ console s'
   | None =>
       isGameOver s' = false /\ playerColor s' = playerColor s /\
       gameOverCount (console s') = gameOverCount (console s)
   end).
Proof.
  intros s'. subst s'. split.
  - destruct (isGameOver s) eqn:Hs.
    + unfold animate. rewrite Hs. lia.
    + destruct (animate_collision_outcome deltaTime currentTime rModel rLane rZ s Hs)
        as (_ & _ & -> & _).
      etrans; [apply collisionLoop_gameOverCount|]. done.
  - intros Hs Hd.
    destruct (animate_collision_outcome deltaTime currentTime rModel rLane rZ s Hs)
      as (-> & -> & -> & Hin).
    rewrite collisionLoop_defined in * by done.
    cbn [obstacles set_distanceCovered] in *.
    destruct (list_find _ _) as [[i o]|] eqn:Hf.
    + apply list_find_Some in Hf as (Ho & Hhit & Hbefore).
      split; [|split; [done|split; [done|split]]].
      * intros j o' Hj Hlt. specialize (Hbefore j o' Hj Hlt).
        by destruct (hit o').
      * unfold gameOverCount.
        cbn [console gameOver set_playerColor console_put set_isGameOver
             set_distanceCovered].
        rewrite filter_cons, decide_True by done. done.
      * apply Hin. apply list_elem_of_here.
    + done.
Qed.

(** Three obstacles on the player: the tunnel is passed, the table
    triggers, the hoop behind it is not reported. *)
Lemma C8_first_match_wins_witness :
  let s := Samples.themed_pileup_state in
  let s' := @animate Samples.sampleEnv (1 # 60) 1 0 0 0 s in
  (isGameOver s = false /\ @Box3_defined Samples.sampleEnv = true) /\
  isGameOver s' = true /\ playerColor s' = 255%Z /\
  gameOverCount (console s') = 1%nat /\
  gameOver_message (Some "table.glb") ∈ console s'.
Proof.
  intros s s'. split; [split; reflexivity|].
  destruct (@C8_first_match_wins Samples.sampleEnv (1 # 60) 1 0 0 0 s) as [_ H].
  specialize (H eq_refl eq_refl).
  change (list_find (fun o => @hit Samples.sampleEnv o = true) (obstacles s))
    with (Some (1%nat, configure 2 "table.glb" 0 0)) in H.
  destruct H as (_ & H1 & H2 & H3 & H4). repeat split; assumption.
Defined.

(** A running frame, phase by phase: the state [s3] it reaches before the
    spawn test keeps the obstacles that are not beyond the threshold, has
    them off the scene, and is followed by at most one [spawnObstacle]. *)
Lemma animate_shape `{ThreeEnv} deltaTime currentTime rModel rLane rZ s :
  isGameOver s = false ->
  exists s3,
    (animate deltaTime currentTime rModel rLane rZ s = s3 \/
     animate deltaTime currentTime rModel rLane rZ s =
       set_lastSpawnTime currentTime (spawnObstacle rModel rLane rZ s3)) /\
    obstacles s3 = filter (fun o => beyond o = false) (obstacles s) /\
    (forall u, u ∈ scene s3 <->
               u ∈ scene s /\
               u ∉ uid <$> filter (fun o => beyond o = true) (obstacles s)) /\
    distanceCovered s3 = distanceCovered s + playerSpeed * deltaTime /\
    lastSpawnTime s3 = lastSpawnTime s /\
    currentThemeIndex s3 = currentThemeIndex s /\
    currentThemeName s3 = currentThemeName s /\
    obstaclesSpawnedInCurrentTheme s3 = obstaclesSpawnedInCurrentTheme s /\
    loadedObstacleAssets s3 = loadedObstacleAssets s /\
    inFlight s3 = inFlight s /\ nextUid s3 = nextUid s.
Proof.
  intros Hs. unfold animate. rewrite Hs.
  set (s1 := set_distanceCovered _ s).
  destruct (collisionLoop_frame (obstacles s1) s1)
    as (Hd & Ht & Hi & Hn & Hc & Ho & Hsc & Hl & Hf & Hu).
  set (s2 := collisionLoop _ _) in *. clearbody s2. subst s1.
  cbn in Hd, Ht, Hi, Hn, Hc, Ho, Hsc, Hl, Hf, Hu.
  destruct (removalLoop_all s2) as (S & -> & HS).
  set (s3 := set_obstacles _ _).
  exists s3. split; [destruct (spawnDue currentTime s3); auto|].
  unfold s3. cbn -[filter]. rewrite Ho, Hd, Ht, Hi, Hn, Hc, Hl, Hf, Hu.
  split; [done|]. split; [|done].
  intros u. rewrite HS, Hsc, Ho. reflexivity.
Qed.

(** The theme switch turns the index to its successor modulo the number of
    themes, once the counter has reached the cap. *)
Lemma switchTheme_spec s :
  let s' := switchTheme s in
  ((maxObstaclesPerTheme <= obstaclesSpawnedInCurrentTheme s)%nat /\
   currentThemeIndex s' = ((currentThemeIndex s + 1) mod length themeKeys)%nat /\
   currentThemeName s' = themeKeys !! currentThemeIndex s' /\
   obstaclesSpawnedInCurrentTheme s' = 0%nat \/
   (obstaclesSpawnedInCurrentTheme s < maxObstaclesPerTheme)%nat /\ s' = s) /\
  obstacles s' = obstacles s /\ inFlight s' = inFlight s /\
  nextUid s' = nextUid s /\ scene s' = scene s /\
  loadedObstacleAssets s' = loadedObstacleAssets s.
Proof.
  unfold switchTheme.
  destruct (Nat.leb_spec maxObstaclesPerTheme (obstaclesSpawnedInCurrentTheme s));
    cbn; auto 10.
Qed.

Lemma switchTheme_theme_ok s : theme_ok s -> theme_ok (switchTheme s).
Proof.
  intros Hok. destruct (switchTheme_spec s) as ([(_ & Hi & Hn & _)|[_ ->]] & _); [|done].
  split; [|done]. rewrite Hi. apply Nat.mod_upper_bound. done.
Qed.

(** After the theme switch, [spawnObstacle] inserts an obstacle of the
    active theme, or issues a load for a model of the active theme, or
    does neither. *)
Lemma spawnObstacle_after_switch rModel rLane rZ s :
  let s0 := switchTheme s in
  let s' := spawnObstacle rModel rLane rZ s in
  currentThemeIndex s' = currentThemeIndex s0 /\
  currentThemeName s' = currentThemeName s0 /\
  loadedObstacleAssets s' = loadedObstacleAssets s0 /\
  ((obstacles s' = obstacles s /\ scene s' = scene s /\ inFlight s' = inFlight s /\
    nextUid s' = nextUid s /\
    obstaclesSpawnedInCurrentTheme s' = obstaclesSpawnedInCurrentTheme s0) \/
   (exists f, f ∈ activeModels s0 /\
      loadedObstacleAssets s0 !! f = None /\
      obstacles s' = obstacles s /\ scene s' = scene s /\
      inFlight s' = inFlight s ++ [f] /\ nextUid s' = nextUid s /\
      obstaclesSpawnedInCurrentTheme s' = obstaclesSpawnedInCurrentTheme s0) \/
   (exists f laneX,
      f ∈ activeModels s0 /\ laneX ∈ lanePositions /\
      obstacles s' = obstacles s ++ [configure (nextUid s) f laneX (- rZ * 50 - 20)] /\
      scene s' = scene s ++ [nextUid s] /\
      inFlight s' = inFlight s /\ nextUid s' = S (nextUid s) /\
      obstaclesSpawnedInCurrentTheme s' = S (obstaclesSpawnedInCurrentTheme s0))).
Proof.
  cbn zeta. destruct (switchTheme_spec s) as (_ & Ho & Hf & Hu & Hsc & _).
  unfold spawnObstacle. set (s0 := switchTheme s) in *.
  clearbody s0.
  destruct (theme_lookup (currentThemeName s0)) as [[|f0 models]|] eqn:Hth;
    [cbn; rewrite Ho, Hf, Hu, Hsc; auto 10| |cbn; rewrite Ho, Hf, Hu, Hsc; auto 10].
  destruct ((f0 :: models) !! _) as [f|] eqn:Hdraw; [|rewrite Ho, Hf, Hu, Hsc; auto 10].
  assert (Hact : f ∈ activeModels s0).
  { unfold activeModels. rewrite Hth. eapply list_elem_of_lookup_2, Hdraw. }
  case_decide as Hc.
  - unfold placeObstacle.
    destruct (lanePositions !! _) as [laneX|] eqn:Hlane;
      [|rewrite Ho, Hf, Hu, Hsc; auto 10].
    cbn. rewrite Ho, Hf, Hu, Hsc. do 3 (split; [done|]). right; right.
    exists f, laneX. repeat split; try done.
    eapply list_elem_of_lookup_2, Hlane.
  - cbn. rewrite Ho, Hf, Hu, Hsc. do 3 (split; [done|]). right; left.
    exists f. repeat split; try done.
    destruct (loadedObstacleAssets s0 !! f) eqn:E; [|done].
    exfalso. apply Hc. by eexists.
Qed.

(** The success callback caches the asset and inserts at most one obstacle,
    which it counts under the theme that is active when it runs. *)
Lemma onLoad_spec f rLane rZ s :
  let s' := onLoad f rLane rZ s in
  isGameOver s' = isGameOver s /\ distanceCovered s' = distanceCovered s /\
  lastSpawnTime s' = lastSpawnTime s /\ playerColor s' = playerColor s /\
  console s' = console s /\
  currentThemeIndex s' = currentThemeIndex s /\
  currentThemeName s' = currentThemeName s /\
  inFlight s' = inFlight s /\
  loadedObstacleAssets s' = <[f := nextUid s]> (loadedObstacleAssets s) /\
  ((obstacles s' = obstacles s /\ scene s' = scene s /\
    nextUid s' = S (nextUid s) /\
    obstaclesSpawnedInCurrentTheme s' = obstaclesSpawnedInCurrentTheme s) \/
   (exists laneX,
      laneX ∈ lanePositions /\
      obstacles s' =
        obstacles s ++ [configure (S (nextUid s)) f laneX (- rZ * 50 - 20)] /\
      scene s' = scene s ++ [S (nextUid s)] /\
      nextUid s' = S (S (nextUid s)) /\
      obstaclesSpawnedInCurrentTheme s' = S (obstaclesSpawnedInCurrentTheme s))).
Proof.
  unfold onLoad, placeObstacle.
  destruct (lanePositions !! _) as [laneX|] eqn:Hlane; cbn.
  - repeat (split; [done|]). right. exists laneX. repeat split; try done.
    eapply list_elem_of_lookup_2, Hlane.
  - repeat (split; [done|]). by left.
Qed.

(** With a draw of [Math.random] for the lane, the success callback does
    insert an obstacle. *)
Lemma onLoad_inserts f rLane rZ s :
  Js.is_random rLane ->
  exists laneX,
    laneX ∈ lanePositions /\
    obstacles (onLoad f rLane rZ s) =
      obstacles s ++ [configure (S (nextUid s)) f laneX (- rZ * 50 - 20)] /\
    obstaclesSpawnedInCurrentTheme (onLoad f rLane rZ s) =
      S (obstaclesSpawnedInCurrentTheme s).
Proof.
  intros Hr. unfold onLoad, placeObstacle.
  destruct (random_pick rLane lanePositions Hr) as [laneX Hx]; [done|].
  rewrite Hx. cbn. exists laneX. split; [|done].
  eapply list_elem_of_lookup_2, Hx.
Qed.

Section Themes.
Context `{ThreeEnv}.

Lemma step_theme_ok e s : theme_ok s -> theme_ok (step e s).
Proof.
  intros Hok. destruct e as [dt t rM rL rZ|k rL rZ|k]; cbn.
  - destruct (isGameOver s) eqn:Hs; [unfold animate; by rewrite Hs|].
    destruct (animate_shape dt t rM rL rZ s Hs)
      as (s3 & Hs' & _ & _ & _ & _ & Hi & Hn & _).
    assert (Hok3 : theme_ok s3) by (unfold theme_ok; by rewrite Hi, Hn).
    destruct Hs' as [-> | ->]; [done|].
    destruct (spawnObstacle_after_switch rM rL rZ s3) as (Hi' & Hn' & _).
    unfold theme_ok. cbn. rewrite Hi', Hn'. by apply switchTheme_theme_ok.
  - destruct (inFlight s !! k) as [f|]; [|done].
    destruct (onLoad_spec f rL rZ (set_inFlight (delete k (inFlight s)) s))
      as (_ & _ & _ & _ & _ & Hi & Hn & _).
    unfold theme_ok. by rewrite Hi, Hn.
  - by destruct (inFlight s !! k).
Qed.

Lemma reachable_theme_ok s : reachable s -> theme_ok s.
Proof.
  induction 1 as [|e s _ IH _]; [|by apply step_theme_ok].
  split; [cbn; lia | reflexivity].
Qed.



End Themes.

Lemma run_reachable `{ThreeEnv} es s :
  reachable s -> Forall valid_event es -> reachable (run es s).
Proof.
  intros Hs Hes. revert s Hs. induction Hes as [|e es He _ IH]; intros s Hs; [done|].
  cbn. apply IH. by constructor.
Qed.




(** The depth [spawnObstacle] draws lies in the spawn band; the far end is
    open and the near end, [-20], is the value for a draw of [0]. *)
Lemma randomZ_band rZ :
  Js.is_random rZ -> -70 < - rZ * 50 - 20 /\ - rZ * 50 - 20 <= -20.
Proof.
  intros [H0 H1]. split; lra.
Qed.

Lemma Forall_filter_of {A} (P Q : A -> Prop) `{forall x, Decision (Q x)} (l : list A) :
  Forall P l -> Forall P (filter Q l).
Proof.
  rewrite !Forall_forall. intros Hl x [_ Hx]%list_elem_of_filter. by apply Hl.
Qed.

Lemma configure_placed_ok id f laneX rZ :
  laneX ∈ lanePositions -> Js.is_random rZ ->
  placed_ok (configure id f laneX (- rZ * 50 - 20)).
Proof.
  intros Hlane Hz. destruct (randomZ_band rZ Hz) as [Hlo Hhi].
  split; [exact Hlane|]. split; [by exists f|].
  split; [exact Hlo | exact Hhi].
Qed.

Section Frames.
Context `{ThreeEnv}.

(** A frame processed after the game is over changes nothing. *)
Lemma animate_game_over deltaTime currentTime rModel rLane rZ s :
  isGameOver s = true -> animate deltaTime currentTime rModel rLane rZ s = s.
Proof. intros Hs. unfold animate. by rewrite Hs. Qed.

(** No event resets the game-over flag. *)
Lemma step_isGameOver e s : isGameOver s = true -> isGameOver (step e s) = true.
Proof.
  intros Hs. destruct e as [dt t rM rL rZ|k rL rZ|k]; cbn.
  - by rewrite animate_game_over.
  - destruct (inFlight s !! k) as [f|]; [|done].
    by destruct (onLoad_spec f rL rZ (set_inFlight (delete k (inFlight s)) s))
      as (-> & _).
  - by destruct (inFlight s !! k).
Qed.

Lemma run_isGameOver es s : isGameOver s = true -> isGameOver (run es s) = true.
Proof.
  revert s. induction es as [|e es IH]; intros s Hs; [done|].
  cbn. by apply IH, step_isGameOver.
Qed.

Lemma run_frames_game_over es s :
  isGameOver s = true -> Forall (fun e => is_frame e = true) es -> run es s = s.
Proof.
  intros Hs Hes. induction Hes as [|e es He _ IH]; [done|].
  destruct e; try done. cbn. by rewrite animate_game_over.
Qed.

(** What a running frame does to the obstacle array and to the scene: the
    entries beyond the threshold go, the others stay as they are and in
    order, and at most one new obstacle, not seen before, comes last. *)
Lemma animate_obstacles deltaTime currentTime rModel rLane rZ s :
  isGameOver s = false ->
  let s' := animate deltaTime currentTime rModel rLane rZ s in
  exists new,
    obstacles s' = filter (fun o => beyond o = false) (obstacles s) ++ new /\
    (new = [] \/
     exists f laneX, laneX ∈ lanePositions /\
       new = [configure (nextUid s) f laneX (- rZ * 50 - 20)]) /\
    (forall u, u ∈ scene s' <->
       (u ∈ scene s /\ u ∉ uid <$> filter (fun o => beyond o = true) (obstacles s))
       \/ u ∈ uid <$> new) /\
    nextUid s' = (nextUid s + length new)%nat.
Proof.
  intros Hs. cbn zeta.
  destruct (animate_shape deltaTime currentTime rModel rLane rZ s Hs)
    as (s3 & Hs' & Ho & Hsc & _ & _ & _ & _ & _ & _ & _ & Hu).
  destruct Hs' as [-> | ->].
  - exists []. rewrite app_nil_r. split; [done|]. split; [by left|].
    split; [|cbn; lia].
    intros u. rewrite Hsc, fmap_nil, elem_of_nil. tauto.
  - destruct (spawnObstacle_after_switch rModel rLane rZ s3) as (_ & _ & _ & Hcases).
    cbn [obstacles scene nextUid set_lastSpawnTime].
    destruct Hcases as [(-> & -> & _ & -> & _)
      |[(f & _ & _ & -> & -> & _ & -> & _)|(f & x & _ & Hx & -> & -> & _ & -> & _)]].
    + exists []. rewrite app_nil_r. split; [done|]. split; [by left|].
      split; [|cbn; lia].
      intros u. rewrite Hsc, fmap_nil, elem_of_nil. tauto.
    + exists []. rewrite app_nil_r. split; [done|]. split; [by left|].
      split; [|cbn; lia].
      intros u. rewrite Hsc, fmap_nil, elem_of_nil. tauto.
    + rewrite Hu, Ho. eexists. split; [done|]. split; [right; eauto|].
      split; [|cbn; lia].
      intros u. rewrite elem_of_app, Hsc. reflexivity.
Qed.

(** Every obstacle ever live is where [spawnObstacle] put it. *)
Lemma reachable_placed_ok s : reachable s -> Forall placed_ok (obstacles s).
Proof.
  induction 1 as [|e s _ IH Hv]; [constructor|].
  destruct e as [dt t rM rL rZ|k rL rZ|k]; cbn.
  - destruct (isGameOver s) eqn:Hs; [by rewrite animate_game_over|].
    destruct (animate_obstacles dt t rM rL rZ s Hs) as (new & -> & Hnew & _).
    apply Forall_app. split; [by apply Forall_filter_of|].
    destruct Hnew as [->|(f & x & Hx & ->)]; [constructor|].
    apply Forall_singleton, configure_placed_ok; [done | apply Hv].
  - destruct (inFlight s !! k) as [f|]; [|done].
    destruct (onLoad_spec f rL rZ (set_inFlight (delete k (inFlight s)) s))
      as (_ & _ & _ & _ & _ & _ & _ & _ & _ & Hcases).
    destruct Hcases as [(-> & _)|(x & Hx & -> & _)]; [done|].
    apply Forall_app. split; [done|].
    apply Forall_singleton, configure_placed_ok; [done | apply Hv].
  - by destruct (inFlight s !! k).
Qed.


End Frames.

(** No obstacle of a reachable state is beyond the removal threshold: the
    second script leaves every obstacle in the spawn band. *)
Lemma reachable_not_beyond `{ThreeEnv} s :
  reachable s -> Forall (fun o => beyond o = false) (obstacles s).
Proof.
  intros Hs. eapply Forall_impl; [apply reachable_placed_ok, Hs|].
  intros o (_ & _ & _ & Hz). apply gt_false. unfold camera_position_z. lra.
Qed.

End ThemedRunnerProofs.

(** ** The first script *)

Module LaneRunnerProofs.
Import LaneRunner.

Section Loop.
Context `{ThreeEnv}.
Variable playerBoundingBox : Box3.

(** One iteration of the loop, at index [i]. *)
Lemma obstacleLoop_S i s o :
  obstacles s !! i = Some o ->
  obstacleLoop playerBoundingBox (S i) s =
    let s1 := set_obstacles (<[i := advance o]> (obstacles s)) s in
    if collides playerBoundingBox o then
      set_playerColor 255 (console_put (Log "Game Over!") (set_isGameOver true s1))
    else if beyond (advance o) then
      obstacleLoop playerBoundingBox i
        (set_obstacles (delete i (<[i := advance o]> (obstacles s)))
           (scene_remove (advance o) s1))
    else obstacleLoop playerBoundingBox i s1.
Proof. intros Ho. simpl. rewrite Ho. reflexivity. Qed.

(** While no visited obstacle collides, the loop advances every visited
    entry, keeps those that are not beyond the threshold, in order, and
    takes the others off the scene. *)
Lemma obstacleLoop_no_hit k s :
  (k <= length (obstacles s))%nat ->
  Forall (fun o => collides playerBoundingBox o = false) (take k (obstacles s)) ->
  exists S,
    obstacleLoop playerBoundingBox k s =
      set_obstacles
        (filter (fun o => beyond o = false) (advance <$> take k (obstacles s))
         ++ drop k (obstacles s)) (set_scene S s) /\
    forall u, u ∈ S <->
      u ∈ scene s /\
      u ∉ uid <$> filter (fun o => beyond o = true) (advance <$> take k (obstacles s)).
Proof.
  revert s. induction k as [|i IH]; intros s Hk Hno.
  - exists (scene s). split.
    + simpl. rewrite drop_0. by destruct s.
    + intros u. simpl. rewrite elem_of_nil. tauto.
  - destruct (lookup_lt_is_Some_2 (obstacles s) i ltac:(lia)) as [o Ho].
    rewrite (obstacleLoop_S i s o Ho). cbn zeta.
    pose proof (take_S_r _ _ _ Ho) as Ht. rewrite Ht in Hno. rewrite Ht.
    apply Forall_app in Hno as [Hno Hoi]. rewrite Forall_singleton in Hoi.
    rewrite Hoi.
    rewrite !fmap_app, !filter_app. cbn [fmap list_fmap].
    rewrite !filter_cons, !filter_nil.
    set (l1 := <[i := advance o]> (obstacles s)).
    assert (Hl1 : take i l1 = take i (obstacles s))
      by (unfold l1; apply take_insert_ge; lia).
    assert (Hlen : length l1 = length (obstacles s)) by apply length_insert.
    destruct (beyond (advance o)) eqn:Eb.
    + rewrite decide_False by congruence. rewrite decide_True by done.
      fold l1.
      edestruct (IH (set_obstacles (delete i l1)
                       (scene_remove (advance o) (set_obstacles l1 s))))
        as (S & HS & HS').
      { cbn. rewrite length_delete; [lia | apply lookup_lt_is_Some_2; lia]. }
      { cbn. rewrite delete_take_drop, take_app_le, take_take, Nat.min_id, Hl1
          by (rewrite length_take; lia). done. }
      exists S. split.
      * rewrite HS. cbn. rewrite !app_nil_r.
        rewrite delete_take_drop.
        rewrite take_app_le, take_take, Nat.min_id by (rewrite length_take; lia).
        rewrite drop_app_length' by (rewrite length_take; lia).
        rewrite Hl1. unfold l1. rewrite drop_insert_lt by lia. reflexivity.
      * intros u. rewrite HS'. cbn.
        rewrite delete_take_drop, take_app_le, take_take, Nat.min_id, Hl1
          by (rewrite length_take; lia).
        rewrite fmap_app, elem_of_app, list_elem_of_filter. cbn.
        rewrite list_elem_of_singleton. tauto.
    + rewrite decide_True by done. rewrite decide_False by congruence.
      fold l1.
      destruct (IH (set_obstacles l1 s)) as (S & HS & HS').
      { cbn. lia. }
      { cbn. by rewrite Hl1. }
      exists S. split.
      * rewrite HS. cbn. rewrite Hl1, ?app_nil_r, <- app_assoc. cbn.
        unfold l1.
        rewrite (drop_S _ (advance o) i) by (apply list_lookup_insert_eq; lia).
        rewrite drop_insert_lt by lia. reflexivity.
      * intros u. rewrite HS'. cbn. rewrite Hl1, ?app_nil_r. reflexivity.
Qed.

(** A visited obstacle that collides ends the game. *)
Lemma obstacleLoop_hit k s :
  (k <= length (obstacles s))%nat ->
  Exists (fun o => collides playerBoundingBox o = true) (take k (obstacles s)) ->
  isGameOver (obstacleLoop playerBoundingBox k s) = true.
Proof.
  revert s. induction k as [|i IH]; intros s Hk Hex.
  - by apply Exists_nil in Hex.
  - destruct (lookup_lt_is_Some_2 (obstacles s) i ltac:(lia)) as [o Ho].
    rewrite (obstacleLoop_S i s o Ho). cbn zeta.
    rewrite (take_S_r _ _ _ Ho) in Hex.
    destruct (collides playerBoundingBox o) eqn:Ec; [done|].
    apply Exists_app in Hex as [Hex|Hex];
      [|apply Exists_cons in Hex as [Hex|Hex%Exists_nil]; [congruence|done]].
    set (l1 := <[i := advance o]> (obstacles s)).
    assert (Hl1 : take i l1 = take i (obstacles s))
      by (unfold l1; apply take_insert_ge; lia).
    assert (Hlen : length l1 = length (obstacles s)) by apply length_insert.
    case_match; apply IH; cbn; try lia.
    + rewrite length_delete; [lia | apply lookup_lt_is_Some_2; lia].
    + rewrite delete_take_drop, take_app_le, take_take, Nat.min_id, Hl1
        by (rewrite length_take; lia). done.
    + by rewrite Hl1.
Qed.

(** The loop keeps every obstacle in its lane. *)
Lemma obstacleLoop_in_lane k s :
  Forall in_lane (obstacles s) ->
  Forall in_lane (obstacles (obstacleLoop playerBoundingBox k s)).
Proof.
  revert s. induction k as [|i IH]; intros s Hl; [done|].
  destruct (obstacles s !! i) as [o|] eqn:Ho; [|by simpl; rewrite Ho].
  rewrite (obstacleLoop_S i s o Ho). cbn zeta.
  assert (Ho' : in_lane (advance o)).
  { eapply Forall_lookup_1 in Ho; [|exact Hl]. exact Ho. }
  assert (Hl1 : Forall in_lane (<[i := advance o]> (obstacles s)))
    by (by apply Forall_insert).
  repeat case_match; [done| |]; apply IH; cbn; [by apply Forall_delete | done].
Qed.

End Loop.

(** [spawnObstacle] issues a load and touches nothing else. *)
Lemma lane_spawnObstacle_spec rLane rModel s :
  exists reqs,
    spawnObstacle rLane rModel s = set_inFlight (inFlight s ++ reqs) s /\
    (length reqs <= 1)%nat.
Proof.
  unfold spawnObstacle. case_match.
  - eexists [_]. split; [reflexivity | cbn; lia].
  - exists []. rewrite app_nil_r. split; [by destruct s | cbn; lia].
Qed.

(** The key listener: what it does to the lane index, and that it does
    nothing else. *)
Lemma keydown_spec key s :
  keydown key s =
    set_currentLaneIndex
      (if isGameOver s then currentLaneIndex s
       else if String.eqb key "ArrowLeft" then
         if (0 <? currentLaneIndex s)%Z then (currentLaneIndex s - 1)%Z
         else currentLaneIndex s
       else if String.eqb key "ArrowRight" then
         if (currentLaneIndex s <? Z.of_nat (length lanePositions) - 1)%Z
         then (currentLaneIndex s + 1)%Z else currentLaneIndex s
       else currentLaneIndex s) s.
Proof. unfold keydown. repeat case_match; by destruct s. Qed.

Lemma keydown_lane_ok key s : lane_ok s -> lane_ok (keydown key s).
Proof.
  unfold lane_ok. rewrite keydown_spec. cbn. intros Hok.
  destruct (isGameOver s); [done|].
  destruct (Z.ltb_spec 0 (currentLaneIndex s)),
    (Z.ltb_spec (currentLaneIndex s) (Z.of_nat 3 - 1));
    repeat case_match; lia.
Qed.

Section LaneFrames.
Context `{ThreeEnv}.

(** A frame processed after the game is over changes nothing. *)
Lemma lane_animate_game_over currentTime rLane rModel s :
  isGameOver s = true -> animate currentTime rLane rModel s = s.
Proof. intros Hs. unfold animate. by rewrite Hs. Qed.

(** A running frame: the state [s2] the obstacle loop starts from has the
    obstacles and the scene of [s], and the player snapped to its lane. *)
Lemma lane_animate_running currentTime rLane rModel s :
  isGameOver s = false ->
  exists s2,
    animate currentTime rLane rModel s =
      (let s3 := obstacleLoop (setFromObject (snapped s)) (length (obstacles s)) s2 in
       set_distanceCovered (distanceCovered s3 + distanceFactor) s3) /\
    obstacles s2 = obstacles s /\ scene s2 = scene s /\
    isGameOver s2 = false /\ currentLaneIndex s2 = currentLaneIndex s /\
    playerCube s2 = snapped s.
Proof.
  intros Hs. unfold animate. rewrite Hs.
  set (s1 := match lanePositions !! _ with Some x => _ | None => s end).
  assert (H1 : obstacles s1 = obstacles s /\ scene s1 = scene s /\
               isGameOver s1 = false /\ currentLaneIndex s1 = currentLaneIndex s /\
               playerCube s1 = snapped s).
  { unfold s1, snapped. by case_match. }
  clearbody s1. destruct H1 as (Ho & Hsc & Hg & Hi & Hp).
  set (s2 := if Js.gt _ _ then _ else s1).
  assert (H2 : obstacles s2 = obstacles s1 /\ scene s2 = scene s1 /\
               isGameOver s2 = isGameOver s1 /\
               currentLaneIndex s2 = currentLaneIndex s1 /\
               playerCube s2 = playerCube s1).
  { unfold s2. case_match; [|done].
    destruct (lane_spawnObstacle_spec rLane rModel s1) as (reqs & -> & _). done. }
  clearbody s2. destruct H2 as (Ho2 & Hsc2 & Hg2 & Hi2 & Hp2).
  exists s2. rewrite Ho2, Hsc2, Hg2, Hi2, Hp2, Ho, Hsc, Hg, Hi, Hp. done.
Qed.

(** A running frame in which the game stays on: no obstacle collided,
    every obstacle was advanced, and the ones now beyond the threshold have
    left the array and the scene. *)
Lemma lane_animate_no_collision currentTime rLane rModel s :
  isGameOver s = false ->
  isGameOver (animate currentTime rLane rModel s) = false ->
  let s' := animate currentTime rLane rModel s in
  Forall (fun o => collides (setFromObject (snapped s)) o = false) (obstacles s) /\
  obstacles s' = filter (fun o => beyond o = false) (advance <$> obstacles s) /\
  (forall u, u ∈ scene s' <->
     u ∈ scene s /\
     u ∉ uid <$> filter (fun o => beyond o = true) (advance <$> obstacles s)).
Proof.
  intros Hs Hs'. cbn zeta.
  destruct (lane_animate_running currentTime rLane rModel s Hs)
    as (s2 & Ha & Ho & Hsc & Hg & _).
  rewrite Ha in Hs' |- *. cbn zeta in *. rewrite <- Ho in *.
  cbn [isGameOver obstacles scene set_distanceCovered] in *.
  set (P := fun o => collides (setFromObject (snapped s)) o = false).
  assert (Hno : Forall P (take (length (obstacles s2)) (obstacles s2))).
  { destruct (decide (Forall P (take (length (obstacles s2)) (obstacles s2))))
      as [|Hn]; [done|].
    apply not_Forall_Exists in Hn; [|intros x; unfold P; apply _].
    assert (Hg' : isGameOver (obstacleLoop (setFromObject (snapped s))
                                (length (obstacles s2)) s2) = true).
    { apply obstacleLoop_hit; [lia|].
      eapply Exists_impl; [exact Hn|]. intros o Hc. unfold P in Hc. cbn in Hc.
      by destruct (collides _ o). }
    congruence. }
  destruct (obstacleLoop_no_hit (setFromObject (snapped s)) _ s2 (le_n _) Hno)
    as (S & -> & HS).
  rewrite firstn_all, drop_all, ?app_nil_r in *.
  split; [done|]. split; [done|].
  intros u. cbn. by rewrite HS, Hsc.
Qed.

(** No event resets the game-over flag. *)
Lemma lane_step_isGameOver e s : isGameOver s = true -> isGameOver (step e s) = true.
Proof.
  intros Hs. destruct e as [key|t rL rM|k|k]; cbn.
  - unfold keydown. by rewrite Hs.
  - by rewrite lane_animate_game_over.
  - destruct (inFlight s !! k) as [r|]; [|done].
    unfold onLoad. by case_match.
  - by destruct (inFlight s !! k).
Qed.

Lemma lane_run_isGameOver es s : isGameOver s = true -> isGameOver (run es s) = true.
Proof.
  revert s. induction es as [|e es IH]; intros s Hs; [done|].
  cbn. by apply IH, lane_step_isGameOver.
Qed.

(** After the game is over, frames and key presses change nothing. *)
Lemma lane_run_frozen es s :
  isGameOver s = true ->
  Forall (fun e => match e with KeyDown _ | Frame _ _ _ => True | _ => False end) es ->
  run es s = s.
Proof.
  intros Hs Hes. induction Hes as [|e es He _ IH]; [done|].
  destruct e; try done; cbn.
  - unfold keydown. by rewrite Hs.
  - by rewrite lane_animate_game_over.
Qed.

(** The lane index designates a lane in every reachable state. *)
Lemma lane_reachable_lane_ok s : reachable s -> lane_ok s.
Proof.
  induction 1 as [|e s _ IH _]; [unfold lane_ok; cbn; lia|].
  destruct e as [key|t rL rM|k|k]; cbn.
  - by apply keydown_lane_ok.
  - destruct (isGameOver s) eqn:Hs; [by rewrite lane_animate_game_over|].
    destruct (lane_animate_running t rL rM s Hs) as (s2 & -> & _ & _ & _ & Hi & _).
    unfold lane_ok in *. cbn. rewrite <- Hi in IH. clear Hi.
    set (n := length (obstacles s)). clearbody n.
    revert s2 IH. induction n as [|i IHn]; intros s2 IH; [done|].
    simpl. repeat case_match; try done; by apply IHn.
  - destruct (inFlight s !! k) as [r|]; [|done]. unfold onLoad. by case_match.
  - by destruct (inFlight s !! k).
Qed.

(** Every obstacle ever live stands in the lane, and at the height, the
    success callback gave it. *)
Lemma lane_reachable_in_lane s : reachable s -> Forall in_lane (obstacles s).
Proof.
  induction 1 as [|e s _ IH _]; [constructor|].
  destruct e as [key|t rL rM|k|k]; cbn.
  - by rewrite keydown_spec.
  - destruct (isGameOver s) eqn:Hs; [by rewrite lane_animate_game_over|].
    destruct (lane_animate_running t rL rM s Hs) as (s2 & -> & Ho & _). cbn.
    apply obstacleLoop_in_lane. by rewrite Ho.
  - destruct (inFlight s !! k) as [r|]; [|done]. unfold onLoad.
    destruct (lanePositions !! _) as [x|] eqn:Hx; [|done]. cbn.
    apply Forall_app. split; [done|]. apply Forall_singleton.
    split; [|done]. cbn. eapply list_elem_of_lookup_2, Hx.
  - by destruct (inFlight s !! k).
Qed.

Lemma lane_run_reachable es s :
  reachable s -> Forall valid_event es -> reachable (run es s).
Proof.
  intros Hs Hes. revert s Hs. induction Hes as [|e es He _ IH]; intros s Hs; [done|].
  cbn. apply IH. by constructor.
Qed.

End LaneFrames.

Section Break.
Context `{ThreeEnv}.
Variable playerBoundingBox : Box3.

(** The loop stops at the first visited obstacle that collides: that one
    has been advanced, the entries before it in the array are as they
    were. *)
Lemma obstacleLoop_break k s j o :
  (k <= length (obstacles s))%nat -> (j < k)%nat ->
  obstacles s !! j = Some o ->
  collides playerBoundingBox o = true ->
  Forall (fun o' => collides playerBoundingBox o' = false)
         (drop (S j) (take k (obstacles s))) ->
  let s' := obstacleLoop playerBoundingBox k s in
  isGameOver s' = true /\
  take j (obstacles s') = take j (obstacles s) /\
  obstacles s' !! j = Some (advance o).
Proof.
  revert s. induction k as [|i IH]; intros s Hk Hj Ho Hc Hlater; [lia|].
  cbn zeta. destruct (decide (i = j)) as [->|Hne].
  - rewrite (obstacleLoop_S _ j s o Ho). cbn zeta. rewrite Hc. cbn.
    split; [done|]. split; [apply take_insert_ge; lia|].
    apply list_lookup_insert_eq. lia.
  - destruct (lookup_lt_is_Some_2 (obstacles s) i ltac:(lia)) as [o' Ho'].
    rewrite (obstacleLoop_S _ i s o' Ho'). cbn zeta.
    rewrite (take_S_r _ _ _ Ho'), drop_app_le in Hlater by (rewrite length_take; lia).
    apply Forall_app in Hlater as [Hlater Hoi]. rewrite Forall_singleton in Hoi.
    rewrite Hoi.
    set (l1 := <[i := advance o']> (obstacles s)).
    assert (Hl1 : take i l1 = take i (obstacles s))
      by (unfold l1; apply take_insert_ge; lia).
    assert (Hlen : length l1 = length (obstacles s)) by apply length_insert.
    assert (Hj1 : l1 !! j = Some o)
      by (unfold l1; rewrite list_lookup_insert_ne by lia; done).
    assert (Htj : take j l1 = take j (obstacles s))
      by (unfold l1; apply take_insert_ge; lia).
    case_match.
    + edestruct (IH (set_obstacles (delete i l1)
                       (scene_remove (advance o') (set_obstacles l1 s))))
        as (Hg & Ht & Hl); cbn.
      * rewrite length_delete; [lia | apply lookup_lt_is_Some_2; lia].
      * lia.
      * rewrite list_lookup_delete_lt by lia. exact Hj1.
      * exact Hc.
      * rewrite delete_take_drop, take_app_le, take_take, Nat.min_id, Hl1
          by (rewrite length_take; lia). exact Hlater.
      * assert (Htd : take j (delete i l1) = take j (obstacles s)).
        { rewrite delete_take_drop, take_app_le, take_take, Nat.min_l, Htj
            by (rewrite ?length_take; lia). done. }
        cbn in Ht. rewrite Htd in Ht. done.
    + edestruct (IH (set_obstacles l1 s)) as (Hg & Ht & Hl); cbn.
      * lia.
      * lia.
      * exact Hj1.
      * exact Hc.
      * by rewrite Hl1.
      * cbn in Ht. rewrite Htj in Ht. done.
Qed.

End Break.

(** A running frame in which an obstacle collides: the game is over, the
    colliding obstacle has been advanced and the entries before it in the
    array have not. *)
Lemma lane_animate_collision `{ThreeEnv} currentTime rLane rModel s j o :
  isGameOver s = false ->
  obstacles s !! j = Some o ->
  collides (setFromObject (snapped s)) o = true ->
  Forall (fun o' => collides (setFromObject (snapped s)) o' = false)
         (drop (S j) (obstacles s)) ->
  let s' := animate currentTime rLane rModel s in
  isGameOver s' = true /\
  take j (obstacles s') = take j (obstacles s) /\
  obstacles s' !! j = Some (advance o).
Proof.
  intros Hs Ho Hc Hlater. cbn zeta.
  destruct (lane_animate_running currentTime rLane rModel s Hs)
    as (s2 & -> & Ho2 & _).
  cbn zeta. cbn [isGameOver obstacles set_distanceCovered].
  rewrite <- Ho2 in *.
  apply obstacleLoop_break; try done.
  - by apply lookup_lt_Some in Ho.
  - by rewrite firstn_all.
Qed.

(** While the game is running, no obstacle of a reachable state is beyond
    the removal threshold when a frame starts. *)
Lemma lane_reachable_not_beyond `{ThreeEnv} s :
  reachable s -> isGameOver s = false ->
  Forall (fun o => beyond o = false) (obstacles s).
Proof.
  induction 1 as [|e s _ IH _]; [constructor|].
  destruct e as [key|t rL rM|k|k]; cbn.
  - rewrite keydown_spec. cbn. exact IH.
  - intros Hs'. destruct (isGameOver s) eqn:Hs.
    + rewrite lane_animate_game_over in Hs' by done. congruence.
    + destruct (lane_animate_no_collision t rL rM s Hs Hs') as (_ & -> & _).
      apply Forall_forall. by intros o [Hb _]%list_elem_of_filter.
  - destruct (inFlight s !! k) as [r|]; [|done]. unfold onLoad.
    destruct (lanePositions !! _) as [x|]; [|done]. cbn. intros Hs.
    apply Forall_app. split; [by apply IH|]. by apply Forall_singleton.
  - destruct (inFlight s !! k); [cbn|]; done.
Qed.

End LaneRunnerProofs.

(** ** Properties that span both scripts *)

(** C2: once [isGameOver] is true no event makes it false again, in either
    script, along any run; a frame processed after that returns the game
    state it was given, so nothing is spawned, no load is issued, no
    obstacle moves or leaves and [distanceCovered] stays, however many
    frames follow; and a key press leaves the state, and with it the lane
    index, as it was. *)
Theorem C2_game_over_is_final `{ThreeEnv} :
  (forall es s,
     ThemedRunner.isGameOver s = true ->
     ThemedRunner.isGameOver (ThemedRunner.run es s) = true) /\
  (forall deltaTime currentTime rModel rLane rZ s,
     ThemedRunner.isGameOver s = true ->
     ThemedRunner.animate deltaTime currentTime rModel rLane rZ s = s) /\
  (forall es s,
     ThemedRunner.isGameOver s = true ->
     Forall (fun e => ThemedRunner.is_frame e = true) es ->
     ThemedRunner.run es s = s) /\
  (forall es s,
     LaneRunner.isGameOver s = true ->
     LaneRunner.isGameOver (LaneRunner.run es s) = true) /\
  (forall currentTime rLane rModel s,
     LaneRunner.isGameOver s = true ->
     LaneRunner.animate currentTime rLane rModel s = s) /\
  (forall key s,
     LaneRunner.isGameOver s = true -> LaneRunner.keydown key s = s) /\
  (forall es s,
     LaneRunner.isGameOver s = true ->
     Forall (fun e => match e with
                      | LaneRunner.KeyDown _ | LaneRunner.Frame _ _ _ => True
                      | _ => False
                      end) es ->
     LaneRunner.run es s = s).
Proof.
  split; [apply @ThemedRunnerProofs.run_isGameOver|].
  split; [apply @ThemedRunnerProofs.animate_game_over|].
  split; [apply @ThemedRunnerProofs.run_frames_game_over|].
  split; [apply @LaneRunnerProofs.lane_run_isGameOver|].
  split; [apply @LaneRunnerProofs.lane_animate_game_over|].
  split; [|apply @LaneRunnerProofs.lane_run_frozen].
  intros key s Hs. unfold LaneRunner.keydown. by rewrite Hs.
Qed.

(** After the game is over, a frame of either script and a left key change
    nothing. *)
Lemma C2_game_over_is_final_witness :
  (ThemedRunner.isGameOver Samples.themed_over_state = true /\
   LaneRunner.isGameOver Samples.lane_over_state = true) /\
  @ThemedRunner.animate Samples.sampleEnv (1 # 60) 5 0 0 0 Samples.themed_over_state
  = Samples.themed_over_state /\
  @LaneRunner.animate Samples.sampleEnv 5000 0 0 Samples.lane_over_state
  = Samples.lane_over_state /\
  LaneRunner.keydown "ArrowLeft" Samples.lane_over_state = Samples.lane_over_state.
Proof.
  split; [split; reflexivity|].
  destruct (@C2_game_over_is_final Samples.sampleEnv)
    as (_ & Hthemed & _ & _ & Hlane & Hkey & _).
  split; [apply Hthemed; reflexivity|].
  split; [apply Hlane; reflexivity | apply Hkey; reflexivity].
Defined.

(** C4, counterexample: the run that ends in a collision leaves the player
    in the middle lane, index 1; a left key pressed then is not at the
    boundary and yet does not move the index to 0. *)
Lemma C4_counterexample :
  let s := @LaneRunner.run Samples.sampleEnv Samples.lane_crash_run
             LaneRunner.initial_state in
  @LaneRunner.reachable Samples.sampleEnv s /\
  LaneRunner.currentLaneIndex s = 1%Z /\
  LaneRunner.currentLaneIndex (LaneRunner.keydown "ArrowLeft" s) <>
    (LaneRunner.currentLaneIndex s - 1)%Z.
Proof.
  intros s. split.
  - apply LaneRunnerProofs.lane_run_reachable; [constructor|].
    unfold Samples.lane_crash_run.
    constructor; [split; q_solve|]. constructor; [done|].
    apply Forall_fmap, Forall_forall. intros i _. split; q_solve.
  - vm_compute. split; [reflexivity | discriminate].
Qed.

(** C4 (as amended): in every reachable state the lane index is within
    [[0, laneCount - 1]], and the key listener keeps it there.  A left key at
    index 0 and a right key at the last index change nothing.  While the
    game is running, any other left key lowers the index by exactly 1 and
    any other right key raises it by exactly 1; once the game is over the
    listener returns at once and the index stays. *)
Theorem C4_lane_index `{ThreeEnv} :
  (forall s, LaneRunner.reachable s -> LaneRunner.lane_ok s) /\
  (forall key s, LaneRunner.lane_ok s -> LaneRunner.lane_ok (LaneRunner.keydown key s)) /\
  (forall s, LaneRunner.currentLaneIndex s = 0%Z ->
     LaneRunner.keydown "ArrowLeft" s = s) /\
  (forall s,
     LaneRunner.currentLaneIndex s = (Z.of_nat (length LaneRunner.lanePositions) - 1)%Z ->
     LaneRunner.keydown "ArrowRight" s = s) /\
  (forall s, LaneRunner.isGameOver s = false ->
     (0 < LaneRunner.currentLaneIndex s)%Z ->
     LaneRunner.keydown "ArrowLeft" s =
       LaneRunner.set_currentLaneIndex (LaneRunner.currentLaneIndex s - 1)%Z s) /\
  (forall s, LaneRunner.isGameOver s = false ->
     (LaneRunner.currentLaneIndex s < Z.of_nat (length LaneRunner.lanePositions) - 1)%Z ->
     LaneRunner.keydown "ArrowRight" s =
       LaneRunner.set_currentLaneIndex (LaneRunner.currentLaneIndex s + 1)%Z s) /\
  (forall key s, LaneRunner.isGameOver s = true -> LaneRunner.keydown key s = s).
Proof.
  split; [apply @LaneRunnerProofs.lane_reachable_lane_ok|].
  split; [apply LaneRunnerProofs.keydown_lane_ok|].
  repeat split.
  - intros s Hi. unfold LaneRunner.keydown. rewrite Hi. cbn. by case_match.
  - intros s Hi. unfold LaneRunner.keydown. rewrite Hi. cbn. by case_match.
  - intros s Hs Hi. unfold LaneRunner.keydown. rewrite Hs. cbn.
    by destruct (Z.ltb_spec 0 (LaneRunner.currentLaneIndex s)); [|lia].
  - intros s Hs Hi. unfold LaneRunner.keydown. rewrite Hs. cbn.
    by destruct (Z.ltb_spec (LaneRunner.currentLaneIndex s) (Z.of_nat 3 - 1)); [|cbn in *; lia].
  - intros key s Hs. unfold LaneRunner.keydown. by rewrite Hs.
Qed.

(** From the middle lane, a left key leads to lane 0. *)
Lemma C4_lane_index_witness :
  let s := LaneRunner.initial_state in
  (@LaneRunner.reachable Samples.sampleEnv s /\ LaneRunner.isGameOver s = false /\
   (0 < LaneRunner.currentLaneIndex s)%Z) /\
  LaneRunner.lane_ok s /\
  LaneRunner.currentLaneIndex (LaneRunner.keydown "ArrowLeft" s) = 0%Z.
Proof.
  intros s.
  assert (Hpos : (0 < LaneRunner.currentLaneIndex s)%Z) by (cbn; lia).
  split; [split; [constructor | split; [reflexivity | exact Hpos]]|].
  destruct (@C4_lane_index Samples.sampleEnv) as (Hok & _ & _ & _ & Hleft & _).
  split; [apply Hok; constructor|].
  rewrite (Hleft s eq_refl Hpos). reflexivity.
Defined.

(** C6, counterexample: in the second script, a running frame that follows
    the arrival of the first obstacle leaves that obstacle where it was: no
    positive increment relates its position before and after the frame. *)
Lemma C6_counterexample :
  let s := @ThemedRunner.run Samples.sampleEnv Samples.themed_first_obstacle_run
             ThemedRunner.initial_state in
  let s' := @ThemedRunner.animate Samples.sampleEnv (1 # 60) 4 0 0 0 s in
  @ThemedRunner.reachable Samples.sampleEnv s /\
  ThemedRunner.isGameOver s = false /\
  length (ThemedRunner.obstacles s) = 1%nat /\
  ~ exists c, 0 < c /\
      forall o o', o ∈ ThemedRunner.obstacles s -> o' ∈ ThemedRunner.obstacles s' ->
                   uid o' = uid o ->
                   vz (position o') == vz (position o) + c.
Proof.
  intros s s'. split; [|split; [reflexivity|split; [reflexivity|]]].
  - apply ThemedRunnerProofs.run_reachable; [constructor|].
    repeat constructor; q_solve.
  - intros (c & Hc & Hmove).
    assert (Hs : ThemedRunner.obstacles s' = ThemedRunner.obstacles s) by reflexivity.
    assert (Ho : exists o, o ∈ ThemedRunner.obstacles s).
    { eexists. vm_compute. apply list_elem_of_here. }
    destruct Ho as [o Ho].
    specialize (Hmove o o Ho). rewrite Hs in Hmove.
    specialize (Hmove Ho eq_refl). lra.
Qed.

(** C6 (as amended): in the first script, on every frame processed while
    the game is running and in which no collision is detected, every live
    obstacle is advanced along z by [obstacleSpeed], which is 0.1, and by
    nothing else; the live obstacles after the frame are the advanced ones
    that are not beyond the removal threshold, in order.  On the frame that
    detects a collision the loop stops at the colliding obstacle: that one
    has been advanced, the entries before it in the array have not.  The
    second script's [animate] moves no obstacle: an obstacle live after a
    frame was live before it, unchanged, or is the one the frame spawned. *)
Theorem C6_obstacle_motion `{ThreeEnv} :
  LaneRunner.obstacleSpeed == 0.1 /\
  (forall o,
     vz (position (LaneRunner.advance o)) = vz (position o) + LaneRunner.obstacleSpeed /\
     vx (position (LaneRunner.advance o)) = vx (position o) /\
     vy (position (LaneRunner.advance o)) = vy (position o) /\
     uid (LaneRunner.advance o) = uid o) /\
  (forall currentTime rLane rModel s,
     LaneRunner.isGameOver s = false ->
     LaneRunner.isGameOver (LaneRunner.animate currentTime rLane rModel s) = false ->
     LaneRunner.obstacles (LaneRunner.animate currentTime rLane rModel s) =
       filter (fun o => LaneRunner.beyond o = false)
              (LaneRunner.advance <$> LaneRunner.obstacles s)) /\
  (forall currentTime rLane rModel s j o,
     LaneRunner.isGameOver s = false ->
     LaneRunner.obstacles s !! j = Some o ->
     LaneRunner.collides (setFromObject (LaneRunner.snapped s)) o = true ->
     Forall (fun o' => LaneRunner.collides (setFromObject (LaneRunner.snapped s)) o'
                       = false)
            (drop (S j) (LaneRunner.obstacles s)) ->
     let s' := LaneRunner.animate currentTime rLane rModel s in
     LaneRunner.isGameOver s' = true /\
     take j (LaneRunner.obstacles s') = take j (LaneRunner.obstacles s) /\
     LaneRunner.obstacles s' !! j = Some (LaneRunner.advance o)) /\
  (forall deltaTime currentTime rModel rLane rZ s o,
     o ∈ ThemedRunner.obstacles
           (ThemedRunner.animate deltaTime currentTime rModel rLane rZ s) ->
     o ∈ ThemedRunner.obstacles s \/ uid o = ThemedRunner.nextUid s).
Proof.
  split; [reflexivity|]. split; [done|]. split; [|split].
  - intros currentTime rLane rModel s Hs Hs'.
    by destruct (LaneRunnerProofs.lane_animate_no_collision currentTime rLane rModel s Hs Hs')
      as (_ & -> & _).
  - intros currentTime rLane rModel s j o.
    apply LaneRunnerProofs.lane_animate_collision.
  - intros deltaTime currentTime rModel rLane rZ s o Ho.
    destruct (ThemedRunner.isGameOver s) eqn:Hs.
    + rewrite ThemedRunnerProofs.animate_game_over in Ho by done. by left.
    + destruct (ThemedRunnerProofs.animate_obstacles deltaTime currentTime rModel rLane rZ s Hs)
        as (new & Hnew & Hcases & _).
      rewrite Hnew in Ho. apply elem_of_app in Ho as [Ho|Ho].
      * left. by apply list_elem_of_filter in Ho as [_ Ho].
      * destruct Hcases as [->|(f & x & _ & ->)]; [by apply elem_of_nil in Ho|].
        apply list_elem_of_singleton in Ho as ->. by right.
Qed.

(** A frame of the first script with two obstacles in the left lane, away
    from the player: the far one advances from -20 to -19.9. *)
Lemma C6_obstacle_motion_witness :
  let s := Samples.lane_passing_state in
  let s' := @LaneRunner.animate Samples.sampleEnv 1 0 0 s in
  (LaneRunner.isGameOver s = false /\ LaneRunner.isGameOver s' = false) /\
  LaneRunner.obstacles s' =
    filter (fun o => LaneRunner.beyond o = false)
           (LaneRunner.advance <$> LaneRunner.obstacles s).
Proof.
  intros s s'. split; [split; reflexivity|].
  destruct (@C6_obstacle_motion Samples.sampleEnv) as (_ & _ & Hlane & _).
  apply (Hlane 1 0 0 s); reflexivity.
Defined.

(** The first script at 25 frames a second: when the obstacle in the
    player's lane arrives, the older obstacle, which has passed the player
    in the left lane and stands first in the array, is not advanced by
    that frame. *)
Lemma lane_collision_frame_example :
  let s := @LaneRunner.run Samples.sampleEnv Samples.lane_overtaken_run
             LaneRunner.initial_state in
  let s' := @LaneRunner.step Samples.sampleEnv (Samples.lane_frame 246) s in
  @LaneRunner.reachable Samples.sampleEnv s /\
  LaneRunner.isGameOver s = false /\ LaneRunner.isGameOver s' = true /\
  Forall2 Qeq ((fun o => vz (position o)) <$> LaneRunner.obstacles s) [4.5; -0.6] /\
  Forall2 Qeq ((fun o => vz (position o)) <$> LaneRunner.obstacles s') [4.5; -0.5] /\
  take 1 (LaneRunner.obstacles s') = take 1 (LaneRunner.obstacles s).
Proof.
  intros s s'. split.
  - apply LaneRunnerProofs.lane_run_reachable; [constructor|].
    unfold Samples.lane_overtaken_run.
    constructor; [split; q_solve|]. constructor; [done|].
    apply Forall_app. split; [|constructor; [done|]];
      apply Forall_fmap, Forall_forall; intros i _; split; q_solve.
  - vm_compute. repeat split; try reflexivity; repeat constructor.
Qed.

(** * Further properties *)

(** ** Lists of references *)

(** Taking a reference off a list that holds it once is deleting its
    entry. *)
Lemma filter_ne_delete (l : list nat) i x :
  NoDup l -> l !! i = Some x -> filter (fun u => u <> x) l = delete i l.
Proof.
  intros Hnd. revert i. induction Hnd as [|a l Ha Hnd IH]; intros i Hi; [done|].
  rewrite filter_cons. destruct i as [|i]; cbn in Hi.
  - injection Hi as ->. rewrite decide_False by (intros Hx; by apply Hx). cbn.
    clear IH Hnd. induction l as [|b l IHl]; [done|].
    rewrite filter_cons. apply not_elem_of_cons in Ha as [Hb Ha].
    rewrite decide_True by done. f_equal. by apply IHl.
  - rewrite decide_True.
    + cbn. f_equal. by apply IH.
    + intros ->. apply Ha. by eapply list_elem_of_lookup_2.
Qed.

(** A filter that every entry passes keeps the list. *)
Lemma filter_all {A} (P : A -> Prop) `{forall x, Decision (P x)} (l : list A) :
  Forall P l -> filter P l = l.
Proof.
  induction 1 as [|x l Hx _ IH]; [done|].
  rewrite filter_cons, decide_True by done. by f_equal.
Qed.

(** Deleting an entry of the array deletes its reference. *)
Lemma fmap_uid_delete i (l : list Object3D) :
  uid <$> delete i l = delete i (uid <$> l).
Proof. revert i. induction l as [|a l IH]; intros [|i]; cbn; try done. f_equal. apply IH. Qed.

(** Taking the reference of an entry of the array off a scene that holds
    the objects of [base] and then those of the array, each once. *)
Lemma scene_remove_entry (base uids : list nat) i x :
  NoDup (base ++ uids) -> uids !! i = Some x ->
  filter (fun u => u <> x) (base ++ uids) = base ++ delete i uids /\
  NoDup (base ++ delete i uids).
Proof.
  intros Hnd Hi. pose proof Hnd as Hnd'.
  apply NoDup_app in Hnd' as (Hb & Hdis & Hu). split.
  - rewrite filter_app. f_equal; [|by apply filter_ne_delete].
    apply filter_all, Forall_forall. intros u Hub ->.
    apply (Hdis x Hub). by eapply list_elem_of_lookup_2.
  - apply NoDup_app. split; [done|]. split.
    + intros u Hub Hud. apply (Hdis u Hub). by eapply list_elem_of_delete_inv.
    + eapply sublist_NoDup; [exact Hu | apply sublist_delete].
Qed.

(** Putting a new object, last, on a scene that holds objects older than
    it. *)
Lemma scene_add_entry (base uids : list nat) n m :
  NoDup (base ++ uids) -> Forall (fun u => (u < n)%nat) (base ++ uids) ->
  (n < m)%nat ->
  (base ++ uids) ++ [n] = base ++ (uids ++ [n]) /\
  NoDup (base ++ (uids ++ [n])) /\
  Forall (fun u => (u < m)%nat) (base ++ (uids ++ [n])).
Proof.
  intros Hnd Hfr Hm. rewrite app_assoc. split; [done|]. split.
  - apply NoDup_app. split; [done|]. split; [|apply NoDup_singleton].
    intros u Hu ->%list_elem_of_singleton.
    rewrite Forall_forall in Hfr. specialize (Hfr n Hu). lia.
  - apply Forall_app. split; [|apply Forall_singleton; lia].
    eapply Forall_impl; [exact Hfr|]. cbn. intros; lia.
Qed.

(** ** The first script *)

Module LaneRunnerMore.
Import LaneRunner LaneRunnerProofs LaneNotions.

Ltac conjs := repeat match goal with |- _ /\ _ => split end; try done; try lia.

(** What the obstacle loop can touch: the obstacle array, which it never
    lengthens, the scene, and on a collision the flag, the colour of the
    player and the console. *)
Lemma obstacleLoop_effect `{ThreeEnv} pb k s :
  let s' := obstacleLoop pb k s in
  distanceCovered s' = distanceCovered s /\
  currentLaneIndex s' = currentLaneIndex s /\
  lastSpawnTime s' = lastSpawnTime s /\
  playerCube s' = playerCube s /\
  inFlight s' = inFlight s /\ nextUid s' = nextUid s /\
  (length (obstacles s') <= length (obstacles s))%nat /\
  ((isGameOver s' = isGameOver s /\ playerColor s' = playerColor s /\
    console s' = console s) \/
   (isGameOver s' = true /\ playerColor s' = 255%Z /\
    console s' = Log "Game Over!" :: console s)).
Proof.
  revert s. induction k as [|i IH]; intros s;
    [cbn; conjs; by left|].
  destruct (obstacles s !! i) as [o|] eqn:Ho; 
    [|cbn; rewrite Ho; conjs; by left].
  cbn zeta. rewrite (obstacleLoop_S pb i s o Ho). cbn zeta.
  assert (Hlen : length (<[i := advance o]> (obstacles s)) = length (obstacles s))
    by apply length_insert.
  destruct (collides pb o).
  - cbn. rewrite Hlen. conjs; by right.
  - destruct (beyond (advance o)).
    + edestruct (IH (set_obstacles (delete i (<[i:=advance o]> (obstacles s)))
                       (scene_remove (advance o)
                          (set_obstacles (<[i:=advance o]> (obstacles s)) s))))
        as (-> & -> & -> & -> & -> & -> & Hl & Hc).
      cbn in Hl, Hc |- *. repeat (split; [done|]). split; [|exact Hc].
      rewrite length_delete in Hl
        by (apply lookup_lt_is_Some_2; rewrite Hlen; by eapply lookup_lt_Some).
      lia.
    + edestruct (IH (set_obstacles (<[i:=advance o]> (obstacles s)) s))
        as (-> & -> & -> & -> & -> & -> & Hl & Hc).
      cbn in Hl, Hc |- *. repeat (split; [done|]). split; [lia | exact Hc].
Qed.

(** The loop keeps every property of the obstacles that advancing one
    keeps. *)
Lemma obstacleLoop_Forall `{ThreeEnv} (P : Object3D -> Prop) pb k s :
  (forall o, P o -> P (advance o)) ->
  Forall P (obstacles s) -> Forall P (obstacles (obstacleLoop pb k s)).
Proof.
  intros HP. revert s. induction k as [|i IH]; intros s Hl; [done|].
  destruct (obstacles s !! i) as [o|] eqn:Ho; [|by simpl; rewrite Ho].
  rewrite (obstacleLoop_S pb i s o Ho). cbn zeta.
  assert (Ho' : P (advance o)).
  { apply HP. eapply Forall_lookup_1 in Ho; [exact Ho | exact Hl]. }
  assert (Hl1 : Forall P (<[i := advance o]> (obstacles s)))
    by (by apply Forall_insert).
  repeat case_match; [done| |]; apply IH; cbn; [by apply Forall_delete | done].
Qed.

(** A running frame, phase by phase. *)
Lemma animate_phases `{ThreeEnv} currentTime rLane rModel s :
  isGameOver s = false ->
  exists s2,
    animate currentTime rLane rModel s =
      (let s3 := obstacleLoop (setFromObject (snapped s)) (length (obstacles s)) s2 in
       set_distanceCovered (distanceCovered s3 + distanceFactor) s3) /\
    obstacles s2 = obstacles s /\ scene s2 = scene s /\ isGameOver s2 = false /\
    currentLaneIndex s2 = currentLaneIndex s /\ playerCube s2 = snapped s /\
    distanceCovered s2 = distanceCovered s /\ nextUid s2 = nextUid s /\
    playerColor s2 = playerColor s /\ console s2 = console s /\
    ((currentTime - lastSpawnTime s <= spawnInterval /\
      lastSpawnTime s2 = lastSpawnTime s /\ inFlight s2 = inFlight s) \/
     (spawnInterval < currentTime - lastSpawnTime s /\ lastSpawnTime s2 = currentTime /\
      inFlight (spawnObstacle rLane rModel s) = inFlight s2)).
Proof.
  intros Hs. unfold animate. rewrite Hs.
  set (s1 := match lanePositions !! _ with Some x => _ | None => s end).
  assert (H1 : s1 = set_playerCube (snapped s) s).
  { unfold s1, snapped. case_match; [done | by destruct s]. }
  rewrite H1. clear s1 H1.
  set (s2 := if Js.gt _ _ then _ else _).
  assert (H2 : obstacles s2 = obstacles s /\ scene s2 = scene s /\
    isGameOver s2 = false /\ currentLaneIndex s2 = currentLaneIndex s /\
    playerCube s2 = snapped s /\ distanceCovered s2 = distanceCovered s /\
    nextUid s2 = nextUid s /\ playerColor s2 = playerColor s /\
    console s2 = console s /\
    ((currentTime - lastSpawnTime s <= spawnInterval /\
      lastSpawnTime s2 = lastSpawnTime s /\ inFlight s2 = inFlight s) \/
     (spawnInterval < currentTime - lastSpawnTime s /\ lastSpawnTime s2 = currentTime /\
      inFlight (spawnObstacle rLane rModel s) = inFlight s2))).
  { unfold s2. destruct (Js.gt _ _) eqn:Hgt.
    - apply gt_true in Hgt. cbn in Hgt.
      unfold spawnObstacle. destruct (obstacleModelFiles !! _); cbn; conjs; by right.
    - apply gt_false in Hgt. cbn in Hgt. cbn. conjs. by left. }
  clearbody s2. exists s2. split; [|exact H2].
  destruct H2 as (-> & _ & _ & _ & -> & _). reflexivity.
Qed.


(** A running frame, field by field. *)
Lemma animate_frame `{ThreeEnv} currentTime rLane rModel s :
  isGameOver s = false ->
  let s' := animate currentTime rLane rModel s in
  distanceCovered s' = distanceCovered s + distanceFactor /\
  currentLaneIndex s' = currentLaneIndex s /\
  playerCube s' = snapped s /\ nextUid s' = nextUid s /\
  (length (obstacles s') <= length (obstacles s))%nat /\
  ((isGameOver s' = false /\ playerColor s' = playerColor s /\
    console s' = console s) \/
   (isGameOver s' = true /\ playerColor s' = 255%Z /\
    console s' = Log "Game Over!" :: console s)) /\
  ((currentTime - lastSpawnTime s <= spawnInterval /\
    lastSpawnTime s' = lastSpawnTime s /\ inFlight s' = inFlight s) \/
   (spawnInterval < currentTime - lastSpawnTime s /\ lastSpawnTime s' = currentTime /\
    inFlight s' = inFlight (spawnObstacle rLane rModel s))).
Proof.
  intros Hs. cbn zeta.
  destruct (animate_phases currentTime rLane rModel s Hs)
    as (s2 & -> & Ho & _ & Hg & Hi & Hp & Hd & Hn & Hc & Hco & Hsp).
  cbn zeta.
  destruct (obstacleLoop_effect (setFromObject (snapped s)) (length (obstacles s)) s2)
    as (Ed & Ei & Et & Ep & Ef & En & El & Ec).
  cbn. rewrite Ed, Ei, Et, Ep, Ef, En, Hd, Hi, Hp, Hn. rewrite Ho in El.
  repeat (split; [done|]). split.
  - destruct Ec as [(-> & -> & ->)|(-> & -> & ->)]; [left | right]; by rewrite ?Hg, ?Hc, ?Hco.
  - destruct Hsp as [(? & -> & ->)|(? & -> & ->)]; [by left | by right].
Qed.


(** A load issued with draws of [Math.random] asks for a catalogue file
    in one of the lanes. *)
Lemma spawnObstacle_request rLane rModel s :
  Js.is_random rLane -> Js.is_random rModel ->
  exists r, request_ok r /\
    spawnObstacle rLane rModel s = set_inFlight (inFlight s ++ [r]) s.
Proof.
  intros HL HM. unfold spawnObstacle.
  destruct (random_pick rModel obstacleModelFiles HM ltac:(done)) as [f Hf].
  rewrite Hf. eexists. split; [|reflexivity]. split; cbn.
  - apply (random_index_lt rLane 3 HL). lia.
  - exists f. split; [|done]. by eapply list_elem_of_lookup_2.
Qed.

(** X1: while the game runs, a press of ArrowLeft followed by a press of
    ArrowRight gives back the state it started from unless the player is
    in the leftmost lane, and symmetrically; from an outer lane the pair
    of presses that starts towards the wall ends in the middle lane. *)
Theorem keydown_round_trip s :
  isGameOver s = false -> lane_ok s ->
  ((0 < currentLaneIndex s)%Z ->
     keydown "ArrowRight" (keydown "ArrowLeft" s) = s) /\
  ((currentLaneIndex s < 2)%Z ->
     keydown "ArrowLeft" (keydown "ArrowRight" s) = s) /\
  (currentLaneIndex s = 0%Z ->
     currentLaneIndex (keydown "ArrowRight" (keydown "ArrowLeft" s)) = 1%Z) /\
  (currentLaneIndex s = 2%Z ->
     currentLaneIndex (keydown "ArrowLeft" (keydown "ArrowRight" s)) = 1%Z).
Proof.
  intros Hs Hok. unfold lane_ok in Hok. cbn in Hok.
  destruct s as [g d i t p c os sc fl co n]. cbn in Hs, Hok |- *. subst g.
  unfold keydown; cbn.
  repeat split; intros Hi.
  - destruct (Z.ltb_spec 0 i); [cbn|lia].
    destruct (Z.ltb_spec (i - 1) (Z.of_nat 3 - 1)); [|lia].
    unfold set_currentLaneIndex; cbn. f_equal. lia.
  - destruct (Z.ltb_spec i (Z.of_nat 3 - 1)); [cbn|lia].
    destruct (Z.ltb_spec 0 (i + 1)); [|lia].
    unfold set_currentLaneIndex; cbn. f_equal. lia.
  - subst i. reflexivity.
  - subst i. reflexivity.
Qed.

Lemma keydown_round_trip_witness :
  keydown "ArrowRight" (keydown "ArrowLeft" initial_state) = initial_state.
Proof.
  apply (keydown_round_trip initial_state);
    [reflexivity | unfold lane_ok; cbn; lia | cbn; lia].
Defined.

(** X2: while the game runs, [n] presses of ArrowLeft move the lane index
    to [max 0 (index - n)] and [n] presses of ArrowRight to
    [min 2 (index + n)], and change nothing else: presses against a wall
    are dropped, not queued. *)
Theorem presses_saturate n s :
  isGameOver s = false -> lane_ok s ->
  presses "ArrowLeft" n s =
    set_currentLaneIndex (Z.max 0 (currentLaneIndex s - Z.of_nat n)) s /\
  presses "ArrowRight" n s =
    set_currentLaneIndex (Z.min 2 (currentLaneIndex s + Z.of_nat n)) s.
Proof.
  intros Hs Hok. unfold lane_ok in Hok. cbn in Hok. unfold presses.
  induction n as [|n [IHl IHr]].
  - cbn [Nat.iter]. destruct s as [g d i t p c os sc fl co m]. cbn in *.
    unfold set_currentLaneIndex; cbn. split; f_equal; lia.
  - rewrite !Nat.iter_succ, IHl, IHr, !keydown_spec. cbn. rewrite Hs.
    unfold set_currentLaneIndex; cbn. split; f_equal.
    + rewrite Nat2Z.inj_succ.
      destruct (Z.ltb_spec 0 (Z.max 0 (currentLaneIndex s - Z.of_nat n))); lia.
    + change (Z.of_nat 3 - 1)%Z with 2%Z. rewrite Nat2Z.inj_succ.
      destruct (Z.ltb_spec (Z.min 2 (currentLaneIndex s + Z.of_nat n)) 2); lia.
Qed.

Lemma presses_saturate_witness :
  currentLaneIndex (presses "ArrowLeft" 5 initial_state) = 0%Z /\
  currentLaneIndex (presses "ArrowRight" 5 initial_state) = 2%Z.
Proof.
  destruct (presses_saturate 5 initial_state) as [-> ->];
    [reflexivity | unfold lane_ok; cbn; lia | split; reflexivity].
Defined.

(** X3: in every state the page can reach the player stands in one of the
    three lanes, at height 0.5 and depth 0; and a frame of a running game
    puts the player at the x of the lane the index designates, so a key
    press shows at the next frame. *)
Theorem player_follows_lane `{ThreeEnv} :
  (forall s, reachable s -> player_ok s) /\
  (forall currentTime rLane rModel s,
     isGameOver s = false -> lane_ok s ->
     lanePositions !! Z.to_nat (currentLaneIndex s) =
       Some (vx (position (playerCube (animate currentTime rLane rModel s))))).
Proof.
  split.
  - induction 1 as [|e s Hr IH _]; [by repeat split; cbn; set_solver|].
    destruct e as [key|t rL rM|k|k]; cbn.
    + rewrite keydown_spec. exact IH.
    + destruct (isGameOver s) eqn:Hs; [by rewrite lane_animate_game_over|].
      destruct (animate_frame t rL rM s Hs) as (_ & _ & Hp & _).
      unfold player_ok. rewrite Hp. unfold snapped.
      destruct (lanePositions !! _) as [x|] eqn:Hx; [|exact IH].
      destruct IH as (_ & Hy & Hz). cbn. split; [|done].
      by eapply list_elem_of_lookup_2.
    + destruct (inFlight s !! k) as [r|]; [|done]. unfold onLoad.
      by destruct (lanePositions !! _).
    + by destruct (inFlight s !! k).
  - intros t rL rM s Hs Hok.
    destruct (animate_frame t rL rM s Hs) as (_ & _ & -> & _).
    unfold snapped. destruct (lanePositions !! _) as [x|] eqn:Hx; [done|].
    apply lookup_ge_None in Hx. unfold lane_ok in Hok. cbn in Hok, Hx. lia.
Qed.

Lemma player_follows_lane_witness :
  vx (position (playerCube
    (animate (H := Samples.sampleEnv) 16 0 0 (keydown "ArrowLeft" initial_state)))) = -2.
Proof.
  destruct (@player_follows_lane Samples.sampleEnv) as [_ Hf].
  specialize (Hf 16 0 0 (keydown "ArrowLeft" initial_state)
                eq_refl ltac:(unfold lane_ok; cbn; lia)).
  apply (inj Some). symmetry. exact Hf.
Defined.

(** X4: every frame of a running game adds 0.05 to the distance, the
    frame that detects a collision included; so along a run that ends
    with the game still on, the distance has grown by 0.05 times the
    number of frames, whatever the keys pressed and the loads resolved
    in between. *)
Theorem distance_counts_frames `{ThreeEnv} :
  (forall currentTime rLane rModel s,
     isGameOver s = false ->
     distanceCovered (animate currentTime rLane rModel s) =
       distanceCovered s + distanceFactor) /\
  (forall es s,
     isGameOver (run es s) = false ->
     distanceCovered (run es s) ==
       distanceCovered s + inject_Z (Z.of_nat (frameCount es)) * distanceFactor).
Proof.
  split; [intros t rL rM s Hs; by destruct (animate_frame t rL rM s Hs)|].
  induction es as [|e es IH]; intros s Hend.
  - cbn. ring.
  - cbn [run fold_left] in Hend |- *. fold (run es (step e s)) in Hend |- *.
    assert (Hs1 : isGameOver (step e s) = false).
    { destruct (isGameOver (step e s)) eqn:E; [|done].
      by rewrite (lane_run_isGameOver es _ E) in Hend. }
    rewrite (IH _ Hend). unfold frameCount. rewrite filter_cons.
    destruct e as [key|t rL rM|k|k]; cbn [is_frame]; cbn [step].
    + rewrite decide_False by done. rewrite keydown_spec. cbn. reflexivity.
    + rewrite decide_True by done. cbn [length].
      assert (Hs : isGameOver s = false).
      { destruct (isGameOver s) eqn:E; [|done]. cbn in Hs1.
        by rewrite lane_animate_game_over, E in Hs1. }
      destruct (animate_frame t rL rM s Hs) as (-> & _).
      rewrite Nat2Z.inj_succ. unfold Z.succ. rewrite inject_Z_plus. ring.
    + rewrite decide_False by done.
      destruct (inFlight s !! k) as [r|]; [|reflexivity]. unfold onLoad.
      destruct (lanePositions !! _); reflexivity.
    + rewrite decide_False by done.
      destruct (inFlight s !! k) as [r|]; reflexivity.
Qed.

Lemma distance_counts_frames_witness :
  distanceCovered (run (H := Samples.sampleEnv)
    [Frame 16 0 0; KeyDown "ArrowLeft"; Frame 32 0 0] initial_state) == 1 # 10.
Proof.
  destruct (@distance_counts_frames Samples.sampleEnv) as [_ Hd].
  rewrite (Hd [Frame 16 0 0; KeyDown "ArrowLeft"; Frame 32 0 0] initial_state eq_refl).
  reflexivity.
Defined.

(** X5: a frame of a running game never lengthens the obstacle array and
    creates no object; it leaves the spawn clock and the loads in flight
    alone unless more than 2000 ms have passed since the last spawn, and
    then it sets the spawn clock to the time of the frame and issues
    exactly one load, for a catalogue file in one of the three lanes. *)
Theorem lane_spawn_pacing `{ThreeEnv} currentTime rLane rModel s :
  isGameOver s = false -> Js.is_random rLane -> Js.is_random rModel ->
  let s' := animate currentTime rLane rModel s in
  (length (obstacles s') <= length (obstacles s))%nat /\
  nextUid s' = nextUid s /\
  ((currentTime - lastSpawnTime s <= spawnInterval /\
    lastSpawnTime s' = lastSpawnTime s /\ inFlight s' = inFlight s) \/
   (spawnInterval < currentTime - lastSpawnTime s /\ lastSpawnTime s' = currentTime /\
    exists r, request_ok r /\ inFlight s' = inFlight s ++ [r])).
Proof.
  intros Hs HL HM. cbn zeta.
  destruct (animate_frame currentTime rLane rModel s Hs)
    as (_ & _ & _ & Hn & Hl & _ & Hsp).
  split; [done|]. split; [done|].
  destruct Hsp as [?|(Hgt & Ht & Hf)]; [by left | right].
  split; [done|]. split; [done|].
  destruct (spawnObstacle_request rLane rModel s HL HM) as (r & Hr & Hsp).
  exists r. split; [done|]. by rewrite Hf, Hsp.
Qed.

Lemma lane_spawn_pacing_witness :
  length (inFlight (animate (H := Samples.sampleEnv) 2016 0 0 initial_state)) = 1%nat /\
  lastSpawnTime (animate (H := Samples.sampleEnv) 2016 0 0 initial_state) = 2016.
Proof.
  destruct (@lane_spawn_pacing Samples.sampleEnv 2016 0 0 initial_state)
    as (_ & _ & [(Hle & _)|(_ & Ht & r & _ & Hf)]);
    [reflexivity | q_solve | q_solve | |].
  - exfalso. revert Hle. q_solve.
  - rewrite Hf, Ht. split; reflexivity.
Defined.

(** X6: in every state the page can reach, the player is blue exactly
    when the game is over and red otherwise, and the console holds
    exactly one Game Over! line when the game is over and none
    otherwise: the end of the game is reported once. *)
Theorem lane_game_over_once `{ThreeEnv} s :
  reachable s ->
  playerColor s = (if isGameOver s then 255 else 16711680)%Z /\
  gameOverCount (console s) = (if isGameOver s then 1 else 0)%nat.
Proof.
  induction 1 as [|e s Hr IH _]; [done|].
  destruct e as [key|t rL rM|k|k]; cbn.
  - rewrite keydown_spec. exact IH.
  - destruct (isGameOver s) eqn:Hs; [by rewrite lane_animate_game_over, Hs|].
    destruct (animate_frame t rL rM s Hs)
      as (_ & _ & _ & _ & _ & [(-> & -> & ->)|(-> & -> & ->)] & _); [done|].
    split; [done|]. destruct IH as [_ IH]. unfold gameOverCount in *.
    rewrite filter_cons. cbn [isLog]. rewrite decide_True by done.
    cbn [length]. by rewrite IH.
  - destruct (inFlight s !! k) as [r|]; [|done]. unfold onLoad.
    by destruct (lanePositions !! _).
  - destruct (inFlight s !! k) as [r|]; [|done].
    cbn [console onError console_put set_inFlight playerColor isGameOver].
    unfold gameOverCount in *. rewrite filter_cons. cbn [isLog].
    rewrite decide_False by done. exact IH.
Qed.

Lemma lane_game_over_once_witness :
  gameOverCount (console (run (H := Samples.sampleEnv) Samples.lane_crash_run initial_state)) = 1%nat.
Proof.
  destruct (@lane_game_over_once Samples.sampleEnv
              (run (H := Samples.sampleEnv) Samples.lane_crash_run initial_state))
    as [_ Hc].
  - apply lane_run_reachable; [constructor|].
    unfold Samples.lane_crash_run. repeat constructor; q_solve.
  - exact Hc.
Defined.

(** X7: in every state the page can reach an obstacle is at depth
    [-20 + 0.1 k] for some number [k] of frames, never nearer the horizon
    than its spawn depth -20; and while the game runs no obstacle is past
    the removal depth 10 when a frame starts. *)
Theorem lane_depth_grid `{ThreeEnv} s :
  reachable s ->
  Forall on_grid (obstacles s) /\
  Forall (fun o => spawnZPosition <= vz (position o)) (obstacles s) /\
  (isGameOver s = false ->
   Forall (fun o => vz (position o) <= removalZPosition) (obstacles s)).
Proof.
  intros Hr.
  assert (Hg : Forall on_grid (obstacles s)).
  { induction Hr as [|e s Hr IH _]; [constructor|].
    destruct e as [key|t rL rM|k|k]; cbn.
    - by rewrite keydown_spec.
    - destruct (isGameOver s) eqn:Hs; [by rewrite lane_animate_game_over|].
      destruct (animate_phases t rL rM s Hs) as (s2 & -> & Ho & _).
      cbn. apply obstacleLoop_Forall; [|by rewrite Ho].
      intros o [k Hk]. exists (S k). cbn. rewrite Hk, Nat2Z.inj_succ.
      unfold Z.succ. rewrite inject_Z_plus. ring.
    - destruct (inFlight s !! k) as [r|]; [|done]. unfold onLoad.
      destruct (lanePositions !! _); [|done]. cbn.
      apply Forall_app. split; [done|]. apply Forall_singleton.
      exists 0%nat. cbn. ring.
    - by destruct (inFlight s !! k). }
  split; [done|]. split.
  - eapply Forall_impl; [exact Hg|]. intros o [k ->].
    assert (0 <= inject_Z (Z.of_nat k)) by (rewrite <- (Zle_Qle 0); lia).
    unfold spawnZPosition, obstacleSpeed. nra.
  - intros Hs. eapply Forall_impl; [exact (lane_reachable_not_beyond s Hr Hs)|].
    intros o Hb. by apply gt_false in Hb.
Qed.

Lemma lane_depth_grid_witness :
  Forall (fun o => spawnZPosition <= vz (position o))
    (obstacles (run (H := Samples.sampleEnv)
       [Frame 3000 (1 # 2) 0; LoadSuccess 0; Frame 3016 0 0] initial_state)).
Proof.
  apply (@lane_depth_grid Samples.sampleEnv).
  apply lane_run_reachable; [constructor|]. repeat constructor; q_solve.
Defined.

(** The obstacle loop keeps the scene in step with the array, whether it
    runs to the end or breaks. *)
Lemma obstacleLoop_scene_ok `{ThreeEnv} base pb k s :
  scene_ok base s -> scene_ok base (obstacleLoop pb k s).
Proof.
  revert s. induction k as [|i IH]; intros s Hok; [done|].
  destruct (obstacles s !! i) as [o|] eqn:Ho; [|by cbn; rewrite Ho].
  rewrite (obstacleLoop_S pb i s o Ho). cbn zeta.
  destruct Hok as (Hsc & Hnd & Hfr).
  assert (Hu : uid <$> <[i := advance o]> (obstacles s) = uid <$> obstacles s).
  { rewrite list_fmap_insert. apply list_insert_id. by rewrite list_lookup_fmap, Ho. }
  assert (Hok1 : scene_ok base (set_obstacles (<[i := advance o]> (obstacles s)) s)).
  { unfold scene_ok. cbn. by rewrite Hu. }
  destruct (collides pb o); [exact Hok1|].
  destruct (beyond (advance o)); apply IH; [|exact Hok1].
  assert (Hi : (uid <$> obstacles s) !! i = Some (uid (advance o)))
    by (by rewrite list_lookup_fmap, Ho).
  destruct (scene_remove_entry base _ i _ Hnd Hi) as [Hfil Hnd'].
  unfold scene_ok. cbn. rewrite Hsc, fmap_uid_delete, Hu.
  split; [exact Hfil|]. split; [exact Hnd'|].
  apply Forall_app. apply Forall_app in Hfr as [Hfb Hfu].
  split; [done | by apply Forall_delete].
Qed.

(** Every event keeps the scene in step with the array. *)
Lemma lane_step_scene_ok `{ThreeEnv} base e s :
  scene_ok base s -> scene_ok base (step e s).
Proof.
  intros Hok. destruct e as [key|t rL rM|k|k]; cbn.
  - by rewrite keydown_spec.
  - destruct (isGameOver s) eqn:Hs; [by rewrite lane_animate_game_over|].
    destruct (animate_phases t rL rM s Hs)
      as (s2 & -> & Ho & Hsc & _ & _ & _ & _ & Hn & _).
    cbn zeta.
    assert (H2 : scene_ok base s2) by (unfold scene_ok; by rewrite Ho, Hsc, Hn).
    by apply (obstacleLoop_scene_ok base (setFromObject (snapped s))
                (length (obstacles s))) in H2.
  - destruct (inFlight s !! k) as [r|]; [|done]. unfold onLoad.
    destruct (lanePositions !! _); [|done].
    destruct Hok as (Hsc & Hnd & Hfr). unfold scene_ok. cbn.
    rewrite Hsc, fmap_app. cbn.
    by apply scene_add_entry; [| |lia].
  - by destruct (inFlight s !! k).
Qed.

(** X8: whatever objects the set-up has put on the scene, the ground
    plane and the player, every event leaves them there, first and in
    their order, followed by the live obstacles in the order of the
    array, each once: an obstacle is on the scene exactly while it is in
    the array, also after the frame that ended the game. *)
Theorem lane_scene_matches_obstacles `{ThreeEnv} base es s :
  scene_ok base s -> scene_ok base (run es s).
Proof.
  revert s. induction es as [|e es IH]; intros s Hok; [done|].
  cbn. apply IH. by apply lane_step_scene_ok.
Qed.

Lemma lane_scene_matches_obstacles_witness :
  scene (run (H := Samples.sampleEnv) Samples.lane_crash_run MoreSamples.lane_set_up) =
  [1; 0]%nat ++
  (uid <$> obstacles (run (H := Samples.sampleEnv) Samples.lane_crash_run
                        MoreSamples.lane_set_up)).
Proof.
  apply (@lane_scene_matches_obstacles Samples.sampleEnv [1; 0]%nat
           Samples.lane_crash_run MoreSamples.lane_set_up).
  split; [reflexivity|]. split; apply (bool_decide_unpack _); by vm_compute.
Defined.



End LaneRunnerMore.

(** ** The second script *)

Module ThemedRunnerMore.
Import ThemedRunner ThemedRunnerProofs ThemedNotions.

Ltac conjs := repeat match goal with |- _ /\ _ => split end; try done; try lia.

(** With no obstacle beyond the threshold the removal loop does nothing. *)
Lemma removalLoop_id k s :
  Forall (fun o => beyond o = false) (obstacles s) -> removalLoop k s = s.
Proof.
  intros Hb. induction k as [|i IH]; [done|]. cbn.
  destruct (obstacles s !! i) as [o|] eqn:Ho; [|done].
  pose proof (Forall_lookup_1 _ _ _ _ Hb Ho) as Hbo. unfold beyond in Hbo.
  cbn in Hbo. by rewrite Hbo.
Qed.

(** What the collision loop leaves: nothing but warnings, or the end of
    the game, reported once. *)
Lemma collisionLoop_outcome `{ThreeEnv} rest s :
  let s' := collisionLoop rest s in
  (isGameOver s' = isGameOver s /\ playerColor s' = playerColor s /\
   gameOverCount (console s') = gameOverCount (console s)) \/
  (Box3_defined = true /\ isGameOver s' = true /\ playerColor s' = 255%Z /\
   gameOverCount (console s') = S (gameOverCount (console s))).
Proof.
  cbn zeta. destruct Box3_defined eqn:Hd.
  - rewrite collisionLoop_defined by done.
    destruct (list_find _ rest) as [[i o]|]; [right | by left].
    split; [done|]. split; [done|]. split; [done|].
    unfold gameOverCount.
    cbn [console gameOver set_playerColor console_put set_isGameOver].
    rewrite filter_cons, decide_True; [done|]. reflexivity.
  - destruct (collisionLoop_undefined rest s Hd) as (Hf & _ & Hc). left.
    unfold game_fields in Hf. by injection Hf as -> _ _ _ _ _ _ _ _ -> _.
Qed.

(** In a state the page can reach, a running frame is the distance
    update, the collision loop and the spawn test: the removal loop finds
    nothing to remove. *)
Lemma themed_frame `{ThreeEnv} deltaTime currentTime rModel rLane rZ s :
  reachable s -> isGameOver s = false ->
  let s2 := collisionLoop (obstacles s)
              (set_distanceCovered (distanceCovered s + playerSpeed * deltaTime) s) in
  animate deltaTime currentTime rModel rLane rZ s =
    if spawnDue currentTime s2
    then set_lastSpawnTime currentTime (spawnObstacle rModel rLane rZ s2)
    else s2.
Proof.
  intros Hr Hs. cbn zeta. unfold animate. rewrite Hs. cbn zeta.
  set (s2 := collisionLoop _ _).
  assert (Ho : obstacles s2 = obstacles s).
  { destruct (collisionLoop_frame (obstacles s)
      (set_distanceCovered (distanceCovered s + playerSpeed * deltaTime) s))
      as (_ & _ & _ & _ & _ & Ho & _). exact Ho. }
  rewrite removalLoop_id; [done|]. rewrite Ho. by apply reachable_not_beyond.
Qed.

(** The steps of the difficulty ramp grow with the distance. *)
Lemma ramp_steps d1 d2 :
  d1 <= d2 ->
  inject_Z (Js.Math_floor (d1 / difficultyStepDistance)) <=
  inject_Z (Js.Math_floor (d2 / difficultyStepDistance)).
Proof.
  intros Hd. rewrite <- Zle_Qle. apply Qfloor_resp_le.
  unfold Qdiv. apply Qmult_le_compat_r; [done | q_solve].
Qed.

(** Arithmetic over the number of steps, taken as an unknown. *)
Ltac ramp_lra :=
  repeat match goal with
  | H : Js.lt _ _ = true |- _ => apply lt_true in H
  | H : Js.lt _ _ = false |- _ => apply lt_false in H
  end;
  repeat match goal with
  | H : context [inject_Z (Js.Math_floor ?x)] |- _ =>
      let f := fresh "f" in set (f := inject_Z (Js.Math_floor x)) in *; clearbody f
  | |- context [inject_Z (Js.Math_floor ?x)] =>
      let f := fresh "f" in set (f := inject_Z (Js.Math_floor x)) in *; clearbody f
  end; lra.

(** A running frame in a state the page can reach: the state [s2] the
    spawn test sees differs from the state before the frame in the
    distance, the flag, the colour and the console only. *)
Lemma frame_cases `{ThreeEnv} deltaTime currentTime rModel rLane rZ s :
  reachable s -> isGameOver s = false ->
  let s' := animate deltaTime currentTime rModel rLane rZ s in
  exists s2,
    obstacles s2 = obstacles s /\ scene s2 = scene s /\ inFlight s2 = inFlight s /\
    nextUid s2 = nextUid s /\ loadedObstacleAssets s2 = loadedObstacleAssets s /\
    currentThemeIndex s2 = currentThemeIndex s /\
    currentThemeName s2 = currentThemeName s /\
    obstaclesSpawnedInCurrentTheme s2 = obstaclesSpawnedInCurrentTheme s /\
    lastSpawnTime s2 = lastSpawnTime s /\
    ((spawnDue currentTime s2 = false /\ s' = s2) \/
     (spawnDue currentTime s2 = true /\
      s' = set_lastSpawnTime currentTime (spawnObstacle rModel rLane rZ s2))).
Proof.
  intros Hr Hs. cbn zeta. rewrite (themed_frame _ _ _ _ _ s Hr Hs).
  destruct (collisionLoop_frame (obstacles s)
      (set_distanceCovered (distanceCovered s + playerSpeed * deltaTime) s))
    as (_ & Ht & Hi & Hn & Hc & Ho & Hsc & Hl & Hf & Hu).
  eexists. repeat (split; [eassumption|]).
  destruct (spawnDue _ _); [right | left]; done.
Qed.

(** The models of the active theme are catalogue models. *)
Lemma active_in_catalogue s f :
  theme_ok s -> f ∈ activeModels s -> f ∈ obstacleModelFiles.
Proof.
  intros [Hi Hn]. unfold activeModels. rewrite Hn.
  destruct (currentThemeIndex s) as [|[|[|[|i]]]]; [| | | |cbn in Hi; lia];
    vm_compute; intros Hf;
    repeat (apply elem_of_cons in Hf as [->|Hf]; [set_solver|]);
    by apply elem_of_nil in Hf.
Qed.

(** Every catalogue model has its own entry in the configuration table:
    the default entry is never used for it. *)
Lemma catalogue_configured f :
  f ∈ obstacleModelFiles ->
  exists c, obstacleConfigurations !! f = Some c /\ lookupConfig f = c.
Proof.
  unfold obstacleModelFiles, lookupConfig. intros Hf.
  repeat (apply elem_of_cons in Hf as [->|Hf];
          [eexists; split; vm_compute; reflexivity|]).
  by apply elem_of_nil in Hf.
Qed.

Lemma configure_own_config id f laneX z :
  f ∈ obstacleModelFiles -> own_config (configure id f laneX z).
Proof.
  intros Hf. destruct (catalogue_configured f Hf) as (c & Hc & Hl).
  exists f, c. unfold configure. rewrite Hl. done.
Qed.

Lemma reachable_idle_reachable `{ThreeEnv} s : reachable_idle s -> reachable s.
Proof. induction 1; by constructor. Qed.

(** X10: the spawn interval never grows with the distance covered and
    never drops below 0.75 s; from distance 0 on it is at most 2 s, it is
    2 s before distance 150, above 0.75 s before distance 1950, and
    0.75 s from distance 1950 on: the ramp ends there. *)
Theorem interval_ramp :
  (forall d1 d2, d1 <= d2 -> currentSpawnInterval d2 <= currentSpawnInterval d1) /\
  (forall d, minSpawnInterval <= currentSpawnInterval d) /\
  (forall d, 0 <= d -> currentSpawnInterval d <= baseSpawnInterval) /\
  (forall d, 0 <= d -> d < difficultyStepDistance ->
             currentSpawnInterval d == baseSpawnInterval) /\
  (forall d, d < 1950 -> minSpawnInterval < currentSpawnInterval d) /\
  (forall d, 1950 <= d -> currentSpawnInterval d = minSpawnInterval).
Proof.
  unfold currentSpawnInterval. cbn zeta.
  unfold baseSpawnInterval, spawnIntervalReductionFactor, minSpawnInterval.
  repeat split.
  - intros d1 d2 Hd. pose proof (ramp_steps d1 d2 Hd) as Hf.
    destruct (Js.lt _ _) eqn:E2; destruct (Js.lt (_ - inject_Z (Js.Math_floor (d1 / _)) * _) _) eqn:E1; ramp_lra.
  - intros d. destruct (Js.lt _ _) eqn:E; ramp_lra.
  - intros d Hd. pose proof (ramp_steps 0 d Hd) as Hf.
    change (inject_Z (Js.Math_floor (0 / difficultyStepDistance))) with 0 in Hf.
    destruct (Js.lt _ _) eqn:E; ramp_lra.
  - intros d Hd Hlt. pose proof (ramp_steps 0 d Hd) as Hf.
    change (inject_Z (Js.Math_floor (0 / difficultyStepDistance))) with 0 in Hf.
    assert (Hz : (Js.Math_floor (d / difficultyStepDistance) < 1)%Z).
    { rewrite Zlt_Qlt. eapply Qle_lt_trans; [apply Qfloor_le|].
      clear Hf. unfold difficultyStepDistance in *.
      apply Qlt_shift_div_r; [q_solve | change (inject_Z 1) with 1; lra]. }
    assert (Hz0 : (0 <= Js.Math_floor (d / difficultyStepDistance))%Z)
      by (by rewrite Zle_Qle).
    replace (Js.Math_floor (d / difficultyStepDistance)) with 0%Z by lia.
    reflexivity.
  - intros d Hd.
    assert (Hz : (Js.Math_floor (d / difficultyStepDistance) < 13)%Z).
    { rewrite Zlt_Qlt. eapply Qle_lt_trans; [apply Qfloor_le|].
      unfold difficultyStepDistance.
      apply Qlt_shift_div_r; [q_solve | change (inject_Z 13) with 13; lra]. }
    assert (Hq : inject_Z (Js.Math_floor (d / difficultyStepDistance)) <= 12).
    { rewrite <- (Zle_Qle _ 12). lia. }
    destruct (Js.lt _ _) eqn:E; ramp_lra.
  - intros d Hd. pose proof (ramp_steps 1950 d Hd) as Hf.
    change (inject_Z (Js.Math_floor (1950 / difficultyStepDistance))) with 13 in Hf.
    destruct (Js.lt _ _) eqn:E; [done|]. ramp_lra.
Qed.

Lemma interval_ramp_witness :
  currentSpawnInterval 2000 <= currentSpawnInterval 300 /\
  currentSpawnInterval 2000 = minSpawnInterval.
Proof.
  destruct interval_ramp as (Hm & _ & _ & _ & _ & He).
  split; [apply Hm; q_solve | apply He; q_solve].
Defined.

(** X11: in every state the page can reach, the player is blue exactly
    when the game is over and red otherwise, and the console holds
    exactly one game-over line when the game is over and none
    otherwise. *)
Theorem themed_game_over_once `{ThreeEnv} s :
  reachable s ->
  playerColor s = (if isGameOver s then 255 else 16711680)%Z /\
  gameOverCount (console s) = (if isGameOver s then 1 else 0)%nat.
Proof.
  induction 1 as [|e s Hr IH _]; [done|].
  destruct e as [dt t rM rL rZ|k rL rZ|k]; cbn.
  - destruct (isGameOver s) eqn:Hs; [by rewrite animate_game_over, Hs|].
    destruct (animate_collision_outcome dt t rM rL rZ s Hs) as (-> & -> & -> & _).
    destruct (collisionLoop_outcome (obstacles s)
      (set_distanceCovered (distanceCovered s + playerSpeed * dt) s))
      as [(-> & -> & ->)|(_ & -> & -> & ->)];
      cbn [isGameOver playerColor console set_distanceCovered]; [by rewrite Hs|].
    destruct IH as [_ ->]. done.
  - destruct (inFlight s !! k) as [f|]; [|done].
    destruct (onLoad_spec f rL rZ (set_inFlight (delete k (inFlight s)) s))
      as (-> & _ & _ & -> & -> & _). exact IH.
  - destruct (inFlight s !! k) as [f|]; [|done]. exact IH.
Qed.

Lemma themed_game_over_once_witness :
  playerColor (run (H := Samples.sampleEnv) Samples.themed_first_obstacle_run
                 initial_state) = 16711680%Z.
Proof.
  apply (@themed_game_over_once Samples.sampleEnv).
  apply run_reachable; [constructor|]. repeat constructor; q_solve.
Defined.

(** A running frame adds the distance of its time step. *)
Lemma animate_distance `{ThreeEnv} deltaTime currentTime rModel rLane rZ s :
  isGameOver s = false ->
  distanceCovered (animate deltaTime currentTime rModel rLane rZ s) =
    distanceCovered s + playerSpeed * deltaTime.
Proof.
  intros Hs.
  destruct (animate_shape deltaTime currentTime rModel rLane rZ s Hs)
    as (s3 & [-> | ->] & _ & _ & Hd3 & _); [done|].
  cbn [distanceCovered set_lastSpawnTime].
  by destruct (spawnObstacle_frame rModel rLane rZ s3) as (_ & -> & _).
Qed.

(** X13: every frame of a running game adds five times its time step to
    the distance, whether or not it detects a collision; so along a run
    that ends with the game still on, the distance has grown by five
    times the sum of the time steps of its frames. *)
Theorem distance_is_speed_times_time `{ThreeEnv} :
  (forall deltaTime currentTime rModel rLane rZ s,
     isGameOver s = false ->
     distanceCovered (animate deltaTime currentTime rModel rLane rZ s) =
       distanceCovered s + playerSpeed * deltaTime) /\
  (forall es s,
     isGameOver (run es s) = false ->
     distanceCovered (run es s) == distanceCovered s + playerSpeed * frameTime es).
Proof.
  pose proof animate_distance as Hd.
  split; [exact Hd|].
  induction es as [|e es IH]; intros s Hend.
  - cbn. ring.
  - cbn [run fold_left] in Hend |- *. fold (run es (step e s)) in Hend |- *.
    assert (Hs1 : isGameOver (step e s) = false).
    { destruct (isGameOver (step e s)) eqn:E; [|done].
      by rewrite (run_isGameOver es _ E) in Hend. }
    rewrite (IH _ Hend).
    destruct e as [dt t rM rL rZ|k rL rZ|k]; cbn [step frameTime foldr].
    + assert (Hs : isGameOver s = false).
      { destruct (isGameOver s) eqn:E; [|done]. cbn in Hs1.
        by rewrite animate_game_over, E in Hs1. }
      rewrite (Hd dt t rM rL rZ s Hs). fold (frameTime es). ring.
    + fold (frameTime es). destruct (inFlight s !! k) as [f|]; [|reflexivity].
      destruct (onLoad_spec f rL rZ (set_inFlight (delete k (inFlight s)) s))
        as (_ & -> & _). reflexivity.
    + fold (frameTime es). destruct (inFlight s !! k) as [f|]; reflexivity.
Qed.

Lemma distance_is_speed_times_time_witness :
  distanceCovered (run (H := Samples.sampleEnv) Samples.themed_first_obstacle_run
                     initial_state) == 5 # 60.
Proof.
  destruct (@distance_is_speed_times_time Samples.sampleEnv) as [_ Hd].
  rewrite (Hd Samples.themed_first_obstacle_run initial_state eq_refl).
  reflexivity.
Defined.

(** The removal loop keeps the scene in step with the array. *)
Lemma removalLoop_scene_ok base k s :
  scene_ok base s -> scene_ok base (removalLoop k s).
Proof.
  revert s. induction k as [|i IH]; intros s Hok; [done|]. cbn.
  destruct (obstacles s !! i) as [o|] eqn:Ho; [|done].
  destruct (Js.gt _ _); apply IH; [|done].
  destruct Hok as (Hsc & Hnd & Hfr).
  assert (Hi : (uid <$> obstacles s) !! i = Some (uid o))
    by (by rewrite list_lookup_fmap, Ho).
  destruct (scene_remove_entry base _ i _ Hnd Hi) as [Hfil Hnd'].
  unfold scene_ok. cbn. rewrite Hsc, fmap_uid_delete.
  split; [exact Hfil|]. split; [exact Hnd'|].
  apply Forall_app. apply Forall_app in Hfr as [Hfb Hfu].
  split; [done | by apply Forall_delete].
Qed.

(** Every event keeps the scene in step with the array. *)
Lemma themed_step_scene_ok `{ThreeEnv} base e s :
  scene_ok base s -> scene_ok base (step e s).
Proof.
  intros Hok.
  assert (Hsame : forall s0 s',
    scene_ok base s0 -> obstacles s' = obstacles s0 -> scene s' = scene s0 ->
    (nextUid s0 <= nextUid s')%nat -> scene_ok base s').
  { intros s0 s' (Hsc0 & Hnd & Hfr) Ho Hsc Hu. unfold scene_ok.
    rewrite Ho, Hsc. split; [done|]. split; [done|].
    eapply Forall_impl; [exact Hfr|]. cbn. intros; lia. }
  assert (Hadd : forall s0 s' o,
    scene_ok base s0 ->
    obstacles s' = obstacles s0 ++ [o] -> scene s' = scene s0 ++ [uid o] ->
    (nextUid s0 <= uid o < nextUid s')%nat -> scene_ok base s').
  { intros s0 s' o (Hsc0 & Hnd & Hfr) Ho Hsc Hu. unfold scene_ok.
    rewrite Ho, Hsc, Hsc0, fmap_app. cbn.
    apply scene_add_entry; [done| |lia].
    eapply Forall_impl; [exact Hfr|]. cbn. intros; lia. }
  destruct e as [dt t rM rL rZ|k rL rZ|k]; cbn.
  - unfold animate. destruct (isGameOver s) eqn:Hs; [done|]. cbn zeta.
    set (s1 := set_distanceCovered _ s).
    destruct (collisionLoop_frame (obstacles s1) s1)
      as (_ & _ & _ & _ & _ & Ho & Hsc & _ & _ & Hn).
    set (s2 := collisionLoop (obstacles s1) s1) in *.
    assert (H2 : scene_ok base s2) 
      by (apply (Hsame s); [done..|rewrite Hn; unfold s1; cbn; lia]).
    pose proof (removalLoop_scene_ok base (length (obstacles s2)) s2 H2) as H3.
    set (s3 := removalLoop _ s2) in *. clearbody s3.
    destruct (spawnDue t s3); [|done].
    destruct (spawnObstacle_after_switch rM rL rZ s3)
      as (_ & _ & _ & [(Ho' & Hsc' & _ & Hn' & _)|
                       [(f & _ & _ & Ho' & Hsc' & _ & Hn' & _)|
                        (f & x & _ & _ & Ho' & Hsc' & _ & Hn' & _)]]).
    + apply (Hsame s3); cbn; [done | done | done | lia].
    + apply (Hsame s3); cbn; [done | done | done | lia].
    + eapply (Hadd s3); cbn; [done | exact Ho' | exact Hsc' | cbn; lia].
  - destruct (inFlight s !! k) as [f|]; [|done].
    destruct (onLoad_spec f rL rZ (set_inFlight (delete k (inFlight s)) s))
      as (_ & _ & _ & _ & _ & _ & _ & _ & _ &
          [(Ho & Hsc & Hn & _)|(x & _ & Ho & Hsc & Hn & _)]).
    + apply (Hsame s); [done | done | done | cbn in Hn; lia].
    + eapply (Hadd s); [done | exact Ho | exact Hsc | cbn in Hn |- *; lia].
  - destruct (inFlight s !! k) as [f|]; [|done]. by apply (Hsame s).
Qed.



Ltac nothing_new := exists []; rewrite app_nil_r; split; [done | cbn; lia].

(** X15: in the second script no obstacle ever leaves: an event appends
    at most one obstacle to the array and changes no other entry, so the
    array of a state is a prefix of the array of every later state.  And
    once 15 obstacles are in the array a frame spawns nothing: it leaves
    the obstacles, the scene, the loads in flight, the cache, the theme,
    its counter and the spawn clock as they were. *)
Theorem obstacles_never_leave `{ThreeEnv} :
  (forall e s, reachable s ->
     exists new, obstacles (step e s) = obstacles s ++ new /\ (length new <= 1)%nat) /\
  (forall es s, reachable s -> Forall valid_event es ->
     obstacles s `prefix_of` obstacles (run es s)) /\
  (forall deltaTime currentTime rModel rLane rZ s,
     reachable s -> (maxObstaclesInScene <= length (obstacles s))%nat ->
     let s' := animate deltaTime currentTime rModel rLane rZ s in
     obstacles s' = obstacles s /\ scene s' = scene s /\ inFlight s' = inFlight s /\
     loadedObstacleAssets s' = loadedObstacleAssets s /\
     currentThemeIndex s' = currentThemeIndex s /\
     obstaclesSpawnedInCurrentTheme s' = obstaclesSpawnedInCurrentTheme s /\
     lastSpawnTime s' = lastSpawnTime s).
Proof.
  assert (Hstep : forall e s, reachable s ->
     exists new, obstacles (step e s) = obstacles s ++ new /\ (length new <= 1)%nat).
  { intros e s Hr. destruct e as [dt t rM rL rZ|k rL rZ|k]; cbn.
    - destruct (isGameOver s) eqn:Hs.
      { rewrite animate_game_over by done. nothing_new. }
      destruct (animate_obstacles dt t rM rL rZ s Hs) as (new & Ho & Hnew & _).
      exists new. split.
      + rewrite Ho. f_equal. clear Ho.
        pose proof (reachable_not_beyond s Hr) as Hb.
        induction Hb as [|o l Hbo Hb IHb]; [done|].
        rewrite filter_cons, decide_True by done. by f_equal.
      + destruct Hnew as [->|(f & x & _ & ->)]; cbn; lia.
    - destruct (inFlight s !! k) as [f|]; [|nothing_new].
      destruct (onLoad_spec f rL rZ (set_inFlight (delete k (inFlight s)) s))
        as (_ & _ & _ & _ & _ & _ & _ & _ & _ & [(-> & _)|(x & _ & -> & _)]).
      + nothing_new.
      + eexists [_]. split; [done | cbn; lia].
    - destruct (inFlight s !! k); nothing_new. }
  split; [exact Hstep|]. split.
  - intros es s Hr Hes. revert s Hr.
    induction Hes as [|e es He _ IH]; intros s Hr; [done|].
    cbn. etrans; [|apply IH; by constructor].
    destruct (Hstep e s Hr) as (new & -> & _). by apply prefix_app_r.
  - intros dt t rM rL rZ s Hr Hfull. cbn zeta.
    destruct (isGameOver s) eqn:Hs; [by rewrite animate_game_over|].
    destruct (frame_cases dt t rM rL rZ s Hr Hs)
      as (s2 & Ho & Hsc & Hf & _ & Hl & Hi & _ & Hc & Ht & [[_ ->]|[Hdue _]]); [done|].
    apply spawnDue_iff in Hdue as [_ Hlt]. rewrite Ho in Hlt. lia.
Qed.

Lemma obstacles_never_leave_witness :
  obstacles (run (H := Samples.sampleEnv) [Frame (1 # 60) 3 0 0 0] initial_state)
    `prefix_of`
  obstacles (run (H := Samples.sampleEnv) Samples.themed_first_obstacle_run initial_state).
Proof.
  apply (proj1 (proj2 (@obstacles_never_leave Samples.sampleEnv))
           [LoadSuccess 0 0 0]
           (run (H := Samples.sampleEnv) [Frame (1 # 60) 3 0 0 0] initial_state)).
  - apply run_reachable; [constructor|]. repeat constructor; q_solve.
  - repeat constructor; q_solve.
Defined.

(** X16: in every state the page can reach, each live obstacle carries
    the name of a catalogue model and has the scale, the rotation and the
    height of that model's own entry in the configuration table, never
    those of the default entry; every load in flight and every cached
    asset is a catalogue model too. *)
Theorem themed_catalogue_closed `{ThreeEnv} s :
  reachable s -> catalogue_ok s.
Proof.
  induction 1 as [|e s Hr IH He].
  { split; [constructor|]. split; [constructor|]. intros f [x Hx]. done. }
  destruct IH as (Hobs & Hfl & Hca). pose proof (reachable_theme_ok s Hr) as Hth.
  destruct e as [dt t rM rL rZ|k rL rZ|k]; cbn.
  - destruct (isGameOver s) eqn:Hs; [by rewrite animate_game_over|].
    destruct (frame_cases dt t rM rL rZ s Hr Hs)
      as (s2 & Ho & Hsc & Hf & Hn & Hl & Hi & Hnm & _ & _ & [[_ ->]|[_ ->]]).
    { unfold catalogue_ok. by rewrite Ho, Hf, Hl. }
    assert (Hth2 : theme_ok (switchTheme s2)).
    { apply switchTheme_theme_ok. unfold theme_ok. by rewrite Hi, Hnm. }
    destruct (spawnObstacle_after_switch rM rL rZ s2)
      as (_ & _ & Hl' & [(Ho' & _ & Hf' & _)|
                         [(f & Hact & _ & Ho' & _ & Hf' & _)|
                          (f & x & Hact & _ & Ho' & _ & Hf' & _)]]);
      destruct (switchTheme_spec s2) as (_ & _ & _ & _ & _ & Hl0);
      unfold catalogue_ok; cbn; rewrite Ho', Hf', Hl', Hl0, Ho, Hf, Hl.
    + done.
    + split; [done|]. split; [|done]. apply Forall_app. split; [done|].
      apply Forall_singleton. by eapply active_in_catalogue.
    + split; [|done]. apply Forall_app. split; [done|].
      apply Forall_singleton, configure_own_config. by eapply active_in_catalogue.
  - destruct (inFlight s !! k) as [f|] eqn:Hk; [|done].
    pose proof (Forall_lookup_1 _ _ _ _ Hfl Hk) as Hfc.
    destruct (onLoad_spec f rL rZ (set_inFlight (delete k (inFlight s)) s))
      as (_ & _ & _ & _ & _ & _ & _ & Hf' & Hl' &
          [(Ho & _)|(x & _ & Ho & _)]);
      unfold catalogue_ok; rewrite Ho, Hf', Hl'; cbn;
      (split; [|split; [by apply Forall_delete|]]).
    + done.
    + intros g Hg. destruct (decide (g = f)) as [->|Hne]; [done|].
      rewrite lookup_insert_ne in Hg by done. by apply Hca.
    + apply Forall_app. split; [done|].
      by apply Forall_singleton, configure_own_config.
    + intros g Hg. destruct (decide (g = f)) as [->|Hne]; [done|].
      rewrite lookup_insert_ne in Hg by done. by apply Hca.
  - destruct (inFlight s !! k) as [f|]; [|done]. unfold catalogue_ok. cbn.
    split; [done|]. split; [by apply Forall_delete | done].
Qed.

Lemma themed_catalogue_closed_witness :
  Forall own_config
    (obstacles (run (H := Samples.sampleEnv) Samples.themed_first_obstacle_run
                  initial_state)).
Proof.
  apply (@themed_catalogue_closed Samples.sampleEnv).
  apply run_reachable; [constructor|]. repeat constructor; q_solve.
Defined.

(** What an event does to the cache and to the loads in flight, in any
    state. *)
Lemma step_cache `{ThreeEnv} e s :
  let s' := step e s in
  (loadedObstacleAssets s' = loadedObstacleAssets s /\
   (inFlight s' = inFlight s \/
    (exists k, inFlight s' = delete k (inFlight s)) \/
    (exists f, loadedObstacleAssets s !! f = None /\ inFlight s' = inFlight s ++ [f]))) \/
  (exists k f, inFlight s !! k = Some f /\
     loadedObstacleAssets s' = <[f := nextUid s]> (loadedObstacleAssets s) /\
     inFlight s' = delete k (inFlight s)).
Proof.
  destruct e as [dt t rM rL rZ|k rL rZ|k]; cbn.
  - left. destruct (isGameOver s) eqn:Hs; [rewrite animate_game_over by done; auto|].
    destruct (animate_shape dt t rM rL rZ s Hs)
      as (s3 & [-> | ->] & _ & _ & _ & _ & _ & _ & _ & Hl & Hf & _); [auto|].
    destruct (switchTheme_spec s3) as (_ & _ & _ & _ & _ & Hl0).
    destruct (spawnObstacle_after_switch rM rL rZ s3)
      as (_ & _ & Hl' & [(_ & _ & Hf' & _)|
                         [(f & _ & Hnone & _ & _ & Hf' & _)|
                          (f & x & _ & _ & _ & _ & Hf' & _)]]);
      cbn; rewrite Hl', Hl0, Hl, Hf', Hf; (split; [done|]); auto.
    right. right. exists f. split; [|done]. by rewrite <- Hl, <- Hl0.
  - destruct (inFlight s !! k) as [f|] eqn:Hk; [right | left; auto].
    exists k, f. split; [done|].
    by destruct (onLoad_spec f rL rZ (set_inFlight (delete k (inFlight s)) s))
      as (_ & _ & _ & _ & _ & _ & _ & -> & -> & _).
  - left. destruct (inFlight s !! k) as [f|]; cbn; eauto.
Qed.

(** X17: the asset cache only grows: a successful load caches its file,
    a cached file stays cached along every run, and a load is issued only
    for a file that is not cached, so a cached file is never asked for
    again. *)
Theorem asset_cache `{ThreeEnv} :
  (forall k rLane rZ s f,
     inFlight s !! k = Some f ->
     is_Some (loadedObstacleAssets (step (LoadSuccess k rLane rZ) s) !! f)) /\
  (forall es s f,
     is_Some (loadedObstacleAssets s !! f) ->
     is_Some (loadedObstacleAssets (run es s) !! f)) /\
  (forall e s f,
     is_Some (loadedObstacleAssets s !! f) ->
     f ∈ inFlight (step e s) -> f ∈ inFlight s).
Proof.
  split; [|split].
  - intros k rL rZ s f Hk. cbn. rewrite Hk.
    destruct (onLoad_spec f rL rZ (set_inFlight (delete k (inFlight s)) s))
      as (_ & _ & _ & _ & _ & _ & _ & _ & -> & _).
    cbn. rewrite lookup_insert_eq. by eexists.
  - induction es as [|e es IH]; intros s f Hf; [done|]. cbn. apply IH.
    destruct (step_cache e s) as [[-> _]|(k & g & _ & -> & _)]; [done|].
    destruct (decide (f = g)) as [->|Hne].
    + rewrite lookup_insert_eq. by eexists.
    + by rewrite lookup_insert_ne.
  - intros e s f [a Hf] Hin.
    destruct (step_cache e s)
      as [[_ [Hi|[(k & Hi)|(g & Hg & Hi)]]]|(k & g & _ & _ & Hi)];
      rewrite Hi in Hin; try done.
    + by eapply list_elem_of_delete_inv.
    + apply elem_of_app in Hin as [Hin|Hin]; [done|].
      apply list_elem_of_singleton in Hin as ->. congruence.
    + by eapply list_elem_of_delete_inv.
Qed.

Lemma asset_cache_witness :
  is_Some (loadedObstacleAssets
    (run (H := Samples.sampleEnv) Samples.themed_first_obstacle_run initial_state)
    !! "jump1.glb").
Proof.
  apply (proj1 (@asset_cache Samples.sampleEnv) 0%nat 0 0
           (run (H := Samples.sampleEnv) [Frame (1 # 60) 3 0 0 0] initial_state)).
  reflexivity.
Defined.

(** X18: a load that succeeds always inserts: whatever the state, the
    game-over flag, the number of obstacles and the theme that was active
    when the load was issued, the callback takes the request off the
    list, caches the asset, and appends one new obstacle of the loaded
    model, configured from the table, which it puts on the scene and
    counts under the theme that is active now. *)
Theorem themed_load_inserts `{ThreeEnv} k rLane rZ s f :
  inFlight s !! k = Some f -> Js.is_random rLane ->
  let s' := step (LoadSuccess k rLane rZ) s in
  exists laneX, laneX ∈ lanePositions /\
    obstacles s' =
      obstacles s ++ [configure (S (nextUid s)) f laneX (- rZ * 50 - 20)] /\
    scene s' = scene s ++ [S (nextUid s)] /\
    inFlight s' = delete k (inFlight s) /\
    loadedObstacleAssets s' = <[f := nextUid s]> (loadedObstacleAssets s) /\
    obstaclesSpawnedInCurrentTheme s' = S (obstaclesSpawnedInCurrentTheme s) /\
    currentThemeIndex s' = currentThemeIndex s /\
    isGameOver s' = isGameOver s /\ lastSpawnTime s' = lastSpawnTime s.
Proof.
  intros Hk HL. cbn. rewrite Hk.
  destruct (onLoad_inserts f rLane rZ (set_inFlight (delete k (inFlight s)) s) HL)
    as (x & Hx & Ho & Hc).
  destruct (onLoad_spec f rLane rZ (set_inFlight (delete k (inFlight s)) s))
    as (Hg & _ & Ht & _ & _ & Hi & _ & Hf & Hl & [(Ho' & _)|(x' & _ & Ho' & Hsc & _)]).
  - rewrite Ho' in Ho. apply (f_equal length) in Ho.
    rewrite length_app in Ho. cbn in Ho. lia.
  - exists x. rewrite Ho, Hsc, Hf, Hl, Hc, Hi, Hg, Ht. done.
Qed.

Lemma themed_load_inserts_witness :
  let s := set_isGameOver true Samples.themed_loading_state in
  length (obstacles (step (H := Samples.sampleEnv) (LoadSuccess 0 0 0) s)) = 1%nat.
Proof.
  intros s.
  pose proof (@themed_load_inserts Samples.sampleEnv 0 0 0 s "jump1.glb"
                eq_refl ltac:(q_solve)) as Hx.
  cbv zeta in Hx. destruct Hx as (x & _ & Ho & _).
  rewrite Ho, length_app. reflexivity.
Defined.

(** X19: when every load resolves before the next frame, at most one
    load is in flight, it asks for a model of the active theme, and the
    obstacles in the array and the loads in flight never add up to more
    than 15: the cap on the scene holds. *)
Theorem idle_loader_bounds `{ThreeEnv} s :
  reachable_idle s ->
  (length (inFlight s) <= 1)%nat /\
  Forall (fun f => f ∈ activeModels s) (inFlight s) /\
  (length (obstacles s) + length (inFlight s) <= maxObstaclesInScene)%nat.
Proof.
  induction 1 as [|e s Hri IH He Hidle]; [by repeat split; cbn; try lia|].
  pose proof (reachable_idle_reachable s Hri) as Hr.
  destruct IH as (H1 & Hact & Hcap).
  destruct e as [dt t rM rL rZ|k rL rZ|k]; cbn.
  - specialize (Hidle eq_refl).
    destruct (isGameOver s) eqn:Hs; [by rewrite animate_game_over|].
    destruct (frame_cases dt t rM rL rZ s Hr Hs)
      as (s2 & Ho & _ & Hf & _ & _ & _ & Hnm & _ & _ & [[_ ->]|[Hdue ->]]).
    { unfold activeModels. by rewrite Ho, Hf, Hnm. }
    apply spawnDue_iff in Hdue as [_ Hlt]. rewrite Ho in Hlt.
    rewrite Hidle in Hf, Hcap. cbn in Hcap.
    destruct (spawnObstacle_after_switch rM rL rZ s2)
      as (_ & Hnm' & _ & [(Ho' & _ & Hf' & _)|
                          [(f & Hin & _ & Ho' & _ & Hf' & _)|
                           (f & x & _ & _ & Ho' & _ & Hf' & _)]]);
      unfold activeModels in *; cbn; rewrite Hnm', Ho', Hf', Hf, Ho; cbn.
    + split; [lia|]. split; [constructor | lia].
    + split; [lia|]. split; [by apply Forall_singleton | lia].
    + rewrite length_app. cbn. split; [lia|]. split; [constructor | lia].
  - destruct (inFlight s !! k) as [f|] eqn:Hk; [|done].
    assert (Hd : S (length (delete k (inFlight s))) = length (inFlight s)).
    { rewrite length_delete by (by eexists). apply lookup_lt_Some in Hk. lia. }
    destruct (onLoad_spec f rL rZ (set_inFlight (delete k (inFlight s)) s))
      as (_ & _ & _ & _ & _ & _ & Hnm & Hf' & _ & [(Ho & _)|(x & _ & Ho & _)]);
      unfold activeModels in *; rewrite Hnm, Hf', Ho; cbn; rewrite ?length_app; cbn;
      (split; [lia|]); (split; [by apply Forall_delete | lia]).
  - destruct (inFlight s !! k) as [f|] eqn:Hk; [|done].
    assert (Hd : S (length (delete k (inFlight s))) = length (inFlight s)).
    { rewrite length_delete by (by eexists). apply lookup_lt_Some in Hk. lia. }
    unfold activeModels in *. cbn.
    split; [lia|]. split; [by apply Forall_delete | lia].
Qed.

Lemma idle_loader_bounds_witness :
  (length (obstacles (run (H := Samples.sampleEnv) Samples.themed_first_obstacle_run
                        initial_state)) <= maxObstaclesInScene)%nat.
Proof.
  destruct (@idle_loader_bounds Samples.sampleEnv
              (run (H := Samples.sampleEnv) Samples.themed_first_obstacle_run
                 initial_state)) as (_ & _ & Hc).
  - change (reachable_idle (H := Samples.sampleEnv)
      (step (H := Samples.sampleEnv) (LoadSuccess 0 0 0)
         (step (H := Samples.sampleEnv) (Frame (1 # 60) 3 0 0 0) initial_state))).
    constructor; [constructor; [constructor | repeat split; q_solve | done]
                 | split; q_solve | discriminate].
  - lia.
Defined.

End ThemedRunnerMore.

(** ** The stand-ins for the clock and for the boxes *)

Module MockProofs.
Import MockClock.

(** The last element of a list that starts with [t]. *)
Lemma last_cons_default {A} (t d : A) l : List.last (t :: l) d = List.last l t.
Proof.
  revert t d. induction l as [|a l IH]; intros t d; [done|].
  change (List.last (a :: l) d = List.last (a :: l) t). by rewrite !IH.
Qed.

(** Division by 1000 as a multiplication, for linear arithmetic. *)
Ltac qdiv := unfold Qdiv in *; change (/ 1000) with (1 # 1000) in *.

(** One call of [getDelta]. *)
Lemma getDelta_spec newTime c :
  let diff := (newTime - mockStartTime c) / 1000 in
  let (d, c') := getDelta newTime c in
  mockStartTime c' = newTime /\
  mockElapsedTime c' = mockElapsedTime c + diff /\
  d <= 5 # 100 /\ d <= diff /\
  (diff <= 5 # 100 -> d = diff) /\
  (mockStartTime c <= newTime -> 0 <= d).
Proof.
  cbn zeta. unfold getDelta. cbn zeta.
  destruct (Js.gt _ (5 # 100)) eqn:E;
    [apply gt_true in E | apply gt_false in E]; qdiv;
    repeat split; try lra; try done.
Qed.

(** X20: the stand-in clock.  However [getDelta] is called, the elapsed
    time it keeps is the time between the creation of the clock and the
    last call, in seconds; no number it returns exceeds 0.05, and the
    numbers returned add up to at most the elapsed time gained, with
    equality when consecutive calls are never more than 50 ms apart; when
    the times of the calls never go back, the numbers returned are not
    negative. *)
Theorem mock_clock_deltas times c :
  let ds := fst (getDeltas times c) in
  let c' := snd (getDeltas times c) in
  length ds = length times /\
  mockStartTime c' = List.last times (mockStartTime c) /\
  getElapsedTime c' == getElapsedTime c + (mockStartTime c' - mockStartTime c) / 1000 /\
  Forall (fun d => d <= 5 # 100) ds /\
  total ds <= getElapsedTime c' - getElapsedTime c /\
  (ascending (mockStartTime c) times -> Forall (fun d => 0 <= d) ds) /\
  (ClockedRunner.steady (mockStartTime c) times ->
   total ds == getElapsedTime c' - getElapsedTime c).
Proof.
  cbn zeta. unfold getElapsedTime. revert c.
  induction times as [|t times IH]; intros c.
  - cbn [getDeltas fst snd length List.last total foldr]. qdiv.
    repeat split; try done; try lra.
  - cbn [getDeltas].
    pose proof (getDelta_spec t c) as Hd. cbn zeta in Hd.
    destruct (getDelta t c) as [d c1]. destruct Hd as (Hs & He & H5 & Hle & Heq & H0).
    specialize (IH c1). destruct (getDeltas times c1) as [ds c2].
    cbn [fst snd] in *. destruct IH as (Hl & Hst & Hel & Hall & Htot & Hasc & Hstd).
    rewrite Hs in *. rewrite He in *. clear He.
    cbn [total foldr length ascending ClockedRunner.steady]. fold (total ds).
    split; [by rewrite Hl|]. split; [by rewrite Hst, last_cons_default|].
    split; [qdiv; lra|]. split; [by constructor|]. split; [qdiv; lra|]. split.
    + intros [Ht Ha]. constructor; [by apply H0 | by apply Hasc].
    + intros [Ht Ha]. specialize (Hstd Ha).
      assert (Hq : d == (t - mockStartTime c) / 1000).
      { rewrite Heq; [reflexivity|]. qdiv. lra. }
      qdiv. lra.
Qed.

Lemma mock_clock_deltas_witness :
  total (fst (getDeltas [16; 32; 48] (mkClock 0 0))) ==
  getElapsedTime (snd (getDeltas [16; 32; 48] (mkClock 0 0))) - 0.
Proof.
  apply (mock_clock_deltas [16; 32; 48] (mkClock 0 0)).
  cbn. repeat split; q_solve.
Defined.

(** X21: the stand-in for [THREE.Box3].  Whether two boxes intersect
    does not depend on which one is asked; a box whose corners are in
    order intersects its clone; the boxes of two meshes intersect exactly
    when their positions differ by at most 0.5 along each axis; and the
    box of an object without geometry does not depend on where the
    object is. *)
Theorem mock_box3_overlap :
  (forall a b, intersectsBox a b = intersectsBox b a) /\
  (forall b, MockBox3.well_formed b -> intersectsBox b (MockBox3.clone b) = true) /\
  (forall p q,
     intersectsBox (MockBox3.setFromObject (MockBox3.mesh p))
                   (MockBox3.setFromObject (MockBox3.mesh q)) = true <->
     (vx p - vx q <= 1 # 2 /\ vx q - vx p <= 1 # 2) /\
     (vy p - vy q <= 1 # 2 /\ vy q - vy p <= 1 # 2) /\
     (vz p - vz q <= 1 # 2 /\ vz q - vz p <= 1 # 2)) /\
  (forall p q,
     MockBox3.setFromObject (MockBox3.group p) =
     MockBox3.setFromObject (MockBox3.group q)).
Proof.
  split; [|split; [|split]].
  - intros a b. unfold intersectsBox.
    f_equal; [f_equal|]; apply andb_comm.
  - intros b (Hx & Hy & Hz). unfold intersectsBox, MockBox3.clone. cbn.
    rewrite !andb_true_iff, !Qle_bool_iff. done.
  - intros p q. unfold intersectsBox, MockBox3.setFromObject, MockBox3.mesh. cbn.
    rewrite !andb_true_iff, !Qle_bool_iff. repeat split; try lra.
    all: intros; lra.
  - done.
Qed.

Lemma mock_box3_overlap_witness :
  intersectsBox (mkBox3 (mkVector3 0 0 0) (mkVector3 1 1 1))
    (MockBox3.clone (mkBox3 (mkVector3 0 0 0) (mkVector3 1 1 1))) = true.
Proof.
  apply mock_box3_overlap. repeat split; q_solve.
Defined.

Section Clocked.
Context `{ThreeEnv}.
Import ThemedRunner ThemedRunnerProofs ClockedRunner.

Lemma frames_isGameOver ticks c s :
  isGameOver s = true -> isGameOver (snd (frames ticks (c, s))) = true.
Proof.
  revert c s. induction ticks as [|k ticks IH]; intros c s Hs; [done|].
  cbn [frames fold_left]. fold (frames ticks (frame k (c, s))).
  unfold frame. cbn [fst snd]. destruct (getDelta (now k) c) as [d c1].
  apply IH. by rewrite animate_game_over.
Qed.

(** X22: the second script on the stand-in clock.  The clock is read at
    every frame, so it is where [getDelta] alone would have taken it;
    and along frames that leave the game on, the distance covered grows
    by at most five times the elapsed time gained: exactly that when
    consecutive frames are never more than 50 ms apart, and it does not
    shrink when time never goes back. *)
Theorem clocked_distance ticks c s :
  let c' := fst (frames ticks (c, s)) in
  let s' := snd (frames ticks (c, s)) in
  c' = snd (getDeltas (now <$> ticks) c) /\
  (isGameOver s' = false ->
   distanceCovered s' <=
     distanceCovered s + playerSpeed * (getElapsedTime c' - getElapsedTime c) /\
   (steady (mockStartTime c) (now <$> ticks) ->
    distanceCovered s' ==
      distanceCovered s + playerSpeed * (getElapsedTime c' - getElapsedTime c)) /\
   (ascending (mockStartTime c) (now <$> ticks) ->
    distanceCovered s <= distanceCovered s')).
Proof.
  cbn zeta. unfold getElapsedTime, playerSpeed. revert c s.
  induction ticks as [|k ticks IH]; intros c s.
  - cbn. split; [done|]. intros _. repeat split; try lra.
  - cbn [frames fold_left fmap list_fmap getDeltas]. fold (frames ticks (frame k (c, s))).
    unfold frame. cbn [fst snd].
    pose proof (getDelta_spec (now k) c) as Hd. cbn zeta in Hd.
    destruct (getDelta (now k) c) as [d c1].
    destruct Hd as (Hs & He & H5 & Hle & Heq & H0).
    set (s1 := animate d _ _ _ _ s).
    destruct (IH c1 s1) as [Hc IH'].
    destruct (getDeltas (now <$> ticks) c1) as [ds c2] eqn:Hds. cbn [snd] in *.
    rewrite Hc in *.
    split; [done|]. intros Hend. specialize (IH' Hend).
    destruct IH' as (Hub & Hst & Hasc).
    assert (Hs1 : isGameOver s1 = false).
    { destruct (isGameOver s1) eqn:E; [|done].
      by rewrite (frames_isGameOver ticks c1 s1 E) in Hend. }
    assert (Hs0 : isGameOver s = false).
    { destruct (isGameOver s) eqn:E; [|done]. unfold s1 in Hs1.
      by rewrite animate_game_over, E in Hs1. }
    assert (Hd1 : distanceCovered s1 = distanceCovered s + 5 * d)
      by (by apply ThemedRunnerMore.animate_distance).
    rewrite Hd1, He, Hs in *. clear He Hd1.
    cbn [steady ascending]. split; [qdiv; lra|]. split.
    + intros [Ht Ha]. specialize (Hst Ha).
      assert (Hq : d == (now k - mockStartTime c) / 1000).
      { rewrite Heq; [reflexivity|]. qdiv. lra. }
      qdiv. lra.
    + intros [Ht Ha]. specialize (Hasc Ha). specialize (H0 Ht). lra.
Qed.

End Clocked.

Lemma clocked_distance_witness :
  let r := ClockedRunner.frames (H := Samples.sampleEnv)
             [ClockedRunner.mkTick 16 0 0 0; ClockedRunner.mkTick 32 0 0 0]
             (mkClock 0 0, ThemedRunner.initial_state) in
  ThemedRunner.distanceCovered (snd r) ==
  ThemedRunner.distanceCovered ThemedRunner.initial_state +
  ThemedRunner.playerSpeed * (getElapsedTime (fst r) - getElapsedTime (mkClock 0 0)).
Proof.
  intros r.
  apply (@clocked_distance Samples.sampleEnv
           [ClockedRunner.mkTick 16 0 0 0; ClockedRunner.mkTick 32 0 0 0]
           (mkClock 0 0) ThemedRunner.initial_state).
  - reflexivity.
  - cbn. repeat split; q_solve.
Defined.

End MockProofs.

(** ** Properties that span both scripts: removal, failed loads, placement *)

(** Two entries of a list without repeated identities that have the same
    identity are the same entry. *)
Lemma NoDup_fmap_elem_eq {A B} (f : A -> B) (l : list A) x y :
  NoDup (f <$> l) -> x ∈ l -> y ∈ l -> f x = f y -> x = y.
Proof.
  intros Hnd [i Hi]%list_elem_of_lookup [j Hj]%list_elem_of_lookup Hf.
  assert (i = j).
  { eapply NoDup_lookup; [exact Hnd| |]; rewrite list_lookup_fmap.
    - by rewrite Hi.
    - rewrite Hj. cbn. by rewrite Hf. }
  subst j. congruence.
Qed.




(** The theme switch reads the index and the counter only. *)
Lemma switchTheme_reads s s0 :
  ThemedRunner.currentThemeIndex s0 = ThemedRunner.currentThemeIndex s ->
  ThemedRunner.currentThemeName s0 = ThemedRunner.currentThemeName s ->
  ThemedRunner.obstaclesSpawnedInCurrentTheme s0 =
    ThemedRunner.obstaclesSpawnedInCurrentTheme s ->
  ThemedRunner.currentThemeIndex (ThemedRunner.switchTheme s0) =
    ThemedRunner.currentThemeIndex (ThemedRunner.switchTheme s) /\
  ThemedRunner.currentThemeName (ThemedRunner.switchTheme s0) =
    ThemedRunner.currentThemeName (ThemedRunner.switchTheme s) /\
  ThemedRunner.obstaclesSpawnedInCurrentTheme (ThemedRunner.switchTheme s0) =
    ThemedRunner.obstaclesSpawnedInCurrentTheme (ThemedRunner.switchTheme s).
Proof.
  intros Hi Hn Hc. unfold ThemedRunner.switchTheme. rewrite Hc, Hi.
  by destruct (_ <=? _)%nat.
Qed.

(** The last load in flight, taken off the list. *)
Lemma delete_last_request {A} (l : list A) (x : A) :
  (l ++ [x]) !! length l = Some x /\ delete (length l) (l ++ [x]) = l.
Proof.
  split; [by apply list_lookup_middle|].
  induction l as [|a l IH]; [done|]. cbn. by f_equal.
Qed.

(** C9, counterexample: in the second script, after five insertions under
    the first theme, the last at 15 s, the frame at 18 s makes a spawn
    attempt whose load fails.  The failure is logged and no obstacle is
    added, but the attempt has changed game-state fields: [lastSpawnTime]
    is 18, the theme has moved from jumps to tunnels, and the theme spawn
    counter is 0 instead of 5. *)
Lemma C9_counterexample :
  let s := @ThemedRunner.run Samples.sampleEnv MoreSamples.themed_cap_run
             ThemedRunner.initial_state in
  let s' := @ThemedRunner.run Samples.sampleEnv MoreSamples.themed_failed_attempt s in
  @ThemedRunner.reachable Samples.sampleEnv s /\
  ThemedRunner.isGameOver s = false /\ ThemedRunner.inFlight s = [] /\
  ThemedRunner.console s' =
    Error "An error happened while loading CoveredTunnel.glb:" :: ThemedRunner.console s /\
  ThemedRunner.obstacles s' = ThemedRunner.obstacles s /\
  ThemedRunner.inFlight s' = [] /\
  (ThemedRunner.lastSpawnTime s == 15 /\ ThemedRunner.lastSpawnTime s' == 18) /\
  (ThemedRunner.currentThemeName s = Some "jumps" /\
   ThemedRunner.currentThemeName s' = Some "tunnels") /\
  (ThemedRunner.obstaclesSpawnedInCurrentTheme s = 5 /\
   ThemedRunner.obstaclesSpawnedInCurrentTheme s' = 0)%nat.
Proof.
  intros s s'. split.
  - apply ThemedRunnerProofs.run_reachable; [constructor|].
    repeat constructor; q_solve.
  - vm_compute. repeat split; reflexivity.
Qed.

(** C9 (as amended): when a load issued by [spawnObstacle] fails, the
    error callback writes one error entry on the console and does nothing
    else: no obstacle enters the array or the scene, no load is issued
    again, and [isGameOver], [distanceCovered], the theme and its counter,
    [lastSpawnTime], the cache and every other field of the game state are
    as they were when the callback ran.  The spawn attempt that issued the
    load is not undone by the failure.  The call of [spawnObstacle] had
    inserted and counted nothing, and left every field but the list of
    loads as it was, apart from the theme switch it makes first when the
    counter has reached the cap, which moves the theme and resets the
    counter.  And the frame that made the attempt had set [lastSpawnTime]
    to its time.  So after a frame of a running game that issues a load,
    followed by the failure of that load: [lastSpawnTime] is the time of
    the frame, the theme and its counter are what the theme switch made
    them, the array holds the obstacles the frame left, no new object
    exists, the cache is as before the frame and the list of loads is
    again what it was before the frame.  The same holds for the first
    script, which has no themes. *)
Theorem C9_load_failure `{ThreeEnv} :
  (forall k s f,
     ThemedRunner.inFlight s !! k = Some f ->
     let s' := ThemedRunner.step (ThemedRunner.LoadError k) s in
     ThemedRunner.game_fields s' = ThemedRunner.game_fields s /\
     ThemedRunner.console s' =
       Error ("An error happened while loading " ++ f ++ ":") :: ThemedRunner.console s /\
     ThemedRunner.inFlight s' = delete k (ThemedRunner.inFlight s)) /\
  (forall rModel rLane rZ s f,
     let s' := ThemedRunner.spawnObstacle rModel rLane rZ s in
     ThemedRunner.inFlight s' = ThemedRunner.inFlight s ++ [f] ->
     ThemedRunner.obstacles s' = ThemedRunner.obstacles s /\
     ThemedRunner.scene s' = ThemedRunner.scene s /\
     ThemedRunner.obstaclesSpawnedInCurrentTheme s' =
       ThemedRunner.obstaclesSpawnedInCurrentTheme (ThemedRunner.switchTheme s) /\
     ThemedRunner.isGameOver s' = ThemedRunner.isGameOver s /\
     ThemedRunner.distanceCovered s' = ThemedRunner.distanceCovered s /\
     ThemedRunner.lastSpawnTime s' = ThemedRunner.lastSpawnTime s /\
     ((ThemedRunner.obstaclesSpawnedInCurrentTheme s
       < ThemedRunner.maxObstaclesPerTheme)%nat ->
      ThemedRunner.game_fields s' = ThemedRunner.game_fields s)) /\
  (forall k s r,
     LaneRunner.inFlight s !! k = Some r ->
     let s' := LaneRunner.step (LaneRunner.LoadError k) s in
     LaneRunner.game_fields s' = LaneRunner.game_fields s /\
     LaneRunner.console s' =
       Error ("Error loading GLTF model from " ++ LaneRunner.fullModelPath r ++ ":")
       :: LaneRunner.console s /\
     LaneRunner.inFlight s' = delete k (LaneRunner.inFlight s)) /\
  (forall rLane rModel s,
     LaneRunner.game_fields (LaneRunner.spawnObstacle rLane rModel s) =
     LaneRunner.game_fields s) /\
  (forall deltaTime currentTime rModel rLane rZ s f,
     ThemedRunner.isGameOver s = false ->
     let s1 := ThemedRunner.animate deltaTime currentTime rModel rLane rZ s in
     ThemedRunner.inFlight s1 = ThemedRunner.inFlight s ++ [f] ->
     let s2 := ThemedRunner.step
                 (ThemedRunner.LoadError (length (ThemedRunner.inFlight s))) s1 in
     (ThemedRunner.lastSpawnTime s1 = currentTime /\
      ThemedRunner.currentThemeIndex s1 =
        ThemedRunner.currentThemeIndex (ThemedRunner.switchTheme s) /\
      ThemedRunner.currentThemeName s1 =
        ThemedRunner.currentThemeName (ThemedRunner.switchTheme s) /\
      ThemedRunner.obstaclesSpawnedInCurrentTheme s1 =
        ThemedRunner.obstaclesSpawnedInCurrentTheme (ThemedRunner.switchTheme s) /\
      ThemedRunner.obstacles s1 =
        filter (fun o => ThemedRunner.beyond o = false) (ThemedRunner.obstacles s) /\
      (forall u, u ∈ ThemedRunner.scene s1 -> u ∈ ThemedRunner.scene s) /\
      ThemedRunner.nextUid s1 = ThemedRunner.nextUid s /\
      ThemedRunner.loadedObstacleAssets s1 = ThemedRunner.loadedObstacleAssets s) /\
     ThemedRunner.game_fields s2 = ThemedRunner.game_fields s1 /\
     ThemedRunner.inFlight s2 = ThemedRunner.inFlight s /\
     ThemedRunner.console s2 =
       Error ("An error happened while loading " ++ f ++ ":") :: ThemedRunner.console s1) /\
  (forall currentTime rLane rModel s r,
     LaneRunner.isGameOver s = false ->
     let s1 := LaneRunner.animate currentTime rLane rModel s in
     LaneRunner.inFlight s1 = LaneRunner.inFlight s ++ [r] ->
     let s2 := LaneRunner.step
                 (LaneRunner.LoadError (length (LaneRunner.inFlight s))) s1 in
     (LaneRunner.lastSpawnTime s1 = currentTime /\
      (length (LaneRunner.obstacles s1) <= length (LaneRunner.obstacles s))%nat /\
      LaneRunner.nextUid s1 = LaneRunner.nextUid s) /\
     LaneRunner.game_fields s2 = LaneRunner.game_fields s1 /\
     LaneRunner.inFlight s2 = LaneRunner.inFlight s /\
     LaneRunner.console s2 =
       Error ("Error loading GLTF model from " ++ LaneRunner.fullModelPath r ++ ":")
       :: LaneRunner.console s1).
Proof.
  split; [|split; [|split; [|split; [|split]]]].
  - intros k s f Hk. cbn. by rewrite Hk.
  - intros rModel rLane rZ s f s' Hf. subst s'.
    destruct (ThemedRunnerProofs.spawnObstacle_frame rModel rLane rZ s)
      as (Hg & Hd & Ht & _).
    destruct (ThemedRunnerProofs.spawnObstacle_after_switch rModel rLane rZ s)
      as (_ & _ & _ & Hcases).
    destruct (ThemedRunnerProofs.spawnObstacle_frame rModel rLane rZ s)
      as (_ & _ & _ & Hp & _).
    destruct (ThemedRunnerProofs.spawnObstacle_after_switch rModel rLane rZ s)
      as (Hi & Hn & Hl & _).
    destruct Hcases as [(_ & _ & Hf' & _)
      |[(f' & _ & _ & Ho & Hsc & _ & Hu & Hc)|(f' & x & _ & _ & _ & _ & Hf' & _)]].
    + rewrite Hf' in Hf. apply (f_equal length) in Hf.
      rewrite length_app in Hf. cbn in Hf. lia.
    + repeat (split; [done|]). intros Hlt.
      destruct (ThemedRunnerProofs.switchTheme_spec s) as ([(Hcap & _)|[_ Hsame]] & _);
        [lia|].
      rewrite Hsame in *. unfold ThemedRunner.game_fields.
      by rewrite Hg, Hd, Ht, Hp, Hi, Hn, Hl, Ho, Hsc, Hu, Hc.
    + rewrite Hf' in Hf. apply (f_equal length) in Hf.
      rewrite length_app in Hf. cbn in Hf. lia.
  - intros k s r Hk. cbn. by rewrite Hk.
  - intros rLane rModel s.
    by destruct (LaneRunnerProofs.lane_spawnObstacle_spec rLane rModel s) as (reqs & -> & _).
- intros dt t rM rL rZ s f Hs s1 Hf s2. subst s1 s2.
    destruct (ThemedRunnerProofs.animate_shape dt t rM rL rZ s Hs)
      as (s3 & Hcase & Ho3 & Hsc3 & _ & _ & Hi3 & Hn3 & Hc3 & Hl3 & Hf3 & Hu3).
    assert (Hlen : forall l : list string, l = ThemedRunner.inFlight s ++ [f] ->
                   l <> ThemedRunner.inFlight s).
    { intros l -> Heq. apply (f_equal length) in Heq.
      rewrite length_app in Heq. cbn in Heq. lia. }
    destruct Hcase as [Heq|Heq]; rewrite Heq in Hf |- *.
    { by destruct (Hlen _ Hf). }
    cbn [ThemedRunner.inFlight ThemedRunner.set_lastSpawnTime] in Hf.
    destruct (switchTheme_reads s s3 Hi3 Hn3 Hc3) as (Hsi & Hsn & Hsc).
    destruct (ThemedRunnerProofs.switchTheme_spec s3) as (_ & _ & _ & _ & _ & Hl0).
    destruct (ThemedRunnerProofs.spawnObstacle_after_switch rM rL rZ s3)
      as (Hi & Hn & Hl & [(_ & _ & Hf' & _)
         |[(f' & _ & _ & Ho & Hsc' & Hf' & Hu & Hc)|(f' & x & _ & _ & _ & _ & Hf' & _)]]).
    + rewrite Hf', Hf3 in Hf. by destruct (Hlen _ Hf).
    + rewrite Hf', Hf3 in Hf. apply app_inv_head in Hf. injection Hf as ->.
      destruct (delete_last_request (ThemedRunner.inFlight s) f) as [Hlk Hdel].
      cbn [ThemedRunner.step ThemedRunner.inFlight ThemedRunner.set_lastSpawnTime].
      rewrite Hf', Hf3, Hlk, Hdel.
      split; [|done].
      cbn. rewrite Hi, Hn, Hc, Ho, Hu, Hl, Hl0, Hsi, Hsn, Hsc, Ho3, Hu3, Hl3.
      repeat (split; [done|]). split; [|done].
      intros u Hin. rewrite Hsc' in Hin. by apply Hsc3 in Hin as [Hin _].
    + rewrite Hf', Hf3 in Hf. by destruct (Hlen _ Hf).
  - intros t rL rM s r Hs s1 Hf s2. subst s1 s2.
    destruct (LaneRunnerMore.animate_frame t rL rM s Hs)
      as (_ & _ & _ & Hn & Hl & _ & [(_ & _ & Hf')|(_ & Ht & Hf')]).
    { rewrite Hf' in Hf. apply (f_equal length) in Hf.
      rewrite length_app in Hf. cbn in Hf. lia. }
    destruct (delete_last_request (LaneRunner.inFlight s) r) as [Hlk Hdel].
    cbn [LaneRunner.step]. rewrite Hf, Hlk, Hdel. done.
Qed.

(** One load in flight fails, in either script. *)
Lemma C9_load_failure_witness :
  let s := Samples.themed_loading_state in
  let t := Samples.lane_loading_state in
  (ThemedRunner.inFlight s !! 0%nat = Some "jump1.glb" /\
   LaneRunner.inFlight t !! 0%nat
   = Some (LaneRunner.mkRequest 1 "models/obstacles/table.glb")) /\
  ThemedRunner.game_fields (@ThemedRunner.step Samples.sampleEnv (ThemedRunner.LoadError 0) s)
  = ThemedRunner.game_fields s /\
  LaneRunner.game_fields (@LaneRunner.step Samples.sampleEnv (LaneRunner.LoadError 0) t)
  = LaneRunner.game_fields t.
Proof.
  intros s t. split; [split; reflexivity|].
  destruct (@C9_load_failure Samples.sampleEnv) as (Hthemed & _ & Hlane & _).
  split.
  - apply (Hthemed 0%nat s "jump1.glb" eq_refl).
  - apply (Hlane 0%nat t _ eq_refl).
Defined.

(** C10, counterexample: the first obstacle of a run whose depth draw is 0
    stands at z = -20, which is not inside the band [[-70, -20)]. *)
Lemma C10_counterexample :
  let s := @ThemedRunner.run Samples.sampleEnv Samples.themed_first_obstacle_run
             ThemedRunner.initial_state in
  @ThemedRunner.reachable Samples.sampleEnv s /\
  exists o, o ∈ ThemedRunner.obstacles s /\
            vz (position o) == -20 /\
            ~ (-70 <= vz (position o) /\ vz (position o) < -20).
Proof.
  intros s. split.
  - apply ThemedRunnerProofs.run_reachable; [constructor|].
    repeat constructor; q_solve.
  - eexists. split; [vm_compute; apply list_elem_of_here|].
    split; [reflexivity|]. intros [_ Hlt]. revert Hlt. q_solve.
Qed.

(** In every reachable state of either script the live obstacles have
    identities of their own, older than the next one. *)
Lemma themed_reachable_ids `{ThreeEnv} s :
  ThemedRunner.reachable s -> ThemedNotions.scene_ok [0%nat] s.
Proof.
  induction 1 as [|e s _ IH _].
  - split; [done|]. split; apply (bool_decide_unpack _); by vm_compute.
  - by apply ThemedRunnerMore.themed_step_scene_ok.
Qed.

Lemma lane_reachable_ids `{ThreeEnv} s :
  LaneRunner.reachable s -> LaneNotions.scene_ok [0%nat] s.
Proof.
  induction 1 as [|e s _ IH _].
  - split; [done|]. split; apply (bool_decide_unpack _); by vm_compute.
  - by apply LaneRunnerMore.lane_step_scene_ok.
Qed.

(** An event of the second script leaves the obstacles it keeps as they
    are; the one it adds is a new object. *)
Lemma themed_step_keeps `{ThreeEnv} e s o' :
  o' ∈ ThemedRunner.obstacles (ThemedRunner.step e s) ->
  o' ∈ ThemedRunner.obstacles s \/ (ThemedRunner.nextUid s <= uid o')%nat.
Proof.
  destruct e as [dt t rM rL rZ|k rL rZ|k]; cbn.
  - destruct (ThemedRunner.isGameOver s) eqn:Hs.
    { rewrite ThemedRunnerProofs.animate_game_over by done. by left. }
    destruct (ThemedRunnerProofs.animate_obstacles dt t rM rL rZ s Hs)
      as (new & -> & Hnew & _).
    intros [Hin|Hin]%elem_of_app.
    + left. by apply list_elem_of_filter in Hin as [_ Hin].
    + destruct Hnew as [->|(f & x & _ & ->)]; [by apply elem_of_nil in Hin|].
      apply list_elem_of_singleton in Hin as ->. right. cbn. lia.
  - destruct (ThemedRunner.inFlight s !! k) as [f|]; [|by left].
    destruct (ThemedRunnerProofs.onLoad_spec f rL rZ
                (ThemedRunner.set_inFlight (delete k (ThemedRunner.inFlight s)) s))
      as (_ & _ & _ & _ & _ & _ & _ & _ & _ & [(-> & _)|(x & _ & -> & _)]);
      [by left|].
    intros [Hin|Hin]%elem_of_app; [by left|].
    apply list_elem_of_singleton in Hin as ->. right. cbn. lia.
  - destruct (ThemedRunner.inFlight s !! k); by left.
Qed.

Lemma themed_step_nextUid `{ThreeEnv} e s :
  (ThemedRunner.nextUid s <= ThemedRunner.nextUid (ThemedRunner.step e s))%nat.
Proof.
  destruct e as [dt t rM rL rZ|k rL rZ|k]; cbn.
  - destruct (ThemedRunner.isGameOver s) eqn:Hs.
    { by rewrite ThemedRunnerProofs.animate_game_over. }
    destruct (ThemedRunnerProofs.animate_obstacles dt t rM rL rZ s Hs)
      as (new & _ & _ & _ & ->). lia.
  - destruct (ThemedRunner.inFlight s !! k) as [f|]; [|done].
    destruct (ThemedRunnerProofs.onLoad_spec f rL rZ
                (ThemedRunner.set_inFlight (delete k (ThemedRunner.inFlight s)) s))
      as (_ & _ & _ & _ & _ & _ & _ & _ & _ & [(_ & _ & -> & _)|(x & _ & _ & _ & -> & _)]);
      cbn; lia.
  - by destruct (ThemedRunner.inFlight s !! k).
Qed.

Lemma themed_run_nextUid `{ThreeEnv} es s :
  (ThemedRunner.nextUid s <= ThemedRunner.nextUid (ThemedRunner.run es s))%nat.
Proof.
  revert s. induction es as [|e es IH]; intros s; [done|]. cbn.
  etrans; [apply (themed_step_nextUid e s) | apply IH].
Qed.

(** An event of the first script leaves the obstacles it keeps where they
    are, or nearer; the one it adds is a new object. *)
Lemma lane_step_keeps `{ThreeEnv} e s o' :
  o' ∈ LaneRunner.obstacles (LaneRunner.step e s) ->
  (exists o, o ∈ LaneRunner.obstacles s /\ uid o' = uid o /\
     vx (position o') = vx (position o) /\ vy (position o') = vy (position o) /\
     vz (position o) <= vz (position o')) \/
  (LaneRunner.nextUid s <= uid o')%nat.
Proof.
  assert (Hsame : o' ∈ LaneRunner.obstacles s ->
    exists o, o ∈ LaneRunner.obstacles s /\ uid o' = uid o /\
     vx (position o') = vx (position o) /\ vy (position o') = vy (position o) /\
     vz (position o) <= vz (position o')).
  { intros Hin. exists o'. repeat split; try done. apply Qle_refl. }
  destruct e as [key|t rL rM|k|k]; cbn.
  - rewrite LaneRunnerProofs.keydown_spec. cbn. intros Hin. left. by apply Hsame.
  - destruct (LaneRunner.isGameOver s) eqn:Hs.
    { rewrite LaneRunnerProofs.lane_animate_game_over by done. intros Hin.
      left. by apply Hsame. }
    destruct (LaneRunnerMore.animate_phases t rL rM s Hs) as (s2 & -> & Ho & _).
    cbn. intros Hin. left.
    assert (HF : Forall
      (fun o' => exists o, o ∈ LaneRunner.obstacles s /\ uid o' = uid o /\
         vx (position o') = vx (position o) /\ vy (position o') = vy (position o) /\
         vz (position o) <= vz (position o'))
      (LaneRunner.obstacles
         (LaneRunner.obstacleLoop (setFromObject (LaneRunner.snapped s))
            (length (LaneRunner.obstacles s)) s2))).
    { apply LaneRunnerMore.obstacleLoop_Forall.
      - intros o1 (o & Hin1 & Hu & Hx & Hy & Hz). exists o. cbn.
        repeat split; try done. unfold LaneRunner.obstacleSpeed. lra.
      - rewrite Ho. apply Forall_forall. intros o Hino. exists o.
        repeat split; try done. apply Qle_refl. }
    rewrite Forall_forall in HF. by apply HF.
  - destruct (LaneRunner.inFlight s !! k) as [r|]; [|intros; left; by apply Hsame].
    unfold LaneRunner.onLoad.
    destruct (LaneRunner.lanePositions !! _); [|intros; left; by apply Hsame].
    cbn. intros [Hin|Hin]%elem_of_app; [left; by apply Hsame|].
    apply list_elem_of_singleton in Hin as ->. right. cbn. lia.
  - destruct (LaneRunner.inFlight s !! k); intros; left; by apply Hsame.
Qed.

Lemma lane_run_nextUid `{ThreeEnv} es s :
  (LaneRunner.nextUid s <= LaneRunner.nextUid (LaneRunner.run es s))%nat.
Proof.
  revert s. induction es as [|e es IH]; intros s; [done|]. cbn.
  etrans; [|apply IH].
  destruct e as [key|t rL rM|k|k]; cbn.
  - by rewrite LaneRunnerProofs.keydown_spec.
  - destruct (LaneRunner.isGameOver s) eqn:Hs.
    { by rewrite LaneRunnerProofs.lane_animate_game_over. }
    by destruct (LaneRunnerMore.animate_frame t rL rM s Hs) as (_ & _ & _ & -> & _).
  - destruct (LaneRunner.inFlight s !! k) as [r|]; [|done]. unfold LaneRunner.onLoad.
    destruct (LaneRunner.lanePositions !! _); cbn; lia.
  - by destruct (LaneRunner.inFlight s !! k).
Qed.

(** C10 (as amended): every obstacle live in a reachable state of the
    second script has its x among [lanePositions], its y equal to the
    [positionY] of the configuration of its model, and its z in the band
    from -70 to -20, both ends included: a depth draw of 0 gives -20, and
    while in exact arithmetic z stays above -70, in binary64 the largest
    draw below 1 rounds to -70.  After its insertion an obstacle is never
    modified in the second script: the obstacle found later under the
    same identity is the obstacle that was inserted, so it keeps its x,
    its y and its z for its whole lifetime.  In the first script every
    live obstacle has its x among the lanes and its y at 0.5, and the
    obstacle found later under the same identity has the same x and the
    same y, and a z that is no smaller: the per-frame motion changes z
    only, and an obstacle remains in its spawn lane for its whole
    lifetime. *)
Theorem C10_spawn_position `{ThreeEnv} :
  (forall s, ThemedRunner.reachable s ->
     Forall (fun o =>
       vx (position o) ∈ ThemedRunner.lanePositions /\
       (exists f, userData o = Some f /\
          vy (position o) = ThemedRunner.positionY (ThemedRunner.lookupConfig f)) /\
       -70 <= vz (position o) /\ vz (position o) <= -20)
       (ThemedRunner.obstacles s)) /\
  (forall id f laneX,
     vz (position (ThemedRunner.configure id f laneX (- 0 * 50 - 20))) == -20) /\
  (Binary64.randomZ 0 = (-20)%float /\
   Binary64.randomZ Binary64.largest_draw = (-70)%float) /\
  (forall es s o o',
     ThemedRunner.reachable s ->
     o ∈ ThemedRunner.obstacles s ->
     o' ∈ ThemedRunner.obstacles (ThemedRunner.run es s) ->
     uid o' = uid o -> o' = o) /\
  (forall s, LaneRunner.reachable s ->
     Forall LaneRunner.in_lane (LaneRunner.obstacles s)) /\
  (forall es s o o',
     LaneRunner.reachable s ->
     o ∈ LaneRunner.obstacles s ->
     o' ∈ LaneRunner.obstacles (LaneRunner.run es s) ->
     uid o' = uid o ->
     vx (position o') = vx (position o) /\ vy (position o') = vy (position o) /\
     vz (position o) <= vz (position o')).
Proof.
  split; [|split; [|split; [|split; [|split]]]].
  - intros s Hs. eapply Forall_impl; [by apply ThemedRunnerProofs.reachable_placed_ok|].
    intros o (Hx & Hy & Hlo & Hhi). repeat split; try done. by apply Qlt_le_weak.
  - reflexivity.
  - split; reflexivity.
  - intros es s o o' Hr Ho. revert o'.
    destruct (themed_reachable_ids s Hr) as (_ & Hnd & Hfr).
    apply NoDup_app in Hnd as (_ & _ & Hnd). apply Forall_app in Hfr as [_ Hfr].
    induction es as [|e es IH] using rev_ind; intros o' Ho' Hu.
    + by apply (NoDup_fmap_elem_eq uid (ThemedRunner.obstacles s)).
    + unfold ThemedRunner.run in Ho'. rewrite fold_left_app in Ho'. cbn in Ho'.
      apply themed_step_keeps in Ho' as [Ho'|Hnew]; [by apply IH|].
      pose proof (themed_run_nextUid es s) as Hmono. unfold ThemedRunner.run in Hmono.
      rewrite Forall_forall in Hfr. specialize (Hfr (uid o)).
      assert (uid o < ThemedRunner.nextUid s)%nat
        by (apply Hfr; by apply list_elem_of_fmap_2).
      lia.
  - apply @LaneRunnerProofs.lane_reachable_in_lane.
  - intros es s o o' Hr Ho. revert o'.
    destruct (lane_reachable_ids s Hr) as (_ & Hnd & Hfr).
    apply NoDup_app in Hnd as (_ & _ & Hnd). apply Forall_app in Hfr as [_ Hfr].
    induction es as [|e es IH] using rev_ind; intros o' Ho' Hu.
    + rewrite (NoDup_fmap_elem_eq uid (LaneRunner.obstacles s) o' o); try done.
      repeat split; try done. apply Qle_refl.
    + unfold LaneRunner.run in Ho'. rewrite fold_left_app in Ho'. cbn in Ho'.
      apply lane_step_keeps in Ho' as [(o1 & Ho1 & Hu1 & Hx & Hy & Hz)|Hnew].
      * destruct (IH o1 Ho1) as (Hx1 & Hy1 & Hz1); [congruence|].
        rewrite Hx, Hy. repeat split; try done. by eapply Qle_trans.
      * pose proof (lane_run_nextUid es s) as Hmono. unfold LaneRunner.run in Hmono.
        rewrite Forall_forall in Hfr. specialize (Hfr (uid o)).
        assert (uid o < LaneRunner.nextUid s)%nat
          by (apply Hfr; by apply list_elem_of_fmap_2).
        lia.
Qed.

(** An obstacle of the second script is the same two frames after its
    insertion, and an obstacle of the first script, loaded into the left
    lane, is still in the left lane fifty frames later. *)
Lemma C10_spawn_position_witness :
  let s := @ThemedRunner.run Samples.sampleEnv Samples.themed_first_obstacle_run
             ThemedRunner.initial_state in
  let s' := @ThemedRunner.run Samples.sampleEnv
              [ThemedRunner.Frame (1 # 60) 6 0 0 0; ThemedRunner.Frame (1 # 60) 9 0 0 0] s in
  let t := @LaneRunner.run Samples.sampleEnv
             [LaneRunner.Frame 3000 0 0; LaneRunner.LoadSuccess 0]
             LaneRunner.initial_state in
  let t' := @LaneRunner.run Samples.sampleEnv (Samples.lane_frame <$> seq 1 50) t in
  (forall o o', ThemedRunner.obstacles s !! 0%nat = Some o ->
                ThemedRunner.obstacles s' !! 0%nat = Some o' -> o' = o) /\
  (forall o o', LaneRunner.obstacles t !! 0%nat = Some o ->
                LaneRunner.obstacles t' !! 0%nat = Some o' ->
                vx (position o') = -2 /\ vx (position o') = vx (position o)).
Proof.
  intros s s' t t'.
  destruct (@C10_spawn_position Samples.sampleEnv) as (_ & _ & _ & Hthemed & _ & Hlane).
  split.
  - intros o o' Ho Ho'.
    apply (Hthemed [ThemedRunner.Frame (1 # 60) 6 0 0 0; ThemedRunner.Frame (1 # 60) 9 0 0 0]
             s o o').
    + apply ThemedRunnerProofs.run_reachable; [constructor|].
      repeat constructor; q_solve.
    + by eapply list_elem_of_lookup_2.
    + by eapply list_elem_of_lookup_2.
    + revert Ho Ho'. vm_compute. by intros [= <-] [= <-].
  - intros o o' Ho Ho'.
    destruct (Hlane (Samples.lane_frame <$> seq 1 50) t o o') as (Hx & _).
    + apply LaneRunnerProofs.lane_run_reachable; [constructor|].
      repeat constructor; q_solve.
    + by eapply list_elem_of_lookup_2.
    + by eapply list_elem_of_lookup_2.
    + revert Ho Ho'. vm_compute. by intros [= <-] [= <-].
    + split; [|exact Hx]. rewrite Hx. revert Ho. vm_compute. by intros [= <-].
Defined.
